(** * tempbin: the R2 storage protocol client (src/services/r2Service.ts)

    A shallow embedding of the upload service: request signing, the
    single-object and multipart upload paths, the retry policy, the
    presigned-URL generator and the CORS probe, followed by the properties
    the specification states about them.

    Conventions.
    - JavaScript promises are run in a state-and-exception monad [M] over
      the trace of observable events; the browser (network, clock, crypto,
      storage, event loop) is a [Host] record of oracles that may inspect
      the trace so far.
    - Protocol text is [string]; buffers are [list byte]; file names, which
      may hold arbitrary Unicode, are lists of code points.
    - Byte counts are [Z]; the progress percentages are exact rationals. *)

From Stdlib Require Import List ZArith Lia Bool Arith.
From Stdlib.Strings Require Import Ascii String Byte.
From Stdlib Require Import DecimalString DecimalZ DecimalPos.
From Stdlib Require Import QArith Qround Lqa.
From Stdlib Require Import Permutation Sorted.
Import ListNotations.

Open Scope string_scope.
Open Scope Z_scope.

(* ------------------------------------------------------------------ *)
(** ** Values shared by the whole service *)

(** [JSON.parse] of the stored configuration (types.ts, [R2Config]). *)
Record R2Config := mkConfig {
  accountId : string;
  accessKeyId : string;
  secretAccessKey : string;
  bucketName : string;
  publicUrl : option string
}.

(** A thrown JavaScript [Error], identified by its message. *)
Inductive Error := JsError (message : string).

(** [string | BufferSource] *)
Inductive Payload :=
| Text (s : string)
| Buffer (b : list byte).

Record Request := mkRequest {
  req_method : string;
  req_url : string;
  req_headers : list (string * string);
  req_body : option Payload
}.

(** What the network hands back: a rejected promise ([fetch]) or the
    [error] event (XHR), or else a response. *)
Record Response := mkResponse {
  status : Z;
  statusText : string;
  etagHeader : option string;
  responseText : string
}.

Inductive NetResult :=
| NetworkFailure (e : Error)
| Responded (r : Response).

Record ProgressEvent := mkProgressEvent {
  lengthComputable : bool;
  loaded : Z;
  total : Z
}.

Inductive Event :=
| EvRequest (r : Request)           (* a request handed to fetch / XHR *)
| EvSleep (ms : Z)                  (* setTimeout(resolve, ms) awaited *)
| EvLog (label : string) (e : Error)(* console.error *)
| EvProgress (percent : Q).         (* the caller's onProgress callback *)

Definition Trace := list Event.

(** [persistence.getItem('r2Config')] followed by [JSON.parse]. *)
Inductive Stored :=
| NoItem
| Item (c : R2Config)
| Unreadable (e : Error).

Record Host := mkHost {
  crypto_available : bool;                         (* crypto && crypto.subtle *)
  digest : list byte -> list byte;                 (* subtle.digest('SHA-256') *)
  hmac_sign : list byte -> list byte -> list byte; (* subtle.sign('HMAC') *)
  respond : Trace -> Request -> NetResult;
  upload_progress : Trace -> Request -> list ProgressEvent;
  toISOString : Trace -> string;                   (* new Date().toISOString() *)
  random36 : Trace -> string;                      (* Math.random().toString(36) *)
  getItem : Trace -> Stored;
  parseUploadId : string -> option string;         (* DOMParser: text of the
                                                      first UploadId element *)
  settles_next : Trace -> nat -> nat               (* event loop: which of the
                                                      k promises in flight
                                                      settles first *)
}.

(** A JavaScript array that may have holes; in the pool's [results] an
    empty slot is an index whose promise has not resolved yet. *)
Definition JsArray (A : Type) := list (option A).

(** The mutable state a call can observe: the events so far and the
    [partProgresses] array shared by the progress closures. *)
Record World := mkWorld {
  trace : Trace;
  partProgresses : JsArray Q
}.

Inductive Outcome (A : Type) :=
| Ok (a : A)
| Throw (e : Error).
Arguments Ok {A} a.
Arguments Throw {A} e.

Definition M (A : Type) : Type := World -> Outcome A * World.

Definition ret {A} (a : A) : M A := fun w => (Ok a, w).

Definition bind {A B} (m : M A) (k : A -> M B) : M B :=
  fun w => match m w with
           | (Ok a, w') => k a w'
           | (Throw e, w') => (Throw e, w')
           end.

Definition throw {A} (e : Error) : M A := fun w => (Throw e, w).

(** [try { body } catch (error) { handler error }] *)
Definition try_catch {A} (body : M A) (handler : Error -> M A) : M A :=
  fun w => match body w with
           | (Ok a, w') => (Ok a, w')
           | (Throw e, w') => handler e w'
           end.

Declare Scope js_scope.
Delimit Scope js_scope with js.
Notation "x <- c1 ;; c2" := (bind c1 (fun x => c2))
  (at level 61, c1 at next level, right associativity) : js_scope.
Notation "c1 ;; c2" := (bind c1 (fun _ => c2))
  (at level 61, right associativity) : js_scope.
Open Scope js_scope.

Definition emit (ev : Event) : M unit :=
  fun w => (Ok tt, mkWorld (trace w ++ [ev])%list (partProgresses w)).

Definition get_trace : M Trace := fun w => (Ok (trace w), w).

Definition sleep (ms : Z) : M unit := emit (EvSleep ms).

Definition console_error (label : string) (e : Error) : M unit :=
  emit (EvLog label e).

(* ------------------------------------------------------------------ *)
(** ** Retry policy *)

Definition MULTIPART_THRESHOLD : Z := 100 * 1024 * 1024.
Definition PART_SIZE : Z := 10 * 1024 * 1024.
Definition MAX_CONCURRENT_PARTS : nat := 3.

(** [retry(fn, retries, delay, backoff)]: the recursion is on the number
    of retries left; [retries <= 0] is [retries = 0] on a counter. *)
Fixpoint retry {A} (fn : M A) (retries : nat) (delay backoff : Z) : M A :=
  try_catch fn (fun error =>
    match retries with
    | O => throw error
    | S retries' =>
        sleep delay ;;
        retry fn retries' (delay * backoff) backoff
    end).

(** The call sites all rely on the defaults. *)
Definition retry_default {A} (fn : M A) : M A := retry fn 3 1000 2.

(* ------------------------------------------------------------------ *)
(** ** Text helpers: what the template literals and string methods do *)

Definition nl : string := String "010"%char EmptyString.

(** [`${n}`] for an integral number. *)
Definition number_to_string (n : Z) : string :=
  NilZero.string_of_int (Z.to_int n).

Definition hex_digit (upper : bool) (n : N) : ascii :=
  if (n <? 10)%N then ascii_of_N (48 + n)
  else ascii_of_N ((if upper then 55 else 87) + n).

(** [b.toString(16).padStart(2, '0')] *)
Definition hex_of_byte (b : byte) : string :=
  let n := Byte.to_N b in
  String (hex_digit false (n / 16)) (String (hex_digit false (n mod 16)) EmptyString).

(** [Array.from(new Uint8Array(buf)).map(...).join('')] *)
Definition hex_of_bytes (bs : list byte) : string :=
  String.concat EmptyString (map hex_of_byte bs).

(** [new TextEncoder().encode(s)] on text that is already held as bytes. *)
Definition encode (s : string) : list byte := list_byte_of_string s.

Definition payload_bytes (p : Payload) : list byte :=
  match p with
  | Text s => encode s
  | Buffer b => b
  end.

Definition lower_char (c : ascii) : ascii :=
  let n := N_of_ascii c in
  if ((65 <=? n) && (n <=? 90))%N then ascii_of_N (n + 32) else c.

(** [s.toLowerCase()] (header names are ASCII tokens). *)
Fixpoint toLowerCase (s : string) : string :=
  match s with
  | EmptyString => EmptyString
  | String c r => String (lower_char c) (toLowerCase r)
  end.

Definition is_space_char (c : ascii) : bool :=
  let n := N_of_ascii c in
  ((n =? 32) || ((9 <=? n) && (n <=? 13)))%N.

Fixpoint trimStart (s : string) : string :=
  match s with
  | EmptyString => EmptyString
  | String c r => if is_space_char c then trimStart r else s
  end.

Definition string_rev (s : string) : string :=
  string_of_list_ascii (rev (list_ascii_of_string s)).

(** [s.trim()] *)
Definition trim (s : string) : string :=
  string_rev (trimStart (string_rev (trimStart s))).

(** [s.substr(0, n)] *)
Definition substr0 (n : nat) (s : string) : string := String.substring 0 n s.

(** The characters [encodeURIComponent] leaves alone:
    [A-Z a-z 0-9 - _ . ! ~ * ' ( )]. *)
Definition uri_unreserved (n : N) : bool :=
  (((65 <=? n) && (n <=? 90)) || ((97 <=? n) && (n <=? 122)) ||
   ((48 <=? n) && (n <=? 57)) ||
   (n =? 45) || (n =? 95) || (n =? 46) || (n =? 33) || (n =? 126) ||
   (n =? 42) || (n =? 39) || (n =? 40) || (n =? 41))%N.

Definition percent_byte (b : byte) : string :=
  let n := Byte.to_N b in
  if uri_unreserved n then String (ascii_of_N n) EmptyString
  else String "%"%char
         (String (hex_digit true (n / 16))
            (String (hex_digit true (n mod 16)) EmptyString)).

(** Percent-encoding of UTF-8 bytes, the body of [encodeURIComponent]. *)
Definition percent_encode (bs : list byte) : string :=
  String.concat EmptyString (map percent_byte bs).

(** [encodeURIComponent(s)] on protocol text. *)
Definition encodeURIComponent (s : string) : string :=
  percent_encode (encode s).

(** [keys.sort()]: ascending by code unit (insertion into a sorted list). *)
Fixpoint insert_sorted (k : string) (l : list string) : list string :=
  match l with
  | [] => [k]
  | x :: r => if String.leb k x then k :: l else x :: insert_sorted k r
  end.

Definition sort_strings (l : list string) : list string :=
  fold_right insert_sorted [] l.

(** A [Record<string, string>]: keys in insertion order. *)
Definition Headers := list (string * string).

Definition object_keys (h : Headers) : list string := map fst h.

Fixpoint lookup (k : string) (h : Headers) : option string :=
  match h with
  | [] => None
  | (k', v) :: r => if String.eqb k k' then Some v else lookup k r
  end.

(** [h[k] = v] *)
Fixpoint set_property (k v : string) (h : Headers) : Headers :=
  match h with
  | [] => [(k, v)]
  | (k', v') :: r =>
      if String.eqb k k' then (k, v) :: r else (k', v') :: set_property k v r
  end.

(** [xs.map(f).join(sep)] *)
Definition map_join {A} (f : A -> string) (sep : string) (xs : list A) : string :=
  String.concat sep (map f xs).

(** [iso.replace(/[:-]|\.\d{3}/g, '')]; [skip] counts the digits of a
    matched fraction still to be dropped. *)
Definition is_digit (c : ascii) : bool :=
  let n := N_of_ascii c in ((48 <=? n) && (n <=? 57))%N.

Definition three_digits (s : string) : bool :=
  match s with
  | String a (String b (String c _)) => is_digit a && is_digit b && is_digit c
  | _ => false
  end.

Fixpoint strip_amz (skip : nat) (s : string) : string :=
  match s with
  | EmptyString => EmptyString
  | String c r =>
      match skip with
      | S k => strip_amz k r
      | O =>
          if (Ascii.eqb c ":" || Ascii.eqb c "-")%bool then strip_amz 0 r
          else if (Ascii.eqb c "." && three_digits r)%bool then strip_amz 3 r
          else String c (strip_amz 0 r)
      end
  end.

(** [s.replace(/[-:T.]/g, '')] *)
Fixpoint strip_stamp (s : string) : string :=
  match s with
  | EmptyString => EmptyString
  | String c r =>
      if (Ascii.eqb c "-" || Ascii.eqb c ":" || Ascii.eqb c "T" || Ascii.eqb c ".")%bool
      then strip_stamp r
      else String c (strip_stamp r)
  end.

(** [s.includes('.') ? s.substring(s.lastIndexOf('.')) : ''] *)
Fixpoint extension_of (s : string) : string :=
  match s with
  | EmptyString => EmptyString
  | String c r =>
      match extension_of r with
      | EmptyString => if Ascii.eqb c "." then s else EmptyString
      | e => e
      end
  end.

(** [s.replace(/\/$/, '')] *)
Fixpoint strip_trailing_slash (s : string) : string :=
  match s with
  | EmptyString => EmptyString
  | String c EmptyString => if Ascii.eqb c "/" then EmptyString else s
  | String c r => String c (strip_trailing_slash r)
  end.

(* ------------------------------------------------------------------ *)
(** ** Hashing primitives and the signature engine *)

Section Service.

Variable host : Host.

Definition sha256 (data : Payload) : M string :=
  if crypto_available host
  then ret (hex_of_bytes (digest host (payload_bytes data)))
  else throw (JsError "crypto.subtle is not available. Please use HTTPS or localhost to enable secure cryptography APIs required for R2 uploads.").

(** [crypto.subtle.importKey] then [sign]; without [crypto.subtle] the
    property access itself throws. *)
Definition hmacSha256Buffer (key : list byte) (data : string) : M (list byte) :=
  if crypto_available host
  then ret (hmac_sign host key (encode data))
  else throw (JsError "TypeError: crypto.subtle is undefined").

Definition hmacSha256 (key : list byte) (data : string) : M string :=
  signature <- hmacSha256Buffer key data ;;
  ret (hex_of_bytes signature).

Definition getSignatureKey (key dateStamp regionName serviceName : string)
  : M (list byte) :=
  kDate <- hmacSha256Buffer (encode ("AWS4" ++ key)) dateStamp ;;
  kRegion <- hmacSha256Buffer kDate regionName ;;
  kService <- hmacSha256Buffer kRegion serviceName ;;
  kSigning <- hmacSha256Buffer kService "aws4_request" ;;
  ret kSigning.

Definition getAmzDate : M string :=
  tr <- get_trace ;;
  ret (strip_amz 0 (toISOString host tr)).

(** The canonical pieces of [createAwsSignature], named as in the source. *)
Definition sortedHeaders (headers : Headers) : list string :=
  sort_strings (object_keys headers).

(** [headers[key]] for a key that [Object.keys] has just listed. *)
Definition header_value (headers : Headers) (key : string) : string :=
  match lookup key headers with
  | Some v => v
  | None => EmptyString
  end.

Definition canonicalHeaders (headers : Headers) : string :=
  map_join (fun key => toLowerCase key ++ ":" ++ trim (header_value headers key) ++ nl)
           EmptyString (sortedHeaders headers).

Definition signedHeaders (headers : Headers) : string :=
  map_join toLowerCase ";" (sortedHeaders headers).

Definition canonicalQueryString (queryParams : Headers) : string :=
  map_join (fun key => encodeURIComponent key ++ "=" ++
                       encodeURIComponent (header_value queryParams key))
           "&" (sort_strings (object_keys queryParams)).

Definition canonicalRequest (method path : string) (headers : Headers)
    (payloadHash : string) (queryParams : Headers) : string :=
  method ++ nl ++ path ++ nl ++ canonicalQueryString queryParams ++ nl ++
  canonicalHeaders headers ++ nl ++ signedHeaders headers ++ nl ++ payloadHash.

Definition createAwsSignature (method path : string) (headers : Headers)
    (config : R2Config) (payload : Payload) (queryParams : Headers) : M string :=
  let region := "auto" in
  let service := "s3" in
  payloadHash <- sha256 payload ;;
  let request := canonicalRequest method path headers payloadHash queryParams in
  match lookup "X-Amz-Date" headers with
  | None => throw (JsError "TypeError: date is undefined")
  | Some date =>
      let dateStamp := substr0 8 date in
      let credentialScope :=
        dateStamp ++ "/" ++ region ++ "/" ++ service ++ "/aws4_request" in
      canonicalRequestHash <- sha256 (Text request) ;;
      let stringToSign :=
        "AWS4-HMAC-SHA256" ++ nl ++ date ++ nl ++ credentialScope ++ nl ++
        canonicalRequestHash in
      signingKey <- getSignatureKey (secretAccessKey config) dateStamp region service ;;
      signature <- hmacSha256 signingKey stringToSign ;;
      ret ("AWS4-HMAC-SHA256 Credential=" ++ accessKeyId config ++ "/" ++
           credentialScope ++ ", SignedHeaders=" ++ signedHeaders headers ++
           ", Signature=" ++ signature)
  end.

(** ** Presigned URL generator *)

Definition r2_host (config : R2Config) : string :=
  accountId config ++ ".r2.cloudflarestorage.com".

Definition r2_endpoint (config : R2Config) : string :=
  "https://" ++ r2_host config.

(** [X-Amz-...] query string of a presigned URL, without the signature. *)
Definition presignQuery (config : R2Config) (amzDate : string) (expiresIn : Z)
  : string :=
  let dateStamp := substr0 8 amzDate in
  let credentialScope := dateStamp ++ "/auto/s3/aws4_request" in
  let credential := encodeURIComponent (accessKeyId config ++ "/" ++ credentialScope) in
  String.concat "&"
    [ "X-Amz-Algorithm=AWS4-HMAC-SHA256";
      "X-Amz-Credential=" ++ credential;
      "X-Amz-Date=" ++ amzDate;
      "X-Amz-Expires=" ++ number_to_string expiresIn;
      "X-Amz-SignedHeaders=host" ].

Definition presignCanonicalRequest (config : R2Config) (fileName amzDate : string)
    (expiresIn : Z) : string :=
  let path := "/" ++ bucketName config ++ "/" ++ fileName in
  let canonicalHeaders := "host:" ++ r2_host config ++ nl in
  let signedHeaders := "host" in
  let payloadHash := "UNSIGNED-PAYLOAD" in
  "GET" ++ nl ++ path ++ nl ++ presignQuery config amzDate expiresIn ++ nl ++
  canonicalHeaders ++ nl ++ signedHeaders ++ nl ++ payloadHash.

(** [config.publicUrl] as a condition: set and not the empty string. *)
Definition truthy (s : option string) : option string :=
  match s with
  | Some EmptyString => None
  | other => other
  end.

(** [expiresIn] is [None] when the caller leaves the argument out. *)
Definition generatePresignedUrl (fileName : string) (config : R2Config)
    (expiresIn : option Z) : M string :=
  let expiresIn := match expiresIn with Some n => n | None => 600 end in
  match truthy (publicUrl config) with
  | Some url => ret (strip_trailing_slash url ++ "/" ++ fileName)
  | None =>
      let endpoint := r2_endpoint config in
      let path := "/" ++ bucketName config ++ "/" ++ fileName in
      let region := "auto" in
      let service := "s3" in
      amzDate <- getAmzDate ;;
      let dateStamp := substr0 8 amzDate in
      let credentialScope :=
        dateStamp ++ "/" ++ region ++ "/" ++ service ++ "/aws4_request" in
      let queryParams := presignQuery config amzDate expiresIn in
      let request := presignCanonicalRequest config fileName amzDate expiresIn in
      canonicalRequestHash <- sha256 (Text request) ;;
      let stringToSign :=
        "AWS4-HMAC-SHA256" ++ nl ++ amzDate ++ nl ++ credentialScope ++ nl ++
        canonicalRequestHash in
      signingKey <- getSignatureKey (secretAccessKey config) dateStamp region service ;;
      signature <- hmacSha256 signingKey stringToSign ;;
      ret (endpoint ++ path ++ "?" ++ queryParams ++ "&X-Amz-Signature=" ++ signature)
  end.

(* ------------------------------------------------------------------ *)
(** ** File names and files *)

(** A file name as the sequence of its Unicode code points. *)
Definition ustring := list N.

Definition ustr (s : string) : ustring := map N_of_ascii (list_ascii_of_string s).

Definition byte_of_N (n : N) : byte :=
  match Byte.of_N n with
  | Some b => b
  | None => x00
  end.

(** UTF-8, as [TextEncoder] and [encodeURIComponent] produce it. *)
Definition utf8_point (c : N) : list byte :=
  (if c <? 128 then [byte_of_N c]
   else if c <? 2048 then
     [byte_of_N (192 + c / 64); byte_of_N (128 + c mod 64)]
   else if c <? 65536 then
     [byte_of_N (224 + c / 4096); byte_of_N (128 + (c / 64) mod 64);
      byte_of_N (128 + c mod 64)]
   else
     [byte_of_N (240 + (c / 262144) mod 8); byte_of_N (128 + (c / 4096) mod 64);
      byte_of_N (128 + (c / 64) mod 64); byte_of_N (128 + c mod 64)])%N.

Definition utf8 (s : ustring) : list byte := flat_map utf8_point s.

(** The regular expression class [\s]. *)
Definition is_whitespace (c : N) : bool :=
  (((9 <=? c) && (c <=? 13)) || (c =? 32) || (c =? 160) || (c =? 5760) ||
   ((8192 <=? c) && (c <=? 8202)) || (c =? 8232) || (c =? 8233) ||
   (c =? 8239) || (c =? 8287) || (c =? 12288) || (c =? 65279))%N.

(** The class of unsafe characters: slash, backslash, colon, asterisk,
    question mark, double quote, angle brackets, pipe, and the control
    characters 0x00-0x1F and 0x7F. *)
Definition is_unsafe (c : N) : bool :=
  ((c =? 47) || (c =? 92) || (c =? 58) || (c =? 42) || (c =? 63) || (c =? 34) ||
   (c =? 60) || (c =? 62) || (c =? 124) || (c <=? 31) || (c =? 127))%N.

Definition is_dot (c : N) : bool := (c =? 46)%N.
Definition is_hyphen (c : N) : bool := (c =? 45)%N.
Definition is_dot_or_hyphen (c : N) : bool := is_dot c || is_hyphen c.

(** What a finished run of matching characters turns into: the
    replacement when it is long enough to match, itself otherwise.
    The run is kept newest-first. *)
Definition flush_run (min_len : nat) (replacement run : ustring) : ustring :=
  if (min_len <=? List.length run)%nat then replacement else rev run.

(** [s.replace(/C{min_len,}/g, replacement)] for a character class [C]:
    each maximal run of at least [min_len] matching characters is replaced. *)
Fixpoint replace_runs (C : N -> bool) (min_len : nat) (replacement : ustring)
    (run : ustring) (s : ustring) : ustring :=
  match s with
  | [] => flush_run min_len replacement run
  | c :: r =>
      if C c then replace_runs C min_len replacement (c :: run) r
      else (flush_run min_len replacement run ++
            c :: replace_runs C min_len replacement [] r)%list
  end.

Fixpoint drop_while (C : N -> bool) (s : ustring) : ustring :=
  match s with
  | [] => []
  | c :: r => if C c then drop_while C r else s
  end.

(** [s.replace(/^C+|C+$/g, '')] *)
Definition trim_class (C : N -> bool) (s : ustring) : ustring :=
  rev (drop_while C (rev (drop_while C s))).

(** The name [sanitizeFileName] settles on before it encodes it. *)
Definition finalName (fileName : ustring) : ustring :=
  let noSpaces := replace_runs is_whitespace 1 (ustr "-") [] fileName in
  let safeChars := filter (fun c => negb (is_unsafe c)) noSpaces in
  let result :=
    replace_runs is_hyphen 2 (ustr "-") []
      (replace_runs is_dot 2 (ustr ".") [] safeChars) in
  let trimmed := trim_class is_dot_or_hyphen result in
  match trimmed with
  | [] => ustr "unnamed-file"
  | _ => trimmed
  end.

(** [encodeURIComponent(finalName)] *)
Definition sanitizeFileName (fileName : ustring) : string :=
  percent_encode (utf8 (finalName fileName)).

Record File := mkFile {
  file_name : ustring;
  file_type : string;
  file_content : list byte
}.

Definition file_size (file : File) : Z := Z.of_nat (List.length (file_content file)).

(** [blob.slice(start, end)]: both ends are clamped to the blob, a
    negative one counts from its end. *)
Definition clamp_index (size i : Z) : Z :=
  if i <? 0 then Z.max (size + i) 0 else Z.min i size.

Definition blob_slice (content : list byte) (start stop : Z) : list byte :=
  let size := Z.of_nat (List.length content) in
  let from := clamp_index size start in
  let to := clamp_index size stop in
  firstn (Z.to_nat (Z.max (to - from) 0)) (skipn (Z.to_nat from) content).

(** [file.slice(start, end).arrayBuffer()] and [file.slice(start)]. *)
Definition file_slice (file : File) (start stop : Z) : list byte :=
  blob_slice (file_content file) start stop.

Definition file_slice_from (file : File) (start : Z) : list byte :=
  blob_slice (file_content file) start (file_size file).

(** [file.type || 'application/octet-stream'] *)
Definition content_type_of (file : File) : string :=
  match file_type file with
  | EmptyString => "application/octet-stream"
  | t => t
  end.

(** ** Content fingerprint *)

Definition partial_chunks (file : File) : list (list byte) :=
  let chunkSize := 1024 * 1024 in
  let first := [file_slice file 0 chunkSize] in
  let middle := file_size file / 2 in
  let with_middle :=
    if middle >? chunkSize
    then (first ++ [file_slice file middle (middle + chunkSize)])%list
    else first in
  if file_size file >? 2 * chunkSize
  then (with_middle ++ [file_slice_from file (Z.max 0 (file_size file - chunkSize))])%list
  else with_middle.

(** [encoder.encode(`${file.name}-${file.size}`)] *)
Definition hash_metadata (file : File) : list byte :=
  (utf8 (file_name file) ++ encode ("-" ++ number_to_string (file_size file)))%list.

Definition calculatePartialHash (file : File) : M string :=
  let chunks := partial_chunks file in
  let metadata := hash_metadata file in
  let combined := (metadata ++ List.concat chunks)%list in
  sha256 (Buffer combined).

Definition calculateFileHash (file : File) : M string :=
  if file_size file >? 50 * 1024 * 1024
  then calculatePartialHash file
  else sha256 (Buffer (file_content file)).

Definition hashFileName (fileName : string) : M string :=
  let extension := extension_of fileName in
  tr <- get_trace ;;
  let timestamp := substr0 14 (strip_stamp (toISOString host tr)) in
  let random := String.substring 2 6 (random36 host tr) in
  ret (timestamp ++ "-" ++ random ++ extension).

(* ------------------------------------------------------------------ *)
(** ** Transport *)

Definition response_ok (r : Response) : bool :=
  (200 <=? status r) && (status r <=? 299).

(** [await fetch(url, init)] *)
Definition fetch (req : Request) : M Response :=
  tr <- get_trace ;;
  emit (EvRequest req) ;;
  match respond host tr req with
  | NetworkFailure e => throw e
  | Responded r => ret r
  end.

(** [(event.loaded / event.total) * 100] *)
Definition percentComplete (ev : ProgressEvent) : Q :=
  (inject_Z (loaded ev) / inject_Z (total ev)) * 100.

Fixpoint dispatch_progress (events : list ProgressEvent) (onProgress : Q -> M unit)
  : M unit :=
  match events with
  | [] => ret tt
  | ev :: rest =>
      (if lengthComputable ev then onProgress (percentComplete ev) else ret tt) ;;
      dispatch_progress rest onProgress
  end.

(** One [XMLHttpRequest] PUT: progress events while the body goes out,
    then [onload] with the response or [onerror]. *)
Definition xhr_put {A} (url : string) (headers : Headers) (body : list byte)
    (onProgress : option (Q -> M unit))
    (onload : Response -> M A) (onerror : M A) : M A :=
  let req := mkRequest "PUT" url headers (Some (Buffer body)) in
  tr <- get_trace ;;
  emit (EvRequest req) ;;
  match onProgress with
  | Some callback => dispatch_progress (upload_progress host tr req) callback
  | None => ret tt
  end ;;
  match respond host tr req with
  | NetworkFailure _ => onerror
  | Responded r => onload r
  end.

Definition uploadSmallFile (url : string) (headers : Headers) (body : list byte)
    (onProgress : option (Q -> M unit)) : M unit :=
  xhr_put url headers body onProgress
    (fun xhr =>
       if (status xhr >=? 200) && (status xhr <? 300) then ret tt
       else throw (JsError ("Upload failed: " ++ number_to_string (status xhr) ++
                            " " ++ statusText xhr)))
    (throw (JsError "Network error during upload")).

Definition object_path (config : R2Config) (fileName : string) : string :=
  "/" ++ bucketName config ++ "/" ++ fileName.

Definition empty_payload : Payload := Text EmptyString.

Definition initiateMultipartUpload (config : R2Config) (fileName contentType : string)
  : M string :=
  let endpoint := r2_endpoint config in
  let path := object_path config fileName in
  let url := endpoint ++ path ++ "?uploads" in
  amzDate <- getAmzDate ;;
  emptyHash <- sha256 empty_payload ;;
  let headers : Headers :=
    [ ("Host", r2_host config);
      ("X-Amz-Date", amzDate);
      ("Content-Type", contentType);
      ("X-Amz-Content-Sha256", emptyHash) ] in
  authorization <-
    createAwsSignature "POST" path headers config empty_payload
                       [("uploads", EmptyString)] ;;
  let headers := set_property "Authorization" authorization headers in
  response <- fetch (mkRequest "POST" url headers None) ;;
  if negb (response_ok response) then
    throw (JsError ("Failed to initiate multipart upload: " ++ statusText response))
  else
    match truthy (parseUploadId host (responseText response)) with
    | None => throw (JsError "Failed to get UploadId from response")
    | Some uploadId => ret uploadId
    end.

Definition uploadPart (config : R2Config) (fileName uploadId : string)
    (partNumber : Z) (body : list byte) (onProgress : option (Q -> M unit))
  : M string :=
  let endpoint := r2_endpoint config in
  let path := object_path config fileName in
  let queryParams : Headers :=
    [ ("partNumber", number_to_string partNumber); ("uploadId", uploadId) ] in
  let url := endpoint ++ path ++ "?partNumber=" ++ number_to_string partNumber ++
             "&uploadId=" ++ uploadId in
  amzDate <- getAmzDate ;;
  contentHash <- sha256 (Buffer body) ;;
  let headers : Headers :=
    [ ("Host", r2_host config);
      ("X-Amz-Date", amzDate);
      ("X-Amz-Content-Sha256", contentHash) ] in
  authorization <-
    createAwsSignature "PUT" path headers config (Buffer body) queryParams ;;
  let headers := set_property "Authorization" authorization headers in
  xhr_put url headers body onProgress
    (fun xhr =>
       if (status xhr >=? 200) && (status xhr <? 300) then
         match truthy (etagHeader xhr) with
         | Some etag => ret etag
         | None => throw (JsError "ETag not found in response")
         end
       else throw (JsError ("Part upload failed: " ++ number_to_string (status xhr) ++
                            " " ++ statusText xhr)))
    (throw (JsError "Network error during part upload")).

Record Part := mkPart {
  PartNumber : Z;
  ETag : string
}.

Definition part_xml (p : Part) : string :=
  "<Part><PartNumber>" ++ number_to_string (PartNumber p) ++
  "</PartNumber><ETag>" ++ ETag p ++ "</ETag></Part>".

Definition dquote : string := String "034"%char EmptyString.

(** The body of the completion call; the blanks are the template's own. *)
Definition completeXmlBody (parts : list Part) : string :=
  nl ++ "    <CompleteMultipartUpload xmlns=" ++ dquote ++
  "http://s3.amazonaws.com/doc/2006-03-01/" ++ dquote ++ ">" ++ nl ++
  "      " ++ map_join part_xml EmptyString parts ++ nl ++
  "    </CompleteMultipartUpload>" ++ nl ++ "  ".

Definition completeMultipartUpload (config : R2Config) (fileName uploadId : string)
    (parts : list Part) : M unit :=
  let endpoint := r2_endpoint config in
  let path := object_path config fileName in
  let queryParams : Headers := [ ("uploadId", uploadId) ] in
  let url := endpoint ++ path ++ "?uploadId=" ++ uploadId in
  amzDate <- getAmzDate ;;
  let xmlBody := completeXmlBody parts in
  bodyHash <- sha256 (Text xmlBody) ;;
  let headers : Headers :=
    [ ("Host", r2_host config);
      ("X-Amz-Date", amzDate);
      ("Content-Type", "application/xml");
      ("X-Amz-Content-Sha256", bodyHash) ] in
  authorization <-
    createAwsSignature "POST" path headers config (Text xmlBody) queryParams ;;
  let headers := set_property "Authorization" authorization headers in
  response <- fetch (mkRequest "POST" url headers (Some (Text xmlBody))) ;;
  if negb (response_ok response) then
    throw (JsError ("Failed to complete multipart upload: " ++ statusText response))
  else ret tt.

Definition abortRequest (config : R2Config) (fileName uploadId : string)
    (headers : Headers) : Request :=
  mkRequest "DELETE"
    (r2_endpoint config ++ object_path config fileName ++ "?uploadId=" ++ uploadId)
    headers None.

Definition abortMultipartUpload (config : R2Config) (fileName uploadId : string)
  : M unit :=
  let path := object_path config fileName in
  let queryParams : Headers := [ ("uploadId", uploadId) ] in
  amzDate <- getAmzDate ;;
  emptyHash <- sha256 empty_payload ;;
  let headers : Headers :=
    [ ("Host", r2_host config);
      ("X-Amz-Date", amzDate);
      ("X-Amz-Content-Sha256", emptyHash) ] in
  authorization <-
    createAwsSignature "DELETE" path headers config empty_payload queryParams ;;
  let headers := set_property "Authorization" authorization headers in
  _ <- fetch (abortRequest config fileName uploadId headers) ;;
  ret tt.

(** ** Bucket policy client: the CORS probe *)

Definition getBucketCors (config : R2Config) : M bool :=
  let endpoint := r2_endpoint config in
  let path := "/" ++ bucketName config in
  let queryParams : Headers := [ ("cors", EmptyString) ] in
  let url := endpoint ++ path ++ "?cors" in
  amzDate <- getAmzDate ;;
  emptyHash <- sha256 empty_payload ;;
  let headers : Headers :=
    [ ("Host", r2_host config);
      ("X-Amz-Date", amzDate);
      ("X-Amz-Content-Sha256", emptyHash) ] in
  authorization <-
    createAwsSignature "GET" path headers config empty_payload queryParams ;;
  let headers := set_property "Authorization" authorization headers in
  try_catch
    (response <- fetch (mkRequest "GET" url headers None) ;;
     if status response =? 404 then ret false
     else if negb (response_ok response) then
       throw (JsError ("Failed to get CORS policy: " ++
                       number_to_string (status response) ++ " " ++
                       statusText response))
     else ret true)
    (fun error =>
       console_error "Error checking CORS:" error ;;
       ret false).

(* ------------------------------------------------------------------ *)
(** ** The bounded pool *)

(** [a[i] = v]: a write past the end extends the array with holes. *)
Fixpoint array_set {A} (i : nat) (v : option A) (a : JsArray A) : JsArray A :=
  match i, a with
  | O, [] => [v]
  | O, _ :: r => v :: r
  | S i', [] => None :: array_set i' v []
  | S i', x :: r => x :: array_set i' v r
  end.

(** [new Array(n).fill(v)] *)
Definition array_fill {A} (n : nat) (v : A) : JsArray A := repeat (Some v) n.

(** The values [Promise.all(results)] resolves to, in index order. *)
Fixpoint promise_values {A} (a : JsArray A) : list A :=
  match a with
  | [] => []
  | Some v :: r => v :: promise_values r
  | None :: r => promise_values r
  end.

(** [executing.splice(k, 1)] *)
Fixpoint splice_one {A} (k : nat) (l : list A) : list A :=
  match k, l with
  | _, [] => []
  | O, _ :: r => r
  | S k', x :: r => x :: splice_one k' r
  end.

(** The pool, one settled promise per step.  [next] is the index the
    [for] loop will start next and [executing] the promises in flight.
    The loop starts items until [executing.length >= concurrency], then
    waits for [Promise.race]; the host's event loop decides which of the
    promises in flight settles first.  A task runs as one step, so a
    rejected task rejects the pool at once. *)
Fixpoint pool_steps {T} (fuel concurrency count : nat) (task : nat -> M T)
    (next : nat) (executing : list nat) (results : JsArray T) : M (JsArray T) :=
  match fuel with
  | O => ret results
  | S fuel' =>
      let room := (Nat.max 1 concurrency - List.length executing)%nat in
      let started := seq next (Nat.min room (count - next)) in
      let executing := (executing ++ started)%list in
      let results := fold_left (fun r index => array_set index None r) started results in
      match executing with
      | [] => ret results
      | _ =>
          tr <- get_trace ;;
          let k := (settles_next host tr (List.length executing)
                    mod List.length executing)%nat in
          let index := nth k executing O in
          res <- task index ;;
          pool_steps fuel' concurrency count task
            (next + List.length started)%nat
            (splice_one k executing)
            (array_set index (Some res) results)
      end
  end.

Definition asyncPool {X T} (concurrency : nat) (items : list X)
    (fn : X -> nat -> M T) : M (list T) :=
  let task index :=
    match nth_error items index with
    | Some item => fn item index
    | None => throw (JsError "no such item")
    end in
  results <- pool_steps (List.length items) concurrency (List.length items)
                        task O [] [] ;;
  ret (promise_values results).

(* ------------------------------------------------------------------ *)
(** ** Upload *)

Definition getR2Config : M (option R2Config) :=
  tr <- get_trace ;;
  match getItem host tr with
  | NoItem => ret None
  | Item c => ret (Some c)
  | Unreadable e => console_error "Error getting R2 config:" e ;; ret None
  end.

(** [Math.ceil(a / b)] on byte counts. *)
Definition ceil_div (a b : Z) : Z := - ((- a) / b).

Definition totalParts_of (size : Z) : Z := ceil_div size PART_SIZE.

(** [parts.sort((a, b) => a.PartNumber - b.PartNumber)] *)
Fixpoint insert_part (p : Part) (l : list Part) : list Part :=
  match l with
  | [] => [p]
  | x :: r => if PartNumber p <=? PartNumber x then p :: l else x :: insert_part p r
  end.

Definition sort_parts (l : list Part) : list Part := fold_right insert_part [] l.

(** The size the progress callback charges to part [idx]. *)
Definition progress_part_size (size totalParts idx : Z) : Z :=
  if idx =? totalParts - 1 then size - idx * PART_SIZE else PART_SIZE.

(** [partProgresses.reduce((acc, prog, idx) => acc + (prog / 100) * partSize, 0)];
    [reduce] skips the holes of an array. *)
Fixpoint reduce_uploaded (size totalParts : Z) (idx : Z) (progresses : JsArray Q)
    (acc : Q) : Q :=
  match progresses with
  | [] => acc
  | None :: rest => reduce_uploaded size totalParts (idx + 1) rest acc
  | Some prog :: rest =>
      reduce_uploaded size totalParts (idx + 1) rest
        (acc + (prog / 100) * inject_Z (progress_part_size size totalParts idx))
  end.

Definition totalProgress (size totalParts : Z) (progresses : JsArray Q) : Q :=
  let totalUploadedBytes := reduce_uploaded size totalParts 0 progresses 0 in
  (totalUploadedBytes / inject_Z size) * 100.

(** The closure handed to [uploadPart] for part [i]. *)
Definition on_part_progress (size totalParts : Z) (i : nat) (onProgress : bool)
    (partProgress : Q) : M unit :=
  fun w =>
    let progresses := array_set i (Some partProgress) (partProgresses w) in
    let w := mkWorld (trace w) progresses in
    if onProgress
    then emit (EvProgress (totalProgress size totalParts progresses)) w
    else (Ok tt, w).

Definition reset_progress (totalParts : Z) : M unit :=
  fun w => (Ok tt, mkWorld (trace w) (array_fill (Z.to_nat totalParts) 0%Q)).

Definition upload_one_part (config : R2Config) (fileName uploadId : string)
    (file : File) (totalParts : Z) (onProgress : bool) (i : nat) : M Part :=
  let start := Z.of_nat i * PART_SIZE in
  let stop := Z.min (start + PART_SIZE) (file_size file) in
  let chunk := file_slice file start stop in
  let partNumber := Z.of_nat i + 1 in
  etag <- retry_default
            (uploadPart config fileName uploadId partNumber chunk
               (Some (on_part_progress (file_size file) totalParts i onProgress))) ;;
  ret (mkPart partNumber etag).

(** The [try] block of the multipart branch. *)
Definition multipart_body (config : R2Config) (fileName uploadId : string)
    (file : File) (totalParts : Z) (onProgress : bool) : M unit :=
  let partIndices := seq 0 (Z.to_nat totalParts) in
  parts <- asyncPool MAX_CONCURRENT_PARTS partIndices
             (fun i _ => upload_one_part config fileName uploadId file totalParts
                                         onProgress i) ;;
  let parts := sort_parts parts in
  retry_default (completeMultipartUpload config fileName uploadId parts).

(** Its [catch] block. *)
Definition multipart_abort (config : R2Config) (fileName uploadId : string)
    (error : Error) : M unit :=
  console_error "Multipart upload failed, aborting..." error ;;
  retry_default (abortMultipartUpload config fileName uploadId) ;;
  throw error.

Definition multipart_upload (config : R2Config) (fileName : string) (file : File)
    (onProgress : bool) : M unit :=
  uploadId <- retry_default
                (initiateMultipartUpload config fileName (content_type_of file)) ;;
  let totalParts := totalParts_of (file_size file) in
  reset_progress totalParts ;;
  try_catch (multipart_body config fileName uploadId file totalParts onProgress)
            (multipart_abort config fileName uploadId).

Definition single_upload (config : R2Config) (fileName : string) (file : File)
    (onProgress : bool) : M unit :=
  let endpoint := r2_endpoint config in
  let path := object_path config fileName in
  let url := endpoint ++ path in
  amzDate <- getAmzDate ;;
  let fileBuffer := file_content file in
  contentHash <- sha256 (Buffer fileBuffer) ;;
  let headers : Headers :=
    [ ("Host", r2_host config);
      ("X-Amz-Date", amzDate);
      ("X-Amz-Content-Sha256", contentHash);
      ("Content-Type", content_type_of file) ] in
  authorization <-
    createAwsSignature "PUT" path headers config (Buffer fileBuffer) [] ;;
  let headers := set_property "Authorization" authorization headers in
  retry_default
    (uploadSmallFile url headers fileBuffer
       (if onProgress then Some (fun p => emit (EvProgress p)) else None)).

(** [customName || file.name] *)
Definition nameToUse (file : File) (customName : option ustring) : ustring :=
  match customName with
  | Some (c :: r) => c :: r
  | _ => file_name file
  end.

(** [onProgress] tells whether the caller passed a callback; calling it
    is the event [EvProgress]. *)
Definition uploadFileToR2 (file : File) (hashFilenames : bool) (onProgress : bool)
    (customName : option ustring) : M (string * string) :=
  config <- getR2Config ;;
  match config with
  | None =>
      throw (JsError "R2 configuration not found. Please configure your R2 settings.")
  | Some config =>
      let sanitizedName := sanitizeFileName (nameToUse file customName) in
      fileName <- (if hashFilenames then hashFileName sanitizedName
                   else ret sanitizedName) ;;
      (if file_size file >? MULTIPART_THRESHOLD
       then multipart_upload config fileName file onProgress
       else single_upload config fileName file onProgress) ;;
      downloadUrl <- generatePresignedUrl fileName config (Some 600) ;;
      ret (fileName, downloadUrl)
  end.

End Service.


(* ------------------------------------------------------------------ *)
(** ** Observations on runs and traces *)

Definition is_request (ev : Event) : bool :=
  match ev with
  | EvRequest _ => true
  | _ => false
  end.

Definition is_sleep (ev : Event) : bool :=
  match ev with
  | EvSleep _ => true
  | _ => false
  end.

Definition count_events (p : Event -> bool) (tr : Trace) : nat :=
  List.length (filter p tr).

(** Every run of [m] only appends to the trace, and what it appends
    satisfies [P]. *)
Definition emits_only {A} (P : Event -> Prop) (m : M A) : Prop :=
  forall w, exists evs,
    trace (snd (m w)) = (trace w ++ evs)%list /\ Forall P evs.

(** Every run of [m] appends exactly one request, and no sleep. *)
Definition one_request {A} (P : Event -> Prop) (m : M A) : Prop :=
  forall w, exists evs,
    trace (snd (m w)) = (trace w ++ evs)%list /\ Forall P evs /\
    count_events is_request evs = 1%nat /\ count_events is_sleep evs = 0%nat.

(** A property of the requests of a trace; other events pass. *)
Definition on_requests (ok : Request -> Prop) (ev : Event) : Prop :=
  match ev with
  | EvRequest r => ok r
  | _ => True
  end.


(** The part numbers of an upload in [n] parts: 1, 2, ..., n. *)
Definition part_numbers (n : nat) : list Z :=
  map (fun i => Z.of_nat i + 1) (seq 0 n).

(** The byte range of part [n] (counted from 1). *)
Definition part_chunk (file : File) (n : Z) : list byte :=
  file_slice file ((n - 1) * PART_SIZE)
    (Z.min ((n - 1) * PART_SIZE + PART_SIZE) (file_size file)).

(** The four requests of the multipart protocol for one object. *)
Definition multipart_request (config : R2Config) (key : string) (file : File)
    (r : Request) : Prop :=
  let base := r2_endpoint config ++ object_path config key in
  (req_method r = "POST" /\ req_url r = base ++ "?uploads" /\ req_body r = None)
  \/
  (req_method r = "PUT" /\
   exists n uploadId,
     req_url r = base ++ "?partNumber=" ++ number_to_string n ++
                 "&uploadId=" ++ uploadId /\
     req_body r = Some (Buffer (part_chunk file n)) /\
     Z.of_nat (List.length (part_chunk file n)) <= PART_SIZE)
  \/
  (req_method r = "POST" /\
   exists uploadId parts,
     req_url r = base ++ "?uploadId=" ++ uploadId /\
     req_body r = Some (Text (completeXmlBody parts)) /\
     map PartNumber parts =
       part_numbers (Z.to_nat (totalParts_of (file_size file))))
  \/
  (req_method r = "DELETE" /\
   exists uploadId,
     req_url r = base ++ "?uploadId=" ++ uploadId /\ req_body r = None).


Definition is_delete (ev : Event) : bool :=
  match ev with
  | EvRequest r => String.eqb (req_method r) "DELETE"
  | _ => false
  end.

Definition is_log (ev : Event) : bool :=
  match ev with
  | EvLog _ _ => true
  | _ => false
  end.

(** The first request of a list of events, if it has one. *)
Fixpoint first_request (evs : list Event) : option Request :=
  match evs with
  | [] => None
  | EvRequest r :: _ => Some r
  | _ :: rest => first_request rest
  end.


(** The sleeps of a trace, in order. *)
Fixpoint sleeps_of (tr : Trace) : list Z :=
  match tr with
  | [] => []
  | EvSleep ms :: r => ms :: sleeps_of r
  | _ :: r => sleeps_of r
  end.

(** The percentages handed to the caller's progress callback, in order. *)
Fixpoint progress_of (tr : Trace) : list Q :=
  match tr with
  | [] => []
  | EvProgress p :: r => p :: progress_of r
  | _ :: r => progress_of r
  end.

(** Progress events of the parts, in the order the browser delivers
    them to the closures of [uploadFileToR2]: (part index, percent). *)
Fixpoint deliver_progress (size totalParts : Z) (onProgress : bool)
    (events : list (nat * Q)) : M unit :=
  match events with
  | [] => ret tt
  | (i, percent) :: rest =>
      on_part_progress size totalParts i onProgress percent ;;
      deliver_progress size totalParts onProgress rest
  end.

(** Each event belongs to a part of the upload, is at most 100 and is
    not below the progress that part has already reported. *)
Fixpoint monotone_events (progresses : JsArray Q) (events : list (nat * Q)) : Prop :=
  match events with
  | [] => True
  | (i, percent) :: rest =>
      (exists current, nth_error progresses i = Some (Some current) /\
                       (current <= percent)%Q) /\
      (percent <= 100)%Q /\
      monotone_events (array_set i (Some percent) progresses) rest
  end.

(** The bytes the parts from [idx] on, [len] of them, can account for. *)
Definition capacity (size parts idx : Z) (len : nat) : Z :=
  match len with
  | O => 0
  | S _ => if idx + Z.of_nat len =? parts
           then size - idx * PART_SIZE
           else Z.of_nat len * PART_SIZE
  end.

Definition at_most_100 (e : option Q) : Prop :=
  match e with
  | Some p => (p <= 100)%Q
  | None => True
  end.








(* ------------------------------------------------------------------ *)
(** ** A reference host: SHA-256 and HMAC as [crypto.subtle] computes them

    The service treats the digest and the keyed digest as primitives of
    the host.  This module gives the host's side (FIPS 180-4, RFC 2104)
    on 32-bit words held in [Z], so that statements about signatures can
    also be checked on the real functions. *)

Module WebCrypto.

Definition w32 (x : Z) : Z := x mod 4294967296.

Definition add32 (a b : Z) : Z := w32 (a + b).

Definition rotr (n x : Z) : Z :=
  w32 (Z.lor (Z.shiftr x n) (Z.shiftl x (32 - n))).

Definition Ch (x y z : Z) : Z :=
  Z.lxor (Z.land x y) (Z.land (w32 (Z.lnot x)) z).

Definition Maj (x y z : Z) : Z :=
  Z.lxor (Z.lxor (Z.land x y) (Z.land x z)) (Z.land y z).

Definition Sigma0 (x : Z) : Z := Z.lxor (Z.lxor (rotr 2 x) (rotr 13 x)) (rotr 22 x).
Definition Sigma1 (x : Z) : Z := Z.lxor (Z.lxor (rotr 6 x) (rotr 11 x)) (rotr 25 x).
Definition sigma0 (x : Z) : Z := Z.lxor (Z.lxor (rotr 7 x) (rotr 18 x)) (Z.shiftr x 3).
Definition sigma1 (x : Z) : Z := Z.lxor (Z.lxor (rotr 17 x) (rotr 19 x)) (Z.shiftr x 10).

(** The first [count] primes, by trial division. *)
Definition is_prime (p : Z) : bool :=
  forallb (fun d => negb (p mod (Z.of_nat d) =? 0)) (seq 2 (Z.to_nat p - 2)).

Definition first_primes (count : nat) : list Z :=
  firstn count (filter is_prime (map Z.of_nat (seq 2 400))).

(** The integer cube root, one bit at a time from bit [bits - 1] down. *)
Fixpoint cube_root (bits : nat) (n r : Z) : Z :=
  match bits with
  | O => r
  | S k =>
      let r' := r + Z.shiftl 1 (Z.of_nat k) in
      cube_root k n (if r' * r' * r' <=? n then r' else r)
  end.

(** The round constants: the first 32 bits of the fractional parts of
    the cube roots of the first 64 primes. *)
Definition K : list Z :=
  Eval vm_compute in
    map (fun p => w32 (cube_root 36 (p * Z.shiftl 1 96) 0)) (first_primes 64).

(** The initial hash value: the same of the square roots of the first 8. *)
Definition H0 : list Z :=
  Eval vm_compute in
    map (fun p => w32 (Z.sqrt (p * Z.shiftl 1 64))) (first_primes 8).

Definition byte_val (b : byte) : Z := Z.of_N (Byte.to_N b).

Definition val_byte (x : Z) : byte := byte_of_N (Z.to_N (x mod 256)).

(** Big-endian bytes of a number, [n] of them. *)
Fixpoint be_bytes (n : nat) (x : Z) : list byte :=
  match n with
  | O => []
  | S n' => (be_bytes n' (Z.shiftr x 8) ++ [val_byte x])%list
  end.

(** The message, a one bit, zeros to 56 modulo 64, then its bit length. *)
Definition pad (msg : list byte) : list byte :=
  let len := Z.of_nat (List.length msg) in
  let zeros := Z.to_nat ((55 - len) mod 64) in
  (msg ++ [x80] ++ repeat x00 zeros ++ be_bytes 8 (8 * len))%list.

Fixpoint words_of (fuel : nat) (bs : list byte) : list Z :=
  match fuel, bs with
  | S fuel', a :: b :: c :: d :: rest =>
      (16777216 * byte_val a + 65536 * byte_val b + 256 * byte_val c + byte_val d)
      :: words_of fuel' rest
  | _, _ => []
  end.

(** The message schedule, kept newest-first while it is extended. *)
Fixpoint extend (steps : nat) (rev_w : list Z) : list Z :=
  match steps with
  | O => rev_w
  | S steps' =>
      let w2 := nth 1 rev_w 0 in
      let w7 := nth 6 rev_w 0 in
      let w15 := nth 14 rev_w 0 in
      let w16 := nth 15 rev_w 0 in
      extend steps'
        (add32 (add32 (sigma1 w2) w7) (add32 (sigma0 w15) w16) :: rev_w)
  end.

Definition schedule (block : list Z) : list Z := rev (extend 48 (rev block)).

Record Regs := mkRegs { ra : Z; rb : Z; rc : Z; rd : Z; re : Z; rf : Z; rg : Z; rh : Z }.

Definition round (s : Regs) (kw : Z * Z) : Regs :=
  let t1 := add32 (add32 (add32 (rh s) (Sigma1 (re s))) (Ch (re s) (rf s) (rg s)))
                  (add32 (fst kw) (snd kw)) in
  let t2 := add32 (Sigma0 (ra s)) (Maj (ra s) (rb s) (rc s)) in
  mkRegs (add32 t1 t2) (ra s) (rb s) (rc s) (add32 (rd s) t1) (re s) (rf s) (rg s).

Definition regs_of (h : list Z) : Regs :=
  mkRegs (nth 0 h 0) (nth 1 h 0) (nth 2 h 0) (nth 3 h 0)
         (nth 4 h 0) (nth 5 h 0) (nth 6 h 0) (nth 7 h 0).

Definition compress (h : list Z) (block : list Z) : list Z :=
  let s := fold_left round (combine K (schedule block)) (regs_of h) in
  map (fun p => add32 (fst p) (snd p))
      (combine h [ra s; rb s; rc s; rd s; re s; rf s; rg s; rh s]).

Fixpoint blocks (fuel : nat) (h : list Z) (bs : list byte) : list Z :=
  match fuel with
  | O => h
  | S fuel' =>
      match bs with
      | [] => h
      | _ => blocks fuel' (compress h (words_of 16 (firstn 64 bs))) (skipn 64 bs)
      end
  end.

Definition sha256 (msg : list byte) : list byte :=
  let padded := pad msg in
  flat_map (be_bytes 4) (blocks (List.length padded) H0 padded).

Definition xor_pad (c : Z) (key : list byte) : list byte :=
  map (fun b => val_byte (Z.lxor (byte_val b) c)) key.

Definition hmac (key data : list byte) : list byte :=
  let key := if (64 <? List.length key)%nat then sha256 key else key in
  let key := (key ++ repeat x00 (64 - List.length key))%list in
  sha256 (xor_pad 92 key ++ sha256 (xor_pad 54 key ++ data))%list.

End WebCrypto.

(* ------------------------------------------------------------------ *)
(** ** Scenarios: concrete hosts and inputs *)

Module Scenario.

Definition config : R2Config :=
  mkConfig "acct" "AKID" "secret" "bucket" None.

Definition ok_response : Response :=
  mkResponse 200 "OK" (Some "etag") "<UploadId>upload-1</UploadId>".

(** A host whose store answers every request with [answer]; its digest
    keeps the first bytes of the input, enough to tell inputs apart. *)
Definition host_answering (answer : Trace -> Request -> NetResult) : Host :=
  mkHost true
    (fun data => firstn 4 data)
    (fun key data => (firstn 2 key ++ firstn 2 data)%list)
    answer
    (fun _ _ => [])
    (fun _ => "2024-01-05T12:34:56.789Z")
    (fun _ => "0.4fzyo82mvyr")
    (fun _ => Item config)
    (fun _ => Some "upload-1")
    (fun _ _ => O).

Definition fresh : World := mkWorld [] [].

(** An operation that leaves a mark in the log each time it runs and
    always fails. *)
Definition always_failing : M unit :=
  console_error "attempt" (JsError "down") ;;
  throw (JsError "down").

Definition is_attempt (ev : Event) : bool :=
  match ev with
  | EvLog label _ => String.eqb label "attempt"
  | _ => false
  end.

(** A store that answers every request with the given status line. *)
Definition host_with_status (code : Z) (text : string) : Host :=
  host_answering (fun _ _ => Responded (mkResponse code text None EmptyString)).

(** A configuration with a custom domain, written with a final slash. *)
Definition config_public : R2Config :=
  mkConfig "acct" "AKID" "secret" "bucket" (Some "https://cdn.example.com/").

Definition quiet_host : Host := host_with_status 200 "OK".






(** A three-byte text file. *)
Definition small_file : File :=
  mkFile (ustr "a b.txt") "text/plain" [x61; x62; x63].

(** Progress events of a 25 MB upload in three parts, interleaved. *)
Definition progress_events : list (nat * Q) :=
  [(1%nat, 50%Q); (0%nat, 30%Q); (1%nat, 100%Q); (2%nat, 100%Q); (0%nat, 100%Q)].

(** One byte more than the multipart threshold. *)
Definition big_file : File :=
  mkFile (ustr "big.bin") EmptyString (repeat x00 (Z.to_nat (MULTIPART_THRESHOLD + 1))).

End Scenario.

(* ------------------------------------------------------------------ *)
(** ** Bucket maintenance: object deletion and the CORS setter *)

Section Maintenance.

Variable host : Host.

Definition deleteFileFromR2 (fileId : string) : M unit :=
  config <- getR2Config host ;;
  match config with
  | None => throw (JsError "R2 configuration not found.")
  | Some config =>
      let endpoint := r2_endpoint config in
      let path := "/" ++ bucketName config ++ "/" ++ fileId in
      let url := endpoint ++ path in
      amzDate <- getAmzDate host ;;
      emptyHash <- sha256 host empty_payload ;;
      let headers : Headers :=
        [ ("Host", r2_host config);
          ("X-Amz-Date", amzDate);
          ("X-Amz-Content-Sha256", emptyHash) ] in
      authorization <-
        createAwsSignature host "DELETE" path headers config empty_payload [] ;;
      let headers := set_property "Authorization" authorization headers in
      response <- fetch host (mkRequest "DELETE" url headers None) ;;
      if negb (response_ok response) && negb (status response =? 404) then
        throw (JsError ("Delete failed: " ++ number_to_string (status response) ++
                        " " ++ statusText response))
      else ret tt
  end.

(** Text made of blanks only. *)
Fixpoint blank (s : string) : bool :=
  match s with
  | EmptyString => true
  | String c r => is_space_char c && blank r
  end.

Definition origin_xml (origin : string) : string :=
  "<AllowedOrigin>" ++ origin ++ "</AllowedOrigin>".

(** The policy document of [putBucketCors], as the template literal
    spells it, blanks included, before [.trim()]. *)
Definition corsXmlTemplate (allowedOrigins : list string) : string :=
  nl ++ "    <CORSConfiguration xmlns=" ++ dquote ++
  "http://s3.amazonaws.com/doc/2006-03-01/" ++ dquote ++ ">" ++ nl ++
  "      <CORSRule>" ++ nl ++
  "        " ++ map_join origin_xml EmptyString allowedOrigins ++ nl ++
  "        <AllowedMethod>GET</AllowedMethod>" ++ nl ++
  "        <AllowedMethod>PUT</AllowedMethod>" ++ nl ++
  "        <AllowedMethod>POST</AllowedMethod>" ++ nl ++
  "        <AllowedMethod>DELETE</AllowedMethod>" ++ nl ++
  "        <AllowedMethod>HEAD</AllowedMethod>" ++ nl ++
  "        <AllowedHeader>*</AllowedHeader>" ++ nl ++
  "        <ExposeHeader>ETag</ExposeHeader>" ++ nl ++
  "        <MaxAgeSeconds>3000</MaxAgeSeconds>" ++ nl ++
  "      </CORSRule>" ++ nl ++
  "    </CORSConfiguration>" ++ nl ++ "  ".

Definition corsXmlBody (allowedOrigins : list string) : string :=
  trim (corsXmlTemplate allowedOrigins).

Definition putBucketCors (config : R2Config) (allowedOrigins : list string) : M unit :=
  let endpoint := r2_endpoint config in
  let path := "/" ++ bucketName config in
  let queryParams : Headers := [ ("cors", EmptyString) ] in
  let url := endpoint ++ path ++ "?cors" in
  amzDate <- getAmzDate host ;;
  let xmlBody := corsXmlBody allowedOrigins in
  bodyHash <- sha256 host (Text xmlBody) ;;
  let headers : Headers :=
    [ ("Host", r2_host config);
      ("X-Amz-Date", amzDate);
      ("Content-Type", "application/xml");
      ("X-Amz-Content-Sha256", bodyHash) ] in
  authorization <-
    createAwsSignature host "PUT" path headers config (Text xmlBody) queryParams ;;
  let headers := set_property "Authorization" authorization headers in
  response <- fetch host (mkRequest "PUT" url headers (Some (Text xmlBody))) ;;
  if negb (response_ok response) then
    throw (JsError ("Failed to set CORS policy: " ++
                    number_to_string (status response) ++ " " ++ statusText response))
  else ret tt.

End Maintenance.

(** The waits of an operation that is retried to the end: [delay] first,
    then [backoff] times the wait before. *)
Definition backoff_waits (retries : nat) (delay backoff : Z) : list Z :=
  map (fun i => delay * backoff ^ Z.of_nat i) (seq 0 retries).

(** The error [sha256] raises where [crypto.subtle] is missing. *)
Definition crypto_error : Error :=
  JsError "crypto.subtle is not available. Please use HTTPS or localhost to enable secure cryptography APIs required for R2 uploads.".


(** ** Timestamps as [toISOString] prints them *)

Fixpoint all_digits (s : string) : bool :=
  match s with
  | EmptyString => true
  | String c r => is_digit c && all_digits r
  end.

(** [YYYY-MM-DDTHH:mm:ss.sssZ] *)
Definition iso_timestamp (year month day hour minute second fraction : string)
  : string :=
  year ++ "-" ++ month ++ "-" ++ day ++ "T" ++
  hour ++ ":" ++ minute ++ ":" ++ second ++ "." ++ fraction ++ "Z".

(** A field of [n] decimal digits. *)
Definition digits_field (n : nat) (s : string) : Prop :=
  String.length s = n /\ all_digits s = true.

(** [s.includes(c)] for one character. *)
Fixpoint includes_char (c : ascii) (s : string) : bool :=
  match s with
  | EmptyString => false
  | String x r => Ascii.eqb x c || includes_char c r
  end.



(** ** What every request of the service looks like *)

Definition body_bytes (body : option Payload) : list byte :=
  match body with
  | Some p => payload_bytes p
  | None => []
  end.

(** A request to the configured bucket of the configured account that
    announces the digest of the body it carries and is signed with the
    configured access key. *)
Definition signed_request (host : Host) (config : R2Config) (r : Request) : Prop :=
  String.prefix (r2_endpoint config ++ "/" ++ bucketName config) (req_url r) = true /\
  lookup "Host" (req_headers r) = Some (r2_host config) /\
  (exists date, lookup "X-Amz-Date" (req_headers r) = Some date) /\
  lookup "X-Amz-Content-Sha256" (req_headers r) =
    Some (hex_of_bytes (digest host (body_bytes (req_body r)))) /\
  (exists rest,
     lookup "Authorization" (req_headers r) =
     Some ("AWS4-HMAC-SHA256 Credential=" ++ accessKeyId config ++ "/" ++ rest)).

(** An event of an upload that goes through: neither a wait, nor a log
    entry, nor a DELETE. *)
Definition calm (ev : Event) : bool :=
  negb (is_sleep ev) && negb (is_log ev) && negb (is_delete ev).

(** [n] more requests were sent, and nothing but calm events added. *)
Definition sent_calmly (n : nat) (w w' : World) : Prop :=
  exists evs,
    trace w' = (trace w ++ evs)%list /\
    count_events is_request evs = n /\
    forallb calm evs = true.

(* ------------------------------------------------------------------ *)
(** ** Further scenarios *)

Module Examples.

(** A page served without HTTPS: no [crypto.subtle]. *)
Definition insecure_host : Host :=
  mkHost false
    (fun data => firstn 4 data)
    (fun key data => (firstn 2 key ++ firstn 2 data)%list)
    (fun _ _ => Responded Scenario.ok_response)
    (fun _ _ => [])
    (fun _ => "2024-01-05T12:34:56.789Z")
    (fun _ => "0.4fzyo82mvyr")
    (fun _ => Item Scenario.config)
    (fun _ => Some "upload-1")
    (fun _ _ => O).

(** A store that accepts everything. *)
Definition accepting_host : Host :=
  Scenario.host_answering (fun _ _ => Responded Scenario.ok_response).

(** The three headers of a request, in two orders. *)
Definition headers_listed : Headers :=
  [("Host", "acct.r2.cloudflarestorage.com"); ("X-Amz-Date", "20240105T123456Z");
   ("X-Amz-Content-Sha256", "abc")].

Definition headers_shuffled : Headers :=
  [("X-Amz-Content-Sha256", "abc"); ("Host", "acct.r2.cloudflarestorage.com");
   ("X-Amz-Date", "20240105T123456Z")].

(** The file of [Scenario.big_file] under another media type. *)
Definition big_video : File :=
  mkFile (ustr "big.bin") "video/mp4" (repeat x00 (Z.to_nat (MULTIPART_THRESHOLD + 1))).

End Examples.

(* ------------------------------------------------------------------ *)
(** ** The application shell (src/App.tsx): how it calls the service

    React state is passed in as arguments; a call of a state setter or of
    the next handler is part of the value returned. *)

Module App.

(** [FileItem] (types.ts), with the fields the shell reads and writes;
    [hash] is missing on entries stored by an older version. *)
Record FileItem := mkFileItem {
  id : string;
  name : ustring;
  size : Z;
  uploadedAt : Z;
  expiresAt : Z;
  url : string;
  hash : option string
}.

(** [UploadItem]; its [hash] field is [itemHash] here. *)
Record UploadItem := mkUploadItem {
  file : File;
  itemHash : string;
  displayName : ustring
}.

(** [s.lastIndexOf(c)], [None] for -1. *)
Fixpoint lastIndexOf (c : N) (s : ustring) : option nat :=
  match s with
  | [] => None
  | x :: r =>
      match lastIndexOf c r with
      | Some i => Some (S i)
      | None => if (x =? c)%N then Some O else None
      end
  end.

(** The body of the renaming loop: [`${file.name} (${counter})`], or
    with the counter put before the extension. *)
Definition numbered (fileName : ustring) (counter : Z) : ustring :=
  let mark := (ustr " (" ++ ustr (number_to_string counter) ++ ustr ")")%list in
  match lastIndexOf 46 fileName with
  | None => (fileName ++ mark)%list
  | Some dotIndex =>
      (firstn dotIndex fileName ++ mark ++ skipn dotIndex fileName)%list
  end.

Definition same_name (a b : ustring) : bool :=
  if list_eq_dec N.eq_dec a b then true else false.

(** [set.has(x)] on a set of names, and on a set of hashes. *)
Definition has_name (set : list ustring) (x : ustring) : bool :=
  existsb (same_name x) set.

Definition has_hash (set : list string) (x : string) : bool :=
  existsb (String.eqb x) set.

(** [while (currentNames.has(displayName) || batchNames.has(displayName))]:
    [fuel] bounds the number of times the body runs. *)
Fixpoint uniqueName (fuel : nat) (currentNames batchNames : list ustring)
    (fileName displayName : ustring) (counter : Z) : option ustring :=
  if has_name currentNames displayName || has_name batchNames displayName then
    match fuel with
    | O => None
    | S fuel' =>
        uniqueName fuel' currentNames batchNames fileName
          (numbered fileName counter) (counter + 1)
    end
  else Some displayName.

(** The variables of the [for] loop of [handleFileUpload]. *)
Record Batch := mkBatch {
  filesToProcess : list UploadItem;
  duplicateCount : Z;
  batchHashes : list string;
  batchNames : list ustring
}.

Definition empty_batch : Batch := mkBatch [] 0 [] [].

(** [for (const file of filesToUpload)]; the renaming loop gets the
    number of names in the two sets as fuel. *)
Fixpoint collect (host : Host) (currentHashes : list string)
    (currentNames : list ustring) (filesToUpload : list File) (b : Batch)
  : M Batch :=
  match filesToUpload with
  | [] => ret b
  | file :: rest =>
      hash <- calculateFileHash host file ;;
      if has_hash currentHashes hash || has_hash (batchHashes b) hash then
        collect host currentHashes currentNames rest
          (mkBatch (filesToProcess b) (duplicateCount b + 1)
                   (batchHashes b) (batchNames b))
      else
        let fuel := (List.length currentNames + List.length (batchNames b))%nat in
        match uniqueName fuel currentNames (batchNames b)
                (file_name file) (file_name file) 1 with
        | None => throw (JsError "the renaming loop did not end")
        | Some displayName =>
            collect host currentHashes currentNames rest
              (mkBatch (filesToProcess b ++ [mkUploadItem file hash displayName])%list
                       (duplicateCount b)
                       (batchHashes b ++ [hash])%list
                       (batchNames b ++ [displayName])%list)
        end
  end.

(** What the loop keeps true of its variables once it has gone through
    the files [seen]. *)
Record sound_batch (host : Host) (currentHashes : list string)
    (currentNames : list ustring) (seen : list File) (b : Batch) : Prop := {
  sb_hashes : batchHashes b = map itemHash (filesToProcess b);
  sb_names : batchNames b = map displayName (filesToProcess b);
  sb_nodup_hashes : NoDup (batchHashes b);
  sb_nodup_names : NoDup (batchNames b);
  sb_new_hashes : forall h, In h (batchHashes b) -> ~ In h currentHashes;
  sb_new_names : forall n, In n (batchNames b) -> ~ In n currentNames;
  sb_items : forall item, In item (filesToProcess b) ->
    In (file item) seen /\
    (forall w, calculateFileHash host (file item) w = (Ok (itemHash item), w)) /\
    (displayName item = file_name (file item) \/
     exists n, 1 <= n /\ displayName item = numbered (file_name (file item)) n) /\
    (displayName item <> file_name (file item) ->
     In (file_name (file item)) (currentNames ++ batchNames b)%list);
  sb_seen : forall f, In f seen ->
    exists h, (forall w, calculateFileHash host f w = (Ok h, w)) /\
              In h (currentHashes ++ batchHashes b)%list;
  sb_count : duplicateCount b =
    Z.of_nat (List.length seen) - Z.of_nat (List.length (filesToProcess b))
}.

Inductive Notification :=
| duplicateFile
| fileTooLarge.

(** How [handleFileUpload] ends: it returns, it opens the limit dialog
    with the files pending, or it calls [processUpload]. *)
Inductive Next :=
| Return
| ShowLimitModal (pendingFiles : list UploadItem)
| ProcessUpload (items : list UploadItem).

Definition MAX_FILE_SIZE : Z := 5 * 1024 * 1024 * 1024.

(** [files.map(f => f.hash).filter(Boolean)] *)
Fixpoint known_hashes (files : list FileItem) : list string :=
  match files with
  | [] => []
  | f :: r =>
      match hash f with
      | Some (String c h) => String c h :: known_hashes r
      | _ => known_hashes r
      end
  end.

Definition total_size {A} (size_of : A -> Z) (l : list A) : Z :=
  fold_left (fun acc x => acc + size_of x) l 0.

(** [files], [storageLimit]: the state; [dismissedDate]:
    [localStorage.getItem('storageLimitPromptDismissedDate')]; [today]:
    [new Date().toDateString()].  The result lists the notifications
    shown, in order. *)
Definition handleFileUpload (host : Host) (files : list FileItem) (storageLimit : Z)
    (dismissedDate : option string) (today : string) (filesToUpload : list File)
  : M (list Notification * Next) :=
  match filesToUpload with
  | [] => ret ([], Return)
  | _ =>
      let currentHashes := known_hashes files in
      let currentNames := map name files in
      b <- collect host currentHashes currentNames filesToUpload empty_batch ;;
      let shown := if duplicateCount b >? 0 then [duplicateFile] else [] in
      match filesToProcess b with
      | [] => ret (shown, Return)
      | _ =>
          let currentUsage := total_size size files in
          let uploadSize := total_size (fun item => file_size (file item))
                                       (filesToProcess b) in
          let limitBytes := storageLimit * 1024 * 1024 * 1024 in
          let oversizedFiles :=
            filter (fun item => file_size (file item) >? MAX_FILE_SIZE)
                   (filesToProcess b) in
          match oversizedFiles with
          | _ :: _ => ret ((shown ++ [fileTooLarge])%list, Return)
          | [] =>
              if (currentUsage + uploadSize >? limitBytes) &&
                 negb (match dismissedDate with
                       | Some d => String.eqb d today
                       | None => false
                       end)
              then ret (shown, ShowLimitModal (filesToProcess b))
              else ret (shown, ProcessUpload (filesToProcess b))
          end
      end
  end.

(** [persistence.getItem('files')] followed by [JSON.parse]. *)
Inductive SavedFiles :=
| NoFiles
| Saved (parsedFiles : list FileItem)
| Unparsable (e : Error).

(** [saveFiles]: [persist] is [persistence.setItem('files', ...)], which
    may fail. *)
Definition saveFiles (persist : list FileItem -> option Error)
    (updatedFiles : list FileItem) : M unit :=
  match persist updatedFiles with
  | None => ret tt
  | Some error => console_error "Error saving files:" error
  end.

(** The [for] loop of [checkExpiredFiles]. *)
Fixpoint sweep (host : Host) (now : Z) (parsedFiles validFiles : list FileItem)
  : M (list FileItem) :=
  match parsedFiles with
  | [] => ret validFiles
  | file :: rest =>
      if now >=? expiresAt file then
        deleteFileFromR2 host (id file) ;;
        sweep host now rest validFiles
      else sweep host now rest (validFiles ++ [file])%list
  end.

(** [Some validFiles] stands for [setFiles(validFiles)] with the list
    saved; [None] for a run that leaves the state as it is. *)
Definition checkExpiredFiles (host : Host) (saved : SavedFiles) (now : Z)
    (persist : list FileItem -> option Error) : M (option (list FileItem)) :=
  try_catch
    (match saved with
     | Unparsable e => throw e
     | NoFiles => ret None
     | Saved parsedFiles =>
         validFiles <- sweep host now parsedFiles [] ;;
         if Nat.eqb (List.length validFiles) (List.length parsedFiles)
         then ret None
         else saveFiles persist validFiles ;; ret (Some validFiles)
     end)
    (fun error =>
       console_error "Error checking expired files:" error ;;
       ret None).

End App.

(** Files chosen and files listed, for the shell. *)
Module Shelf.

Definition report : File :=
  mkFile (ustr "report.pdf") "application/pdf" [x01; x02; x03].

(** Another document under the same name. *)
Definition report_revised : File :=
  mkFile (ustr "report.pdf") "application/pdf" [x04; x05].

(** Listed, expiring at 2000: another document called [report.pdf]. *)
Definition listed_report : App.FileItem :=
  App.mkFileItem "k1-report.pdf" (ustr "report.pdf") 7 1000 2000
    "https://cdn.example.com/k1-report.pdf" (Some "0a0b").

(** Listed, expiring at 500 and at 600. *)
Definition listed_notes : App.FileItem :=
  App.mkFileItem "k2-notes.txt" (ustr "notes.txt") 4 100 500
    "https://cdn.example.com/k2-notes.txt" (Some "0c0d").

Definition listed_photo : App.FileItem :=
  App.mkFileItem "k3-photo.png" (ustr "photo.png") 9 100 600
    "https://cdn.example.com/k3-photo.png" None.

(** A store that refuses to delete [k3-photo.png]. *)
Definition picky_answer (tr : Trace) (req : Request) : NetResult :=
  if String.eqb (req_url req)
       "https://acct.r2.cloudflarestorage.com/bucket/k3-photo.png"
  then Responded (mkResponse 500 "Internal Server Error" None EmptyString)
  else Responded (mkResponse 204 "No Content" None EmptyString).

Definition picky_host : Host := Scenario.host_answering picky_answer.

End Shelf.

(* ================================================================== *)
(** * Properties *)

Open Scope list_scope.

(** ** Running monadic code *)

Lemma bind_run {A B} (m : M A) (k : A -> M B) (w : World) :
  bind m k w =
  match m w with
  | (Ok a, w') => k a w'
  | (Throw e, w') => (Throw e, w')
  end.
Proof. reflexivity. Qed.

Lemma try_catch_run {A} (body : M A) (handler : Error -> M A) (w : World) :
  try_catch body handler w =
  match body w with
  | (Ok a, w') => (Ok a, w')
  | (Throw e, w') => handler e w'
  end.
Proof. reflexivity. Qed.

Lemma retry_run {A} (fn : M A) (retries : nat) (delay backoff : Z) (w : World) :
  retry fn retries delay backoff w =
  match fn w with
  | (Ok a, w') => (Ok a, w')
  | (Throw e, w') =>
      match retries with
      | O => (Throw e, w')
      | S n => retry fn n (delay * backoff) backoff
                 (mkWorld (trace w' ++ [EvSleep delay]) (partProgresses w'))
      end
  end.
Proof.
  destruct retries; cbn [retry]; rewrite try_catch_run;
    destruct (fn w) as [[a | e] w']; reflexivity.
Qed.

(** ** Strings *)

Lemma string_app_assoc (a b c : string) :
  ((a ++ b) ++ c = a ++ (b ++ c))%string.
Proof. induction a as [| x a IH]; cbn; [reflexivity | now rewrite IH]. Qed.

Lemma string_app_nil_r (a : string) : (a ++ EmptyString)%string = a.
Proof. induction a as [| x a IH]; cbn; [reflexivity | now rewrite IH]. Qed.

Lemma string_length_app (a b : string) :
  String.length (a ++ b) = (String.length a + String.length b)%nat.
Proof. induction a as [| x a IH]; cbn; [reflexivity | now rewrite IH]. Qed.

(* ------------------------------------------------------------------ *)
(** ** Retry policy *)

(** C3 (as the code has it).  With the default parameters [retry] runs
    the operation, and after each failure sleeps 1000, 2000 and then
    4000 ms before running it again: four runs at most, the first
    success returned as it is and nothing run after it, the error of the
    fourth run re-raised. *)
Theorem retry_default_unfolds : forall (A : Type) (f : M A) (w : World),
  retry_default f w =
  try_catch f (fun _ =>
    sleep 1000 ;;
    try_catch f (fun _ =>
      sleep 2000 ;;
      try_catch f (fun _ =>
        sleep 4000 ;;
        f))) w.
Proof.
  intros A f w. unfold retry_default. cbn [retry].
  unfold try_catch, bind, sleep, emit, throw.
  change (1000 * 2 * 2) with 4000. change (1000 * 2) with 2000.
  repeat match goal with
         | |- context [f ?w'] => destruct (f w') as [[? | ?] ?]; try reflexivity
         end.
Qed.

(** C3, the claim as worded fails: an operation that never succeeds is
    run a fourth time. *)
Lemma retry_default_fourth_attempt :
  count_events Scenario.is_attempt
    (trace (snd (retry_default Scenario.always_failing Scenario.fresh))) = 4%nat
  /\ ~ (count_events Scenario.is_attempt
          (trace (snd (retry_default Scenario.always_failing Scenario.fresh))) <= 3)%nat
  /\ sleeps_of (trace (snd (retry_default Scenario.always_failing Scenario.fresh)))
     = [1000; 2000; 4000].
Proof.
  assert (E : count_events Scenario.is_attempt
    (trace (snd (retry_default Scenario.always_failing Scenario.fresh))) = 4%nat)
    by reflexivity.
  split; [exact E |]. split; [rewrite E; lia | reflexivity].
Qed.

(* ------------------------------------------------------------------ *)
(** ** The CORS probe *)

(** What [getBucketCors] does once the request is signed: one GET, and a
    boolean whatever comes back.  Only a 2xx answer gives [true]; a 404,
    any other status and a network failure all give [false], the last two
    after the error has been logged by the probe's own [catch]. *)
Lemma getBucketCors_outcome : forall host config w,
  crypto_available host = true ->
  exists req,
    req_method req = "GET"%string /\
    req_url req = (r2_endpoint config ++ "/" ++ bucketName config ++ "?cors")%string /\
    let sent := mkWorld (trace w ++ [EvRequest req]) (partProgresses w) in
    let logged e :=
      mkWorld (trace sent ++ [EvLog "Error checking CORS:" e]) (partProgresses w) in
    getBucketCors host config w =
    match respond host (trace w) req with
    | NetworkFailure e => (Ok false, logged e)
    | Responded r =>
        if status r =? 404 then (Ok false, sent)
        else if response_ok r then (Ok true, sent)
        else (Ok false,
              logged (JsError ("Failed to get CORS policy: " ++
                               number_to_string (status r) ++ " " ++ statusText r)))
    end.
Proof.
  intros host config w Hc.
  unfold getBucketCors, getAmzDate, createAwsSignature, getSignatureKey,
    hmacSha256, hmacSha256Buffer, sha256.
  rewrite Hc. cbn [lookup String.eqb Ascii.eqb Bool.eqb].
  unfold fetch, try_catch, bind, ret, throw, get_trace, console_error, emit.
  cbn [trace partProgresses].
  match goal with
  | |- context [EvRequest ?r] => exists r
  end.
  split; [reflexivity |]. split; [reflexivity |].
  cbn zeta.
  match goal with
  | |- context [respond host (trace w) ?r] =>
      destruct (respond host (trace w) r) as [e | r']
  end; [reflexivity |].
  destruct (status r' =? 404); [reflexivity |].
  destruct (response_ok r'); reflexivity.
Qed.

(** C2, at a 500: the probe does not raise, it logs and answers
    [false], exactly as it does for a 404. *)
Lemma getBucketCors_500_returns_false :
  let host := Scenario.host_with_status 500 "Internal Server Error" in
  let run := getBucketCors host Scenario.config Scenario.fresh in
  fst run = Ok false /\
  fst (getBucketCors (Scenario.host_with_status 404 "Not Found")
         Scenario.config Scenario.fresh) = Ok false /\
  last (trace (snd run)) (EvSleep 0) =
    EvLog "Error checking CORS:"
      (JsError "Failed to get CORS policy: 500 Internal Server Error").
Proof. repeat split; vm_compute; reflexivity. Qed.

(* ------------------------------------------------------------------ *)
(** ** Presigned URLs *)

Lemma strip_trailing_slash_no_slash : forall s c,
  strip_trailing_slash (s ++ String c EmptyString) =
  (if Ascii.eqb c "/" then s else s ++ String c EmptyString)%string.
Proof.
  induction s as [| a s IH]; intros c; cbn.
  - destruct (Ascii.eqb c "/"); reflexivity.
  - rewrite IH. destruct s; cbn; destruct (Ascii.eqb c "/"); reflexivity.
Qed.

(** C8 (as the code has it).  With a public URL configured (set and not
    empty) the result is that URL, less one final slash if it has one,
    then [/] and the key: nothing is signed, nothing is asked of the
    host.  Without one the result is a URL on the account's endpoint
    whose query carries algorithm, credential, date, expiry and the
    signed-header list [host], then the signature; the signature is
    over a canonical GET request whose only header is [host] and whose
    payload hash is the literal [UNSIGNED-PAYLOAD]; the expiry is 600
    when the caller gives none. *)
Theorem generatePresignedUrl_spec : forall host key config expiresIn w,
  (forall url, publicUrl config = Some url -> url <> EmptyString ->
     generatePresignedUrl host key config expiresIn w =
     (Ok (strip_trailing_slash url ++ "/" ++ key)%string, w)) /\
  (truthy (publicUrl config) = None -> crypto_available host = true ->
     let amzDate := strip_amz 0 (toISOString host (trace w)) in
     let day := substr0 8 amzDate in
     let scope := (day ++ "/auto/s3/aws4_request")%string in
     let seconds := match expiresIn with Some n => n | None => 600 end in
     let query :=
       ("X-Amz-Algorithm=AWS4-HMAC-SHA256" ++
        "&X-Amz-Credential=" ++ encodeURIComponent (accessKeyId config ++ "/" ++ scope) ++
        "&X-Amz-Date=" ++ amzDate ++
        "&X-Amz-Expires=" ++ number_to_string seconds ++
        "&X-Amz-SignedHeaders=host")%string in
     let path := ("/" ++ bucketName config ++ "/" ++ key)%string in
     let canonical :=
       ("GET" ++ nl ++ path ++ nl ++ query ++ nl ++
        "host:" ++ accountId config ++ ".r2.cloudflarestorage.com" ++ nl ++ nl ++
        "host" ++ nl ++ "UNSIGNED-PAYLOAD")%string in
     let stringToSign :=
       ("AWS4-HMAC-SHA256" ++ nl ++ amzDate ++ nl ++ scope ++ nl ++
        hex_of_bytes (digest host (encode canonical)))%string in
     let key4 :=
       hmac_sign host
         (hmac_sign host
            (hmac_sign host
               (hmac_sign host (encode ("AWS4" ++ secretAccessKey config)) (encode day))
               (encode "auto"))
            (encode "s3"))
         (encode "aws4_request") in
     generatePresignedUrl host key config expiresIn w =
     (Ok ("https://" ++ accountId config ++ ".r2.cloudflarestorage.com" ++ path ++
          "?" ++ query ++ "&X-Amz-Signature=" ++
          hex_of_bytes (hmac_sign host key4 (encode stringToSign)))%string, w)).
Proof.
  intros host key config expiresIn w. split.
  - intros url Hurl Hne. unfold generatePresignedUrl. rewrite Hurl.
    destruct url as [| c url]; [contradiction |]. reflexivity.
  - intros Hnone Hc. unfold generatePresignedUrl. rewrite Hnone.
    unfold getAmzDate, getSignatureKey, hmacSha256, hmacSha256Buffer, sha256.
    rewrite Hc.
    unfold bind, ret, get_trace, presignCanonicalRequest, presignQuery, r2_endpoint,
      r2_host.
    cbn [String.concat payload_bytes].
    repeat rewrite string_app_assoc. reflexivity.
Qed.

(** C8, the claim as worded fails: a public URL written with a final
    slash is not returned as [{publicUrl}/{key}]. *)
Lemma generatePresignedUrl_drops_slash :
  fst (generatePresignedUrl Scenario.quiet_host "k.txt" Scenario.config_public None
         Scenario.fresh)
  = Ok "https://cdn.example.com/k.txt"%string
  /\ fst (generatePresignedUrl Scenario.quiet_host "k.txt" Scenario.config_public None
            Scenario.fresh)
     <> Ok ("https://cdn.example.com/" ++ "/" ++ "k.txt")%string.
Proof. split; [reflexivity | discriminate]. Qed.

(* ------------------------------------------------------------------ *)
(** ** Slices and the content fingerprint *)

Lemma blob_slice_in_range : forall content a b,
  0 <= a -> a <= b -> b <= Z.of_nat (List.length content) ->
  blob_slice content a b =
  firstn (Z.to_nat (b - a)) (skipn (Z.to_nat a) content).
Proof.
  intros content a b Ha Hab Hb. unfold blob_slice, clamp_index.
  destruct (Z.ltb_spec a 0); [lia |].
  destruct (Z.ltb_spec b 0); [lia |].
  rewrite !Z.min_l by lia. rewrite Z.max_l by lia. reflexivity.
Qed.

Lemma blob_slice_length : forall content a b,
  0 <= a -> a <= b -> b <= Z.of_nat (List.length content) ->
  Z.of_nat (List.length (blob_slice content a b)) = b - a.
Proof.
  intros content a b Ha Hab Hb.
  rewrite blob_slice_in_range by assumption.
  rewrite length_firstn, length_skipn. lia.
Qed.

Lemma blob_slice_whole : forall content,
  blob_slice content 0 (Z.of_nat (List.length content)) = content.
Proof.
  intros content. rewrite blob_slice_in_range by lia.
  cbn [Z.to_nat skipn]. rewrite Z.sub_0_r, Nat2Z.id. apply firstn_all.
Qed.

Lemma half_bounds (n : Z) : 2 * (n / 2) <= n < 2 * (n / 2) + 2.
Proof.
  pose proof (Z.div_mod n 2 ltac:(lia)).
  pose proof (Z.mod_pos_bound n 2 ltac:(lia)). lia.
Qed.

(** C9.  Above 50 MB the fingerprint is the digest of one buffer: the
    UTF-8 text [{name}-{size}] followed by the first megabyte, the
    megabyte starting at the middle of the file and the last megabyte
    (at such sizes both size conditions of the sampler hold, so all
    three samples are present and each is a full megabyte).  At 50 MB or
    below it is the digest of the whole content. *)
Theorem calculateFileHash_spec : forall host file w,
  crypto_available host = true ->
  let MB := 1024 * 1024 in
  let size := file_size file in
  (50 * MB < size ->
     let first := file_slice file 0 MB in
     let middle := file_slice file (size / 2) (size / 2 + MB) in
     let final := file_slice file (size - MB) size in
     calculateFileHash host file w =
       (Ok (hex_of_bytes
              (digest host
                 (utf8 (file_name file) ++ encode ("-" ++ number_to_string size) ++
                  first ++ middle ++ final))), w)
     /\ Z.of_nat (List.length first) = MB
     /\ Z.of_nat (List.length middle) = MB
     /\ Z.of_nat (List.length final) = MB)
  /\
  (size <= 50 * MB ->
     calculateFileHash host file w =
       (Ok (hex_of_bytes (digest host (file_content file))), w)).
Proof.
  intros host file w Hc MB size. subst MB.
  assert (Hsz : size = Z.of_nat (List.length (file_content file))) by reflexivity.
  pose proof (half_bounds size) as Hhalf.
  split.
  - intros Hbig. cbn zeta. repeat split.
    + unfold calculateFileHash. fold size.
      destruct (Z.gtb_spec size (50 * 1024 * 1024)) as [_ | Hle]; [| lia].
      unfold calculatePartialHash, sha256. rewrite Hc.
      unfold partial_chunks, hash_metadata. fold size.
      destruct (Z.gtb_spec (size / 2) (1024 * 1024)) as [_ | Hle]; [| lia].
      destruct (Z.gtb_spec size (2 * (1024 * 1024))) as [_ | Hle]; [| lia].
      rewrite Z.max_r by lia.
      unfold file_slice_from, file_slice. fold size.
      cbn [List.concat payload_bytes app]. rewrite app_nil_r, <- !app_assoc.
      reflexivity.
    + unfold file_slice. rewrite blob_slice_length; lia.
    + unfold file_slice. rewrite blob_slice_length; lia.
    + unfold file_slice. rewrite blob_slice_length; lia.
  - intros Hsmall. unfold calculateFileHash. fold size.
    destruct (Z.gtb_spec size (50 * 1024 * 1024)) as [Hgt | _]; [lia |].
    unfold sha256. rewrite Hc. reflexivity.
Qed.

(* ------------------------------------------------------------------ *)
(** ** File-name sanitizer *)

Section RunReplacement.

Variable C : N -> bool.
Variable P : N -> Prop.










End RunReplacement.

(** *** UTF-8 and percent-encoding *)
















(** *** The name before encoding *)






(** *** The encoded key *)










(** *** Names made of plain words *)

Section Runs.

Variable C : N -> bool.





End Runs.







(** *** Names with nothing worth keeping *)





(* ------------------------------------------------------------------ *)
(** ** Part geometry *)

Lemma ceil_div_bounds : forall a b,
  0 < b -> b * (ceil_div a b - 1) < a <= b * ceil_div a b.
Proof.
  intros a b Hb. unfold ceil_div.
  pose proof (Z.div_mod (- a) b ltac:(lia)).
  pose proof (Z.mod_pos_bound (- a) b Hb). nia.
Qed.


Lemma PART_SIZE_pos : 0 < PART_SIZE.
Proof. reflexivity. Qed.

Lemma totalParts_bounds : forall size,
  PART_SIZE * (totalParts_of size - 1) < size <= PART_SIZE * totalParts_of size.
Proof. intros size. apply ceil_div_bounds, PART_SIZE_pos. Qed.

Lemma totalParts_pos : forall size, 0 < size -> 0 < totalParts_of size.
Proof.
  intros size H. pose proof (totalParts_bounds size). pose proof PART_SIZE_pos. nia.
Qed.

(* ------------------------------------------------------------------ *)
(** ** Progress aggregation *)

Section Progress.

Variable size : Z.

Let parts := totalParts_of size.

Local Open Scope Q_scope.

Lemma part_weight_nonneg : forall idx,
  (0 <= idx < parts)%Z -> 0 <= inject_Z (progress_part_size size parts idx).
Proof.
  intros idx H. change 0 with (inject_Z 0). rewrite <- Zle_Qle.
  unfold progress_part_size. pose proof (totalParts_bounds size). fold parts in H0.
  pose proof PART_SIZE_pos.
  destruct (Z.eqb_spec idx (parts - 1)); subst; lia.
Qed.

Lemma reduce_uploaded_acc : forall progresses idx acc,
  reduce_uploaded size parts idx progresses acc ==
  acc + reduce_uploaded size parts idx progresses 0.
Proof.
  induction progresses as [| [p |] rest IH]; intros idx acc; cbn [reduce_uploaded].
  - ring.
  - rewrite IH. rewrite (IH _ (0 + _)). ring.
  - apply IH.
Qed.

(** Raising one entry raises the sum by that part's share. *)
Lemma reduce_uploaded_set : forall progresses i idx current percent,
  nth_error progresses i = Some (Some current) ->
  reduce_uploaded size parts idx (array_set i (Some percent) progresses) 0 ==
  reduce_uploaded size parts idx progresses 0 +
  ((percent - current) / 100) *
    inject_Z (progress_part_size size parts (idx + Z.of_nat i)).
Proof.
  induction progresses as [| e rest IH]; intros i idx current percent Hnth.
  - destruct i; discriminate.
  - destruct i as [| i].
    + cbn in Hnth. inversion Hnth; subst. cbn [array_set reduce_uploaded].
      rewrite reduce_uploaded_acc. rewrite (reduce_uploaded_acc rest _ (0 + _)).
      rewrite Z.add_0_r. field.
    + cbn [nth_error] in Hnth. cbn [array_set].
      replace (idx + Z.of_nat (S i))%Z with (idx + 1 + Z.of_nat i)%Z by lia.
      destruct e as [p |]; cbn [reduce_uploaded].
      * rewrite reduce_uploaded_acc. rewrite (reduce_uploaded_acc rest _ (0 + _)).
        rewrite (IH i (idx + 1)%Z current percent Hnth). ring.
      * apply (IH i (idx + 1)%Z current percent Hnth).
Qed.

Lemma reduce_uploaded_capacity : forall progresses idx,
  (0 <= idx)%Z -> (idx + Z.of_nat (List.length progresses) <= parts)%Z ->
  Forall at_most_100 progresses ->
  reduce_uploaded size parts idx progresses 0 <=
  inject_Z (capacity size parts idx (List.length progresses)).
Proof.
  induction progresses as [| e rest IH]; intros idx Hidx Hlen Hall.
  - apply Qle_refl.
  - inversion Hall as [| ? ? He Hrest]; subst.
    cbn [List.length] in Hlen.
    assert (Hstep : inject_Z (progress_part_size size parts idx) +
                    inject_Z (capacity size parts (idx + 1) (List.length rest)) ==
                    inject_Z (capacity size parts idx (S (List.length rest)))).
    { rewrite <- inject_Z_plus. apply inject_Z_injective.
      unfold capacity, progress_part_size.
      pose proof (totalParts_bounds size) as Hb. fold parts in Hb.
      destruct rest as [| e' rest']; cbn [List.length].
      - destruct (Z.eqb_spec idx (parts - 1));
          destruct (Z.eqb_spec (idx + Z.of_nat 1) parts); lia.
      - destruct (Z.eqb_spec idx (parts - 1)); [cbn [List.length] in Hlen; lia |].
        destruct (Z.eqb_spec (idx + 1 + Z.of_nat (S (List.length rest'))) parts);
          destruct (Z.eqb_spec (idx + Z.of_nat (S (S (List.length rest')))) parts);
          lia. }
    specialize (IH (idx + 1)%Z ltac:(lia) ltac:(lia) Hrest).
    pose proof (part_weight_nonneg idx ltac:(lia)) as Hw.
    cbn [List.length]. rewrite <- Hstep.
    destruct e as [p |]; cbn [reduce_uploaded].
    + rewrite reduce_uploaded_acc. cbn [at_most_100] in He.
      assert (p / 100 * inject_Z (progress_part_size size parts idx) <=
              inject_Z (progress_part_size size parts idx)).
      { set (wt := inject_Z (progress_part_size size parts idx)) in *.
        assert (0 <= (1 - p / 100) * wt).
        { apply Qmult_le_0_compat; [| assumption].
          assert (p / 100 <= 1) by (apply Qle_shift_div_r; lra). lra. }
        lra. }
      lra.
    + lra.
Qed.

End Progress.

Lemma progress_of_app : forall a b, progress_of (a ++ b) = progress_of a ++ progress_of b.
Proof.
  induction a as [| ev a IH]; intros b; [reflexivity |].
  destruct ev; cbn; rewrite ?IH; reflexivity.
Qed.

Lemma array_set_length_in_range {A} : forall (a : JsArray A) i v x,
  nth_error a i = Some x -> List.length (array_set i v a) = List.length a.
Proof.
  induction a as [| e a IH]; intros i v x H; destruct i; try discriminate; cbn.
  - reflexivity.
  - f_equal. now apply (IH i v x).
Qed.

Lemma array_set_Forall {A} (P : option A -> Prop) : forall (a : JsArray A) i v x,
  nth_error a i = Some x -> P v -> Forall P a -> Forall P (array_set i v a).
Proof.
  induction a as [| e a IH]; intros i v x H Hv Ha; destruct i; try discriminate; cbn;
    inversion Ha; subst; constructor; auto.
  now apply (IH i v x).
Qed.

Lemma totalProgress_le : forall size parts a b,
  0 < size ->
  (reduce_uploaded size parts 0 a 0 <= reduce_uploaded size parts 0 b 0)%Q ->
  (totalProgress size parts a <= totalProgress size parts b)%Q.
Proof.
  intros size parts a b Hsize H. unfold totalProgress.
  assert (0 < inject_Z size)%Q by (change 0%Q with (inject_Z 0); now rewrite <- Zlt_Qlt).
  apply Qmult_le_compat_r; [| lra].
  unfold Qdiv. apply Qmult_le_compat_r; [assumption |].
  apply Qlt_le_weak, Qinv_lt_0_compat. assumption.
Qed.

(** One event: the total reported does not go down and stays within 100. *)
Lemma progress_step : forall size progresses i current percent,
  0 < size ->
  List.length progresses = Z.to_nat (totalParts_of size) ->
  Forall at_most_100 progresses ->
  nth_error progresses i = Some (Some current) ->
  (current <= percent)%Q -> (percent <= 100)%Q ->
  let parts := totalParts_of size in
  let progresses' := array_set i (Some percent) progresses in
  (totalProgress size parts progresses <= totalProgress size parts progresses')%Q /\
  (totalProgress size parts progresses' <= 100)%Q /\
  List.length progresses' = Z.to_nat parts /\
  Forall at_most_100 progresses'.
Proof.
  intros size progresses i current percent Hsize Hlen Hall Hnth Hcur Hmax parts progresses'.
  pose proof (totalParts_pos size Hsize) as Hparts. fold parts in Hparts, Hlen.
  assert (Hi : (i < List.length progresses)%nat)
    by (apply nth_error_Some; congruence).
  assert (Hlen' : List.length progresses' = Z.to_nat parts).
  { subst progresses'. now rewrite (array_set_length_in_range _ _ _ _ Hnth). }
  assert (Hall' : Forall at_most_100 progresses').
  { subst progresses'. now apply (array_set_Forall _ _ _ _ _ Hnth). }
  assert (Hsz : (0 < inject_Z size)%Q)
    by (change 0%Q with (inject_Z 0); now rewrite <- Zlt_Qlt).
  repeat split; try assumption.
  - apply totalProgress_le; [assumption |]. subst progresses'.
    pose proof (reduce_uploaded_set size progresses i 0 current percent Hnth) as Hset.
    pose proof (part_weight_nonneg size (0 + Z.of_nat i) ltac:(fold parts; lia)) as Hw.
    assert (0 <= (percent - current) / 100 *
                 inject_Z (progress_part_size size (totalParts_of size) (0 + Z.of_nat i)))%Q.
    { apply Qmult_le_0_compat; [| assumption].
      apply Qle_shift_div_l; lra. }
    fold parts in H, Hset |- *. lra.
  - pose proof (reduce_uploaded_capacity size progresses' 0 ltac:(lia)
                  ltac:(fold parts; lia) Hall') as Hcap.
    fold parts in Hcap. rewrite Hlen' in Hcap.
    assert (Ecap : capacity size parts 0 (Z.to_nat parts) = size).
    { unfold capacity. destruct (Z.to_nat parts) eqn:E; [lia |].
      rewrite <- E, Z2Nat.id by lia. cbn [Z.add]. rewrite Z.eqb_refl. lia. }
    rewrite Ecap in Hcap. unfold totalProgress.
    assert (reduce_uploaded size parts 0 progresses' 0 / inject_Z size <= 1)%Q
      by (apply Qle_shift_div_r; lra).
    lra.
Qed.

Lemma deliver_progress_reports : forall size events w,
  0 < size ->
  List.length (partProgresses w) = Z.to_nat (totalParts_of size) ->
  Forall at_most_100 (partProgresses w) ->
  monotone_events (partProgresses w) events ->
  exists reported,
    progress_of (trace (snd (deliver_progress size (totalParts_of size) true events w))) =
      progress_of (trace w) ++ reported /\
    List.length reported = List.length events /\
    Forall (fun q => (q <= 100)%Q) reported /\
    Sorted Qle (totalProgress size (totalParts_of size) (partProgresses w) :: reported).
Proof.
  intros size events. induction events as [| [i percent] rest IH];
    intros w Hsize Hlen Hall Hmono.
  - exists []. cbn. rewrite app_nil_r. repeat split; repeat constructor.
  - cbn [monotone_events] in Hmono.
    destruct Hmono as [[current [Hnth Hcur]] [Hmax Hrest]].
    destruct (progress_step size (partProgresses w) i current percent
                Hsize Hlen Hall Hnth Hcur Hmax) as [Hup [Hcap [Hlen' Hall']]].
    set (parts := totalParts_of size) in *.
    set (progresses' := array_set i (Some percent) (partProgresses w)) in *.
    set (w' := mkWorld (trace w ++ [EvProgress (totalProgress size parts progresses')])
                       progresses').
    assert (Hrun : deliver_progress size parts true ((i, percent) :: rest) w =
                   deliver_progress size parts true rest w') by reflexivity.
    destruct (IH w' Hsize Hlen' Hall' Hrest) as [reported [Htr [Hn [Hle Hsorted]]]].
    exists (totalProgress size parts progresses' :: reported).
    rewrite Hrun, Htr. cbn [trace w']. rewrite progress_of_app, <- app_assoc.
    repeat split.
    + cbn. now rewrite Hn.
    + now constructor.
    + constructor; [exact Hsorted | constructor; exact Hup].
Qed.

(** C7.  In a multipart upload (any file that has bytes to send), start
    from the progress array as the upload creates it and deliver any
    sequence of part-progress events in which every event is for a part
    of the upload, is at most 100 and is not below what the same part
    reported before.  Then one total is handed to the caller per event,
    every total is at most 100, and the totals never decrease (nor start
    below zero). *)
Theorem progress_bounded_monotone : forall size events w,
  0 < size ->
  let parts := totalParts_of size in
  let start := snd (reset_progress parts w) in
  monotone_events (partProgresses start) events ->
  exists reported,
    progress_of (trace (snd (deliver_progress size parts true events start))) =
      progress_of (trace w) ++ reported /\
    List.length reported = List.length events /\
    Forall (fun q => (q <= 100)%Q) reported /\
    Sorted Qle (0%Q :: reported).
Proof.
  intros size events w Hsize parts start Hmono.
  pose proof (totalParts_pos size Hsize) as Hparts. fold parts in Hparts.
  assert (Hlen : List.length (partProgresses start) = Z.to_nat parts)
    by (cbn; unfold array_fill; now rewrite repeat_length).
  assert (Hall : Forall at_most_100 (partProgresses start)).
  { cbn. unfold array_fill. apply Forall_forall. intros e He.
    apply repeat_spec in He. subst e. cbn. lra. }
  destruct (deliver_progress_reports size events start Hsize Hlen Hall Hmono)
    as [reported [Htr [Hn [Hle Hsorted]]]].
  exists reported. repeat split; try assumption.
  inversion Hsorted as [| ? ? Hs Hhd]; subst.
  constructor; [assumption |].
  destruct reported as [| q rest]; constructor.
  inversion Hhd as [| ? ? Hq]; subst.
  assert (H0 : (0 <= totalProgress size parts (partProgresses start))%Q).
  { unfold totalProgress.
    assert (Hz : forall n idx, (reduce_uploaded size parts idx (repeat (Some 0%Q) n) 0 == 0)%Q).
    { induction n as [| n IHn]; intros idx; cbn [repeat reduce_uploaded]; [reflexivity |].
      unfold parts. rewrite reduce_uploaded_acc. fold parts. rewrite IHn.
      unfold Qdiv. ring. }
    cbn [start reset_progress snd partProgresses]. unfold array_fill.
    rewrite Hz. unfold Qdiv. rewrite !Qmult_0_l. apply Qle_refl. }
  eapply Qle_trans; [exact H0 | exact Hq].
Qed.

(* ------------------------------------------------------------------ *)
(** ** What a run adds to the trace *)

Section Emits.

Variable P : Event -> Prop.

Lemma emits_ret {A} (a : A) : emits_only P (ret a).
Proof. intros w. exists []. cbn. now rewrite app_nil_r. Qed.

Lemma emits_throw {A} (e : Error) : emits_only P (@throw A e).
Proof. intros w. exists []. cbn. now rewrite app_nil_r. Qed.

Lemma emits_get_trace : emits_only P get_trace.
Proof. intros w. exists []. cbn. now rewrite app_nil_r. Qed.

Lemma emits_emit (ev : Event) : P ev -> emits_only P (emit ev).
Proof. intros H w. exists [ev]. cbn. split; [reflexivity | now constructor]. Qed.

Lemma emits_bind {A B} (m : M A) (k : A -> M B) :
  emits_only P m -> (forall a, emits_only P (k a)) -> emits_only P (bind m k).
Proof.
  intros Hm Hk w. destruct (Hm w) as [e1 [E1 F1]]. rewrite bind_run.
  destruct (m w) as [[a | e] w1]; cbn [snd] in *.
  - destruct (Hk a w1) as [e2 [E2 F2]]. exists (e1 ++ e2).
    rewrite E2, E1, app_assoc. split; [reflexivity | now apply Forall_app].
  - exists e1. now split.
Qed.

Lemma emits_try_catch {A} (body : M A) (handler : Error -> M A) :
  emits_only P body -> (forall e, emits_only P (handler e)) ->
  emits_only P (try_catch body handler).
Proof.
  intros Hm Hk w. destruct (Hm w) as [e1 [E1 F1]]. rewrite try_catch_run.
  destruct (body w) as [[a | e] w1]; cbn [snd] in *.
  - exists e1. now split.
  - destruct (Hk e w1) as [e2 [E2 F2]]. exists (e1 ++ e2).
    rewrite E2, E1, app_assoc. split; [reflexivity | now apply Forall_app].
Qed.

Hypothesis sleeps_allowed : forall ms, P (EvSleep ms).

Lemma emits_retry {A} (fn : M A) : forall retries delay backoff,
  emits_only P fn -> emits_only P (retry fn retries delay backoff).
Proof.
  induction retries as [| n IH]; intros delay backoff Hfn; cbn [retry];
    apply emits_try_catch; try assumption; intros e.
  - apply emits_throw.
  - apply emits_bind; [apply emits_emit, sleeps_allowed |].
    intros _. now apply IH.
Qed.

End Emits.


(** Composite code is taken apart with the lemmas above. *)
Ltac emits_step :=
  first
    [ apply emits_ret
    | apply emits_throw
    | apply emits_get_trace
    | apply emits_bind; [| intros ?]
    | apply emits_try_catch; [| intros ?]
    | match goal with
      | |- emits_only _ (if ?c then _ else _) => destruct c
      | |- emits_only _ (match ?x with _ => _ end) => destruct x
      end ].

Section Quiet.

Variable host : Host.
Variable P : Event -> Prop.

Lemma emits_sha256 data : emits_only P (sha256 host data).
Proof. unfold sha256. repeat emits_step. Qed.

Lemma emits_hmacSha256Buffer key data : emits_only P (hmacSha256Buffer host key data).
Proof. unfold hmacSha256Buffer. repeat emits_step. Qed.

Lemma emits_hmacSha256 key data : emits_only P (hmacSha256 host key data).
Proof.
  unfold hmacSha256. apply emits_bind; [apply emits_hmacSha256Buffer |].
  intros; apply emits_ret.
Qed.

Lemma emits_getSignatureKey k d r s : emits_only P (getSignatureKey host k d r s).
Proof.
  unfold getSignatureKey.
  repeat (apply emits_bind; [apply emits_hmacSha256Buffer | intros ?]).
  apply emits_ret.
Qed.

Lemma emits_getAmzDate : emits_only P (getAmzDate host).
Proof. unfold getAmzDate. repeat emits_step. Qed.

Lemma emits_createAwsSignature method path headers config payload query :
  emits_only P (createAwsSignature host method path headers config payload query).
Proof.
  unfold createAwsSignature.
  apply emits_bind; [apply emits_sha256 | intros ?].
  destruct (lookup "X-Amz-Date" headers); [| apply emits_throw].
  apply emits_bind; [apply emits_sha256 | intros ?].
  apply emits_bind; [apply emits_getSignatureKey | intros ?].
  apply emits_bind; [apply emits_hmacSha256 | intros ?].
  apply emits_ret.
Qed.

Lemma emits_generatePresignedUrl key config expiresIn :
  emits_only P (generatePresignedUrl host key config expiresIn).
Proof.
  unfold generatePresignedUrl.
  destruct (truthy (publicUrl config)); [apply emits_ret |].
  apply emits_bind; [apply emits_getAmzDate | intros ?].
  apply emits_bind; [apply emits_sha256 | intros ?].
  apply emits_bind; [apply emits_getSignatureKey | intros ?].
  apply emits_bind; [apply emits_hmacSha256 | intros ?].
  apply emits_ret.
Qed.

Lemma emits_hashFileName name : emits_only P (hashFileName host name).
Proof. unfold hashFileName. repeat emits_step. Qed.

Lemma emits_fetch req : P (EvRequest req) -> emits_only P (fetch host req).
Proof.
  intros H. unfold fetch.
  apply emits_bind; [apply emits_get_trace | intros tr].
  apply emits_bind; [now apply emits_emit | intros _].
  destruct (respond host tr req); [apply emits_throw | apply emits_ret].
Qed.

Lemma emits_dispatch_progress events (callback : Q -> M unit) :
  (forall q, emits_only P (callback q)) ->
  emits_only P (dispatch_progress events callback).
Proof.
  intros H. induction events as [| ev rest IH]; cbn [dispatch_progress].
  - apply emits_ret.
  - apply emits_bind; [| intros _; exact IH].
    destruct (lengthComputable ev); [apply H | apply emits_ret].
Qed.

Lemma emits_xhr_put {A} url headers body onProgress (onload : Response -> M A) onerror :
  P (EvRequest (mkRequest "PUT" url headers (Some (Buffer body)))) ->
  (forall callback q, onProgress = Some callback -> emits_only P (callback q)) ->
  (forall r, emits_only P (onload r)) -> emits_only P onerror ->
  emits_only P (xhr_put host url headers body onProgress onload onerror).
Proof.
  intros Hreq Hcb Hload Herr. unfold xhr_put.
  apply emits_bind; [apply emits_get_trace | intros tr].
  apply emits_bind; [now apply emits_emit | intros _].
  apply emits_bind.
  - destruct onProgress as [callback |]; [| apply emits_ret].
    apply emits_dispatch_progress. intros q. now apply (Hcb callback).
  - intros _. destruct (respond host tr _); [assumption | apply Hload].
Qed.

End Quiet.

(* ------------------------------------------------------------------ *)
(** ** The bounded pool *)

Section Arrays.

Context {A : Type}.

Lemma array_set_at_end : forall (a : JsArray A) v,
  array_set (List.length a) v a = a ++ [v].
Proof.
  induction a as [| x a IH]; intros v; cbn; [reflexivity | now rewrite IH].
Qed.

Lemma array_set_length : forall (a : JsArray A) i v,
  (i < List.length a)%nat -> List.length (array_set i v a) = List.length a.
Proof.
  induction a as [| x a IH]; intros i v H; cbn in H; [lia |].
  destruct i; cbn; [reflexivity |]. rewrite IH; [reflexivity | lia].
Qed.

Lemma array_set_same : forall (a : JsArray A) i v,
  (i < List.length a)%nat -> nth_error (array_set i v a) i = Some v.
Proof.
  induction a as [| x a IH]; intros i v H; cbn in H; [lia |].
  destruct i; cbn; [reflexivity |]. apply IH. lia.
Qed.

Lemma array_set_other : forall (a : JsArray A) i j v,
  (i < List.length a)%nat -> i <> j ->
  nth_error (array_set i v a) j = nth_error a j.
Proof.
  induction a as [| x a IH]; intros i j v H Hij; cbn in H; [lia |].
  destruct i, j; cbn; try reflexivity; try lia.
  apply IH; lia.
Qed.

Lemma start_slots : forall count next (a : JsArray A),
  List.length a = next ->
  fold_left (fun r index => array_set index None r) (seq next count) a =
  a ++ repeat None count.
Proof.
  induction count as [| n IH]; intros next a Hlen; cbn [seq fold_left repeat].
  - now rewrite app_nil_r.
  - subst next. rewrite array_set_at_end.
    rewrite IH by (rewrite length_app; cbn; lia).
    now rewrite <- app_assoc.
Qed.

Lemma splice_one_In : forall k (l : list A) x, In x (splice_one k l) -> In x l.
Proof.
  induction k as [| k IH]; intros [| y l] x H; cbn in *; auto.
  destruct H as [H | H]; [now left | right; now apply IH].
Qed.

Lemma splice_one_length : forall k (l : list A),
  (k < List.length l)%nat -> S (List.length (splice_one k l)) = List.length l.
Proof.
  induction k as [| k IH]; intros [| y l] H; cbn in *; try lia.
  rewrite IH; [reflexivity | lia].
Qed.

Lemma splice_one_keeps : forall k (l : list A) x d,
  In x l -> x <> nth k l d -> In x (splice_one k l).
Proof.
  induction k as [| k IH]; intros [| y l] x d Hin Hne; cbn in *; auto.
  - destruct Hin as [-> | Hin]; [contradiction | assumption].
  - destruct Hin as [-> | Hin]; [now left | right; now apply (IH l x d)].
Qed.

Lemma splice_one_NoDup : forall k (l : list A), NoDup l -> NoDup (splice_one k l).
Proof.
  induction k as [| k IH]; intros [| y l] H; cbn; try constructor;
    inversion H; subst; try assumption.
  - intros Hin. apply splice_one_In in Hin. contradiction.
  - now apply IH.
Qed.

Lemma splice_one_removes : forall k (l : list A) d,
  NoDup l -> (k < List.length l)%nat -> ~ In (nth k l d) (splice_one k l).
Proof.
  induction k as [| k IH]; intros [| y l] d H Hk; cbn in *; try lia;
    inversion H; subst.
  - assumption.
  - intros [E | Hin].
    + apply H2. rewrite E. apply nth_In. lia.
    + revert Hin. apply IH; [assumption | lia].
Qed.

End Arrays.

Lemma promise_values_all {T} (R : nat -> T -> Prop) : forall (a : JsArray T) start,
  (forall i, (i < List.length a)%nat ->
     exists r, nth_error a i = Some (Some r) /\ R (start + i)%nat r) ->
  Forall2 R (seq start (List.length a)) (promise_values a).
Proof.
  induction a as [| x a IH]; intros start H; cbn [List.length seq promise_values].
  - constructor.
  - destruct (H O ltac:(cbn; lia)) as [r [E Hr]]. cbn in E. inversion E; subst.
    constructor.
    + now rewrite Nat.add_0_r in Hr.
    + apply IH. intros i Hi. destruct (H (S i) ltac:(cbn; lia)) as [r' [E' Hr']].
      exists r'. split; [exact E' |]. now rewrite Nat.add_succ_r in Hr'.
Qed.

Section Pool.

Variable host : Host.
Context {T : Type}.
Variables (concurrency count : nat) (task : nat -> M T).

(** What each task promises about its result. *)
Variable R : nat -> T -> Prop.
Hypothesis task_post : forall i w r w', task i w = (Ok r, w') -> R i r.

(** Whatever the order in which the tasks settle, when the pool is done
    every slot holds the result of the task with that index. *)
Lemma pool_steps_post : forall fuel next executing results w rs w',
  (count - next + List.length executing <= fuel)%nat ->
  (next <= count)%nat ->
  List.length results = next ->
  NoDup executing ->
  (forall i, In i executing -> (i < next)%nat) ->
  (forall i, (i < next)%nat -> ~ In i executing ->
     exists r, nth_error results i = Some (Some r) /\ R i r) ->
  pool_steps host fuel concurrency count task next executing results w = (Ok rs, w') ->
  List.length rs = count /\
  forall i, (i < count)%nat -> exists r, nth_error rs i = Some (Some r) /\ R i r.
Proof.
  induction fuel as [| fuel IH];
    intros next executing results w rs w' Hfuel Hnext Hlen Hnd Hex Hdone Hrun.
  - cbn in Hrun. inversion Hrun; subst rs w'.
    assert (next = count) by lia. assert (executing = []) by (destruct executing; [reflexivity | cbn in Hfuel; lia]).
    subst. split; [reflexivity |]. intros i Hi. apply Hdone; [assumption | intros []].
  - cbn [pool_steps] in Hrun.
    set (admitted := Nat.min (Nat.max 1 concurrency - List.length executing) (count - next)) in *.
    rewrite start_slots in Hrun by assumption.
    rewrite length_seq in Hrun.
    remember (executing ++ seq next admitted) as executing' eqn:Edef.
    remember (results ++ repeat None admitted) as results' eqn:Rdef.
    assert (Hlen' : List.length results' = (next + admitted)%nat)
      by (subst results'; rewrite length_app, repeat_length; lia).
    assert (Hex' : forall i, In i executing' -> (i < next + admitted)%nat).
    { intros i Hi. subst executing'. apply in_app_or in Hi. destruct Hi as [Hi | Hi].
      - specialize (Hex i Hi). lia.
      - apply in_seq in Hi. lia. }
    assert (Hnd' : NoDup executing').
    { subst executing'. apply NoDup_app; [assumption | apply seq_NoDup |].
      intros i Hi Hs. specialize (Hex i Hi). apply in_seq in Hs. lia. }
    assert (Hdone' : forall i, (i < next + admitted)%nat -> ~ In i executing' ->
              exists r, nth_error results' i = Some (Some r) /\ R i r).
    { intros i Hi Hni.
      assert (i < next)%nat.
      { destruct (Nat.lt_ge_cases i next); [assumption |].
        exfalso. apply Hni. subst executing'. apply in_or_app. right. apply in_seq. lia. }
      destruct (Hdone i H) as [r [E Hr]].
      { intros Hin. apply Hni. subst executing'. apply in_or_app. now left. }
      exists r. split; [| assumption].
      subst results'. rewrite nth_error_app1 by lia. assumption. }
    assert (Hcount : List.length executing' = (List.length executing + admitted)%nat)
      by (subst executing'; now rewrite length_app, length_seq).
    destruct executing' as [| x rest] eqn:Eexec.
    + (* nothing in flight and nothing left to start *)
      cbn in Hrun. inversion Hrun; subst rs w'.
      cbn [List.length] in Hcount.
      assert (next = count) by lia.
      split; [lia |]. intros i Hi. apply Hdone'; [lia | intros []].
    + rewrite <- Eexec in *.
      assert (Hpos : (0 < List.length executing')%nat)
        by (rewrite Eexec; cbn; lia).
      rewrite bind_run in Hrun. cbn [get_trace] in Hrun.
      set (k := (settles_next host (trace w) (List.length executing')
                 mod List.length executing')%nat) in *.
      assert (Hk : (k < List.length executing')%nat)
        by (apply Nat.mod_upper_bound; lia).
      set (index := nth k executing' 0%nat) in *.
      assert (Hindex : In index executing') by (apply nth_In; assumption).
      rewrite bind_run in Hrun.
      destruct (task index w) as [[res | e] w1] eqn:Etask; [| discriminate].
      pose proof (task_post _ _ _ _ Etask) as Hres.
      pose proof (Hex' index Hindex) as Hin.
      apply (IH _ _ _ _ _ _) in Hrun; try assumption.
      * pose proof (splice_one_length k executing' Hk). lia.
      * lia.
      * rewrite array_set_length; lia.
      * now apply splice_one_NoDup.
      * intros i Hi. apply Hex'. now apply splice_one_In in Hi.
      * intros i Hi Hni. destruct (Nat.eq_dec i index) as [-> | Hne].
        -- exists res. split; [apply array_set_same; lia | assumption].
        -- rewrite array_set_other by (try lia; congruence).
           apply Hdone'; [assumption |].
           intros Hi'. apply Hni. now apply (splice_one_keeps k executing' i 0%nat).
Qed.

Lemma pool_steps_emits (P : Event -> Prop) :
  (forall i, emits_only P (task i)) ->
  forall fuel next executing results,
    emits_only P (pool_steps host fuel concurrency count task next executing results).
Proof.
  intros Htask. induction fuel as [| fuel IH]; intros next executing results;
    cbn [pool_steps]; [apply emits_ret |].
  match goal with
  | |- emits_only _ (match ?l with _ => _ end) => destruct l
  end; [apply emits_ret |].
  apply emits_bind; [apply emits_get_trace | intros tr].
  apply emits_bind; [apply Htask | intros res]. apply IH.
Qed.

End Pool.

(** The pool resolves to one result per item, in the order of the items,
    whatever the order in which the tasks settled. *)
Lemma asyncPool_post {X T} (host : Host) (R : nat -> T -> Prop) :
  forall concurrency (items : list X) (fn : X -> nat -> M T),
    (forall i item w r w',
       nth_error items i = Some item -> fn item i w = (Ok r, w') -> R i r) ->
    forall w rs w',
      asyncPool host concurrency items fn w = (Ok rs, w') ->
      Forall2 R (seq 0 (List.length items)) rs.
Proof.
  intros concurrency items fn Hfn w rs w' Hrun.
  unfold asyncPool in Hrun. rewrite bind_run in Hrun.
  match type of Hrun with
  | context [pool_steps host ?f ?c ?n ?t 0%nat [] [] w] =>
      destruct (pool_steps host f c n t 0%nat [] [] w) as [[slots | e] w1] eqn:E;
      [| discriminate];
      apply (pool_steps_post host c n t R) in E
  end.
  - destruct E as [Hlen Hall]. cbn [ret] in Hrun. inversion Hrun; subst rs w'.
    rewrite <- Hlen. apply promise_values_all. intros i Hi. cbn [Nat.add].
    apply Hall. lia.
  - intros i w0 r w0' Ht.
    destruct (nth_error items i) as [item |] eqn:Ei; [| discriminate].
    now apply (Hfn i item w0 r w0').
  - cbn. lia.
  - lia.
  - reflexivity.
  - constructor.
  - intros i [].
  - intros i Hi. lia.
Qed.

Lemma asyncPool_emits {X T} (host : Host) (P : Event -> Prop) :
  forall concurrency (items : list X) (fn : X -> nat -> M T),
    (forall item i, nth_error items i = Some item -> emits_only P (fn item i)) ->
    emits_only P (asyncPool host concurrency items fn).
Proof.
  intros concurrency items fn Hfn. unfold asyncPool.
  apply emits_bind; [| intros; apply emits_ret].
  apply pool_steps_emits. intros i.
  destruct (nth_error items i) eqn:E; [now apply Hfn | apply emits_throw].
Qed.

(* ------------------------------------------------------------------ *)
(** ** The two upload paths *)



Lemma emits_bind_post {A B} (P : Event -> Prop) (Q : A -> Prop)
    (m : M A) (k : A -> M B) :
  (forall w a w', m w = (Ok a, w') -> Q a) ->
  emits_only P m -> (forall a, Q a -> emits_only P (k a)) ->
  emits_only P (bind m k).
Proof.
  intros Hpost Hm Hk w. destruct (Hm w) as [e1 [E1 F1]]. rewrite bind_run.
  destruct (m w) as [[a | e] w1] eqn:Em; cbn [snd] in *.
  - destruct (Hk a (Hpost _ _ _ Em) w1) as [e2 [E2 F2]]. exists (e1 ++ e2).
    rewrite E2, E1, app_assoc. split; [reflexivity | now apply Forall_app].
  - exists e1. now split.
Qed.

Lemma emits_on_part_progress (P : Event -> Prop) size parts i onProgress q :
  (forall p, P (EvProgress p)) ->
  emits_only P (on_part_progress size parts i onProgress q).
Proof.
  intros HP w. unfold on_part_progress. destruct onProgress; cbn.
  - eexists. split; [reflexivity |]. constructor; [apply HP | constructor].
  - exists []. now rewrite app_nil_r.
Qed.

Lemma emits_reset_progress (P : Event -> Prop) parts :
  emits_only P (reset_progress parts).
Proof. intros w. exists []. cbn. now rewrite app_nil_r. Qed.

Lemma emits_console_error (P : Event -> Prop) label e :
  P (EvLog label e) -> emits_only P (console_error label e).
Proof. intros H. now apply emits_emit. Qed.

Lemma emits_getR2Config host (P : Event -> Prop) :
  (forall label e, P (EvLog label e)) -> emits_only P (getR2Config host).
Proof.
  intros H. unfold getR2Config.
  apply emits_bind; [apply emits_get_trace | intros tr].
  destruct (getItem host tr); try apply emits_ret.
  apply emits_bind; [apply emits_console_error, H | intros; apply emits_ret].
Qed.




Section MultipartPath.

Variables (host : Host) (config : R2Config) (key : string) (file : File).

Let P := on_requests (multipart_request config key file).

Lemma multipart_passes : forall ev, is_request ev = false -> P ev.
Proof. intros [] H; try discriminate; exact I. Qed.









End MultipartPath.

(** *** Counting attempts *)

Lemma count_events_app : forall p a b,
  count_events p (a ++ b) = (count_events p a + count_events p b)%nat.
Proof.
  intros p a b. unfold count_events. now rewrite filter_app, length_app.
Qed.

Lemma one_request_emits {A} (P : Event -> Prop) (m : M A) :
  one_request P m -> emits_only P m.
Proof.
  intros H w. destruct (H w) as [evs [E [F _]]]. exists evs. now split.
Qed.


Lemma dispatch_progress_reports : forall events w,
  exists ps,
    dispatch_progress events (fun p => emit (EvProgress p)) w =
    (Ok tt, mkWorld (trace w ++ map EvProgress ps) (partProgresses w)).
Proof.
  induction events as [| ev rest IH]; intros w; cbn [dispatch_progress].
  - exists []. cbn. rewrite app_nil_r. now destruct w.
  - rewrite bind_run. destruct (lengthComputable ev).
    + cbn [emit]. destruct (IH (mkWorld (trace w ++ [EvProgress (percentComplete ev)])
                                       (partProgresses w))) as [ps E].
      exists (percentComplete ev :: ps). rewrite E. cbn [trace partProgresses map].
      now rewrite <- app_assoc.
    + cbn [ret]. apply IH.
Qed.

Lemma count_progress_events : forall p ps,
  (forall q, p (EvProgress q) = false) -> count_events p (map EvProgress ps) = 0%nat.
Proof.
  intros p ps H. induction ps as [| q ps IH]; [reflexivity |].
  unfold count_events in *. cbn. now rewrite H.
Qed.


(** *** With the crypto API present, signing is a pure computation *)

Lemma sha256_ok host data w :
  crypto_available host = true ->
  sha256 host data w = (Ok (hex_of_bytes (digest host (payload_bytes data))), w).
Proof. intros H. unfold sha256. now rewrite H. Qed.

Lemma getAmzDate_ok host w :
  getAmzDate host w = (Ok (strip_amz 0 (toISOString host (trace w))), w).
Proof. reflexivity. Qed.

Lemma createAwsSignature_ok host method path headers config payload query date :
  crypto_available host = true ->
  lookup "X-Amz-Date" headers = Some date ->
  exists signature, forall w,
    createAwsSignature host method path headers config payload query w =
    (Ok signature, w).
Proof.
  intros Hc Hd. unfold createAwsSignature, getSignatureKey, hmacSha256,
    hmacSha256Buffer, sha256.
  rewrite Hc, Hd. eexists. intros w. reflexivity.
Qed.


(** *** The first request of a run *)

Section FirstRequest.

Variable Q : Request -> Prop.





End FirstRequest.




Lemma first_request_cons_request : forall r evs, first_request (EvRequest r :: evs) = Some r.
Proof. reflexivity. Qed.


(* ------------------------------------------------------------------ *)
(** ** Parts of a multipart upload *)




(* ------------------------------------------------------------------ *)
(** ** Failure of a multipart upload *)

Lemma retry_first_ok {A} (fn : M A) retries delay backoff w a w1 :
  fn w = (Ok a, w1) -> retry fn retries delay backoff w = (Ok a, w1).
Proof. intros H. rewrite retry_run, H. reflexivity. Qed.


Section Abort.

Variables (host : Host) (config : R2Config) (key uploadId : string).
Hypothesis crypto : crypto_available host = true.



End Abort.



Lemma big_file_size : file_size Scenario.big_file = MULTIPART_THRESHOLD + 1.
Proof.
  unfold file_size, Scenario.big_file. cbn [file_content].
  rewrite repeat_length, Z2Nat.id; [reflexivity | discriminate].
Qed.


(* ------------------------------------------------------------------ *)
(** ** Signatures and the case of header names *)

(** The reference digests agree with the published test vectors. *)
Example sha256_abc :
  hex_of_bytes (WebCrypto.sha256 (encode "abc")) =
  "ba7816bf8f01cfea414140de5dae2223b00361a396177a9cb410ff61f20015ad"%string.
Proof. vm_compute. reflexivity. Qed.

Example sha256_empty :
  hex_of_bytes (WebCrypto.sha256 []) =
  "e3b0c44298fc1c149afbf4c8996fb92427ae41e4649b934ca495991b7852b855"%string.
Proof. vm_compute. reflexivity. Qed.

Example sha256_two_blocks :
  hex_of_bytes
    (WebCrypto.sha256
       (encode "abcdbcdecdefdefgefghfghighijhijkijkljklmklmnlmnomnopnopq")) =
  "248d6a61d20638b8e5c026930c3e6039a33ce45964ff2167f6ecedd419db06c1"%string.
Proof. vm_compute. reflexivity. Qed.

Example hmac_rfc4231_case2 :
  hex_of_bytes (WebCrypto.hmac (encode "Jefe") (encode "what do ya want for nothing?")) =
  "5bdcc146bf60754e6a042426089575c75a003f089d2739839dec58b964ec3843"%string.
Proof. vm_compute. reflexivity. Qed.


(** *** The order of the input headers *)

Lemma ascii_compare_N : forall x y,
  Ascii.compare x y = N.compare (N_of_ascii x) (N_of_ascii y).
Proof. reflexivity. Qed.

Lemma string_leb_trans : forall a b c,
  String.leb a b = true -> String.leb b c = true -> String.leb a c = true.
Proof.
  unfold String.leb.
  induction a as [| x a IH]; intros [| y b] [| z c]; cbn; try congruence.
  rewrite !ascii_compare_N.
  destruct (N.compare_spec (N_of_ascii x) (N_of_ascii y)) as [Exy | Lxy | Gxy];
    destruct (N.compare_spec (N_of_ascii y) (N_of_ascii z)) as [Eyz | Lyz | Gyz];
    destruct (N.compare_spec (N_of_ascii x) (N_of_ascii z)) as [Exz | Lxz | Gxz];
    try congruence; try lia.
  apply IH.
Qed.

Lemma insert_sorted_swap : forall l a b,
  Sorted (fun x y => String.leb x y = true) l ->
  insert_sorted a (insert_sorted b l) = insert_sorted b (insert_sorted a l).
Proof.
  intros l a b Hs. induction Hs as [| x l Hs IH Hhd]; cbn.
  - destruct (String.leb a b) eqn:Eab, (String.leb b a) eqn:Eba; try reflexivity.
    + now rewrite (String.leb_antisym _ _ Eab Eba).
    + destruct (String.leb_total a b); congruence.
  - destruct (String.leb b x) eqn:Ebx, (String.leb a x) eqn:Eax; cbn;
      rewrite ?Ebx, ?Eax.
    + destruct (String.leb a b) eqn:Eab, (String.leb b a) eqn:Eba; try reflexivity.
      * now rewrite (String.leb_antisym _ _ Eab Eba).
      * destruct (String.leb_total a b); congruence.
    + destruct (String.leb a b) eqn:Eab; [| reflexivity].
      rewrite (string_leb_trans _ _ _ Eab Ebx) in Eax. discriminate.
    + destruct (String.leb b a) eqn:Eba; [| reflexivity].
      rewrite (string_leb_trans _ _ _ Eba Eax) in Ebx. discriminate.
    + now rewrite IH.
Qed.

Lemma insert_sorted_Sorted : forall k l,
  Sorted (fun x y => String.leb x y = true) l ->
  Sorted (fun x y => String.leb x y = true) (insert_sorted k l).
Proof.
  intros k l Hs. induction Hs as [| x l Hs IH Hhd]; cbn.
  - repeat constructor.
  - destruct (String.leb k x) eqn:E.
    + constructor; [now constructor | now constructor].
    + constructor; [assumption |].
      assert (Hxk : String.leb x k = true)
        by (destruct (String.leb_total k x); congruence).
      destruct Hhd as [| y l' Hxy]; cbn.
      * now constructor.
      * destruct (String.leb k y); now constructor.
Qed.

Lemma sort_strings_Sorted : forall l,
  Sorted (fun x y => String.leb x y = true) (sort_strings l).
Proof.
  induction l as [| k l IH]; [constructor |].
  change (sort_strings (k :: l)) with (insert_sorted k (sort_strings l)).
  now apply insert_sorted_Sorted.
Qed.

Lemma sort_strings_Permutation : forall l l',
  Permutation l l' -> sort_strings l = sort_strings l'.
Proof.
  intros l l' H. induction H as [| x l l' H IH | x y l | l l' l'' H1 IH1 H2 IH2].
  - reflexivity.
  - change (insert_sorted x (sort_strings l) = insert_sorted x (sort_strings l')).
    now rewrite IH.
  - change (insert_sorted y (insert_sorted x (sort_strings l)) =
            insert_sorted x (insert_sorted y (sort_strings l))).
    apply insert_sorted_swap, sort_strings_Sorted.
  - now rewrite IH1.
Qed.

Lemma lookup_not_key : forall k h, ~ In k (map fst h) -> lookup k h = None.
Proof.
  intros k h. induction h as [| [k' v] h IH]; cbn; intros H; [reflexivity |].
  destruct (String.eqb_spec k k') as [-> | _]; [exfalso; apply H; now left |].
  apply IH. intros Hin. apply H. now right.
Qed.

Lemma lookup_Permutation : forall h h',
  Permutation h h' -> NoDup (map fst h) -> forall k, lookup k h = lookup k h'.
Proof.
  intros h h' H. induction H as [| [x v] l l' H IH | [x v] [y v'] l | l l' l'' H1 IH1 H2 IH2];
    intros Hnd k.
  - reflexivity.
  - cbn in *. inversion Hnd; subst. now rewrite IH.
  - cbn in *. inversion Hnd as [| ? ? Hy Hnd']; subst.
    destruct (String.eqb_spec k y) as [Ey | _], (String.eqb_spec k x) as [Ex | _];
      try reflexivity.
    exfalso. apply Hy. left. congruence.
  - rewrite IH1 by assumption. apply IH2.
    eapply Permutation_NoDup; [| exact Hnd]. now apply Permutation_map.
Qed.

(** The half of C4 that the code does keep: listing the same headers in
    another order gives the same signature. *)
Lemma createAwsSignature_order_invariant :
  forall host method path headers headers' config payload query w,
    NoDup (map fst headers) -> Permutation headers headers' ->
    createAwsSignature host method path headers config payload query w =
    createAwsSignature host method path headers' config payload query w.
Proof.
  intros host method path headers headers' config payload query w Hnd Hperm.
  assert (Hkeys : sortedHeaders headers = sortedHeaders headers').
  { unfold sortedHeaders, object_keys.
    apply sort_strings_Permutation. now apply Permutation_map. }
  assert (Hval : forall k, header_value headers k = header_value headers' k).
  { intros k. unfold header_value. now rewrite (lookup_Permutation _ _ Hperm Hnd k). }
  assert (Hcanon : canonicalHeaders headers = canonicalHeaders headers').
  { unfold canonicalHeaders, map_join. rewrite Hkeys. f_equal.
    apply map_ext. intros k. now rewrite Hval. }
  assert (Hsigned : signedHeaders headers = signedHeaders headers').
  { unfold signedHeaders. now rewrite Hkeys. }
  unfold createAwsSignature, canonicalRequest.
  rewrite Hcanon, Hsigned, (lookup_Permutation _ _ Hperm Hnd "X-Amz-Date").
  reflexivity.
Qed.

(* ------------------------------------------------------------------ *)
(** ** The statements at concrete inputs *)




Lemma progress_bounded_monotone_witness :
  exists reported,
    List.length reported = 5%nat /\
    Forall (fun q => (q <= 100)%Q) reported /\
    Sorted Qle (0%Q :: reported).
Proof.
  destruct (progress_bounded_monotone (25 * 1024 * 1024) Scenario.progress_events
              Scenario.fresh eq_refl) as [reported [_ [Hn [Hle Hs]]]].
  - cbn. repeat split; try (eexists; split; [reflexivity |]); unfold Qle; cbn; lia.
  - exists reported. repeat split; assumption.
Defined.

Lemma generatePresignedUrl_spec_witness :
  generatePresignedUrl Scenario.quiet_host "k.txt" Scenario.config_public None
    Scenario.fresh = (Ok "https://cdn.example.com/k.txt"%string, Scenario.fresh) /\
  exists url,
    generatePresignedUrl Scenario.quiet_host "k.txt" Scenario.config None
      Scenario.fresh = (Ok url, Scenario.fresh).
Proof.
  split.
  - apply (proj1 (generatePresignedUrl_spec Scenario.quiet_host "k.txt"
                    Scenario.config_public None Scenario.fresh)
             "https://cdn.example.com/"%string eq_refl).
    discriminate.
  - eexists.
    apply (proj2 (generatePresignedUrl_spec Scenario.quiet_host "k.txt"
                    Scenario.config None Scenario.fresh) eq_refl eq_refl).
Defined.

Lemma calculateFileHash_spec_witness :
  calculateFileHash Scenario.quiet_host Scenario.small_file Scenario.fresh =
    (Ok "616263"%string, Scenario.fresh) /\
  exists sample,
    calculateFileHash Scenario.quiet_host Scenario.big_file Scenario.fresh =
      (Ok (hex_of_bytes (digest Scenario.quiet_host sample)), Scenario.fresh).
Proof.
  split.
  - apply (proj2 (calculateFileHash_spec Scenario.quiet_host Scenario.small_file
                    Scenario.fresh eq_refl)).
    vm_compute. discriminate.
  - eexists.
    apply (proj1 (calculateFileHash_spec Scenario.quiet_host Scenario.big_file
                    Scenario.fresh eq_refl)).
    rewrite big_file_size. reflexivity.
Defined.


(* ================================================================== *)
(** * Further properties *)

(** ** Deleting an object *)

(** One run of [deleteFileFromR2] with a configuration stored: one
    DELETE, and an outcome read off the answer. *)
Lemma delete_attempt : forall host config fileId w,
  crypto_available host = true ->
  getItem host (trace w) = Item config ->
  exists req,
    req_method req = "DELETE"%string /\
    req_url req = (r2_endpoint config ++ "/" ++ bucketName config ++ "/" ++ fileId)%string /\
    req_body req = None /\
    deleteFileFromR2 host fileId w =
    (match respond host (trace w) req with
     | NetworkFailure e => Throw e
     | Responded r =>
         if response_ok r || (status r =? 404) then Ok tt
         else Throw (JsError ("Delete failed: " ++ number_to_string (status r) ++
                              " " ++ statusText r))
     end,
     mkWorld (trace w ++ [EvRequest req]) (partProgresses w)).
Proof.
  intros host config fileId w Hc Hitem.
  unfold deleteFileFromR2, getR2Config.
  rewrite bind_run. cbn [get_trace bind]. rewrite Hitem. cbn [ret].
  rewrite bind_run, getAmzDate_ok, bind_run, (sha256_ok host _ w Hc).
  match goal with
  | |- context [createAwsSignature host ?m ?p ?h ?c ?pl ?q] =>
      destruct (createAwsSignature_ok host m p h c pl q _ Hc eq_refl)
        as [signature Hsig]
  end.
  rewrite bind_run, Hsig. rewrite bind_run. unfold fetch.
  rewrite bind_run. cbn [get_trace]. rewrite bind_run. cbn [emit].
  match goal with
  | |- context [EvRequest ?req] => exists req
  end.
  repeat split.
  destruct (respond host (trace w) _) as [e | r]; [reflexivity |].
  cbn [ret]. destruct (response_ok r), (status r =? 404); reflexivity.
Qed.

(** ** The CORS setter *)

Lemma list_ascii_app : forall a b,
  list_ascii_of_string (a ++ b)%string = list_ascii_of_string a ++ list_ascii_of_string b.
Proof. induction a as [| x a IH]; intros b; cbn; [reflexivity | now rewrite IH]. Qed.

Lemma string_of_list_app : forall a b,
  string_of_list_ascii (a ++ b) =
  (string_of_list_ascii a ++ string_of_list_ascii b)%string.
Proof. induction a as [| x a IH]; intros b; cbn; [reflexivity | now rewrite IH]. Qed.

Lemma string_rev_app : forall a b,
  string_rev (a ++ b)%string = (string_rev b ++ string_rev a)%string.
Proof.
  intros a b. unfold string_rev.
  now rewrite list_ascii_app, rev_app_distr, string_of_list_app.
Qed.

Lemma string_rev_involutive : forall s, string_rev (string_rev s) = s.
Proof.
  intros s. unfold string_rev.
  now rewrite list_ascii_of_string_of_list_ascii, rev_involutive,
    string_of_list_ascii_of_string.
Qed.

Lemma trimStart_blank : forall a c s,
  blank a = true -> is_space_char c = false ->
  trimStart (a ++ String c s) = String c s.
Proof.
  induction a as [| x a IH]; intros c s Ha Hc; cbn in *.
  - now rewrite Hc.
  - apply andb_true_iff in Ha as [Hx Ha]. rewrite Hx. now apply IH.
Qed.

Lemma blank_rev : forall a, blank a = true -> blank (string_rev a) = true.
Proof.
  assert (Happ : forall a b, blank (a ++ b) = blank a && blank b).
  { induction a as [| x a IH]; intros b; cbn; [reflexivity |].
    now rewrite IH, andb_assoc. }
  induction a as [| x a IH]; intros Ha; [reflexivity |].
  cbn in Ha. apply andb_true_iff in Ha as [Hx Ha].
  change (String x a) with (String x EmptyString ++ a)%string.
  rewrite string_rev_app, Happ, (IH Ha). cbn. now rewrite Hx.
Qed.

(** [trim] takes the blanks off both ends of a text that starts and ends
    with something else. *)
Lemma trim_between : forall a b c s d,
  blank a = true -> blank b = true ->
  is_space_char c = false -> is_space_char d = false ->
  trim (a ++ (String c s ++ String d EmptyString) ++ b) =
  (String c s ++ String d EmptyString)%string.
Proof.
  intros a b c s d Ha Hb Hc Hd. unfold trim.
  change ((String c s ++ String d EmptyString) ++ b)%string
    with (String c ((s ++ String d EmptyString) ++ b))%string.
  rewrite (trimStart_blank a c _ Ha Hc).
  change (String c ((s ++ String d EmptyString) ++ b))%string
    with ((String c s ++ String d EmptyString) ++ b)%string.
  rewrite string_rev_app, (string_rev_app (String c s)).
  change (string_rev (String d EmptyString)) with (String d EmptyString).
  cbn [append].
  rewrite (trimStart_blank (string_rev b) d _ (blank_rev b Hb) Hd).
  change (String d (string_rev (String c s)))
    with (string_rev (String d EmptyString) ++ string_rev (String c s))%string.
  rewrite <- string_rev_app. apply string_rev_involutive.
Qed.

(** The policy document sent: no blank at either end, one
    [AllowedOrigin] element per origin, in the order given and with the
    origin as it is, then the five methods, any header, the exposed
    [ETag] and the maximal age. *)
Lemma corsXmlBody_explicit : forall origins,
  corsXmlBody origins =
  ("<CORSConfiguration xmlns=" ++ dquote ++
   "http://s3.amazonaws.com/doc/2006-03-01/" ++ dquote ++ ">" ++ nl ++
   "      <CORSRule>" ++ nl ++
   "        " ++
   String.concat EmptyString
     (map (fun origin => "<AllowedOrigin>" ++ origin ++ "</AllowedOrigin>") origins) ++
   nl ++
   "        <AllowedMethod>GET</AllowedMethod>" ++ nl ++
   "        <AllowedMethod>PUT</AllowedMethod>" ++ nl ++
   "        <AllowedMethod>POST</AllowedMethod>" ++ nl ++
   "        <AllowedMethod>DELETE</AllowedMethod>" ++ nl ++
   "        <AllowedMethod>HEAD</AllowedMethod>" ++ nl ++
   "        <AllowedHeader>*</AllowedHeader>" ++ nl ++
   "        <ExposeHeader>ETag</ExposeHeader>" ++ nl ++
   "        <MaxAgeSeconds>3000</MaxAgeSeconds>" ++ nl ++
   "      </CORSRule>" ++ nl ++
   "    </CORSConfiguration>")%string.
Proof.
  intros origins. unfold corsXmlBody, corsXmlTemplate, map_join, origin_xml.
  set (inner := String.concat EmptyString _).
  pose (blanks := (nl ++ "    ")%string).
  pose (tail := (nl ++ "  ")%string).
  pose (mid :=
    ("CORSConfiguration xmlns=" ++ dquote ++
     "http://s3.amazonaws.com/doc/2006-03-01/" ++ dquote ++ ">" ++ nl ++
     "      <CORSRule>" ++ nl ++ "        " ++ inner ++ nl ++
     "        <AllowedMethod>GET</AllowedMethod>" ++ nl ++
     "        <AllowedMethod>PUT</AllowedMethod>" ++ nl ++
     "        <AllowedMethod>POST</AllowedMethod>" ++ nl ++
     "        <AllowedMethod>DELETE</AllowedMethod>" ++ nl ++
     "        <AllowedMethod>HEAD</AllowedMethod>" ++ nl ++
     "        <AllowedHeader>*</AllowedHeader>" ++ nl ++
     "        <ExposeHeader>ETag</ExposeHeader>" ++ nl ++
     "        <MaxAgeSeconds>3000</MaxAgeSeconds>" ++ nl ++
     "      </CORSRule>" ++ nl ++
     "    </CORSConfiguration")%string).
  transitivity (trim (blanks ++ (String "<" mid ++ String ">" EmptyString) ++ tail)).
  - f_equal. unfold blanks, tail, mid, nl, dquote. cbn [append].
    repeat (rewrite ?string_app_assoc; cbn [append]). reflexivity.
  - rewrite trim_between by reflexivity.
    unfold mid, nl, dquote. cbn [append].
    repeat (rewrite ?string_app_assoc; cbn [append]). reflexivity.
Qed.

Lemma putBucketCors_attempt : forall host config origins w,
  crypto_available host = true ->
  exists req,
    req_method req = "PUT"%string /\
    req_url req = (r2_endpoint config ++ "/" ++ bucketName config ++ "?cors")%string /\
    req_body req = Some (Text (corsXmlBody origins)) /\
    lookup "Content-Type" (req_headers req) = Some "application/xml"%string /\
    lookup "X-Amz-Content-Sha256" (req_headers req) =
      Some (hex_of_bytes (digest host (encode (corsXmlBody origins)))) /\
    putBucketCors host config origins w =
    (match respond host (trace w) req with
     | NetworkFailure e => Throw e
     | Responded r =>
         if response_ok r then Ok tt
         else Throw (JsError ("Failed to set CORS policy: " ++
                              number_to_string (status r) ++ " " ++ statusText r))
     end,
     mkWorld (trace w ++ [EvRequest req]) (partProgresses w)).
Proof.
  intros host config origins w Hc.
  unfold putBucketCors.
  rewrite bind_run, getAmzDate_ok, bind_run, (sha256_ok host _ w Hc).
  match goal with
  | |- context [createAwsSignature host ?m ?p ?h ?c ?pl ?q] =>
      destruct (createAwsSignature_ok host m p h c pl q _ Hc eq_refl)
        as [signature Hsig]
  end.
  rewrite bind_run, Hsig. rewrite bind_run. unfold fetch.
  rewrite bind_run. cbn [get_trace]. rewrite bind_run. cbn [emit].
  match goal with
  | |- context [EvRequest ?req] => exists req
  end.
  repeat split.
  destruct (respond host (trace w) _) as [e | r]; [reflexivity |].
  cbn [ret]. destruct (response_ok r); reflexivity.
Qed.

(** ** The retry policy at any setting *)

Lemma backoff_waits_succ : forall retries delay backoff,
  backoff_waits (S retries) delay backoff =
  delay :: backoff_waits retries (delay * backoff) backoff.
Proof.
  intros n d b. unfold backoff_waits.
  cbn [seq map]. rewrite <- seq_shift, map_map. f_equal.
  - cbn. lia.
  - apply map_ext. intros i. rewrite Nat2Z.inj_succ, Z.pow_succ_r by lia. ring.
Qed.

Lemma sleeps_of_app : forall a b, sleeps_of (a ++ b) = sleeps_of a ++ sleeps_of b.
Proof.
  induction a as [| [r | ms | l e | p] a IH]; intros b; cbn; rewrite ?IH; reflexivity.
Qed.

Lemma sleeps_of_sleeps : forall l, sleeps_of (map EvSleep l) = l.
Proof. induction l as [| x l IH]; cbn; [reflexivity | now rewrite IH]. Qed.

(** The outcome of a retried operation is the outcome of its last run. *)
Lemma retry_last_run {A} (fn : M A) : forall retries delay backoff w,
  exists w_last, retry fn retries delay backoff w = fn w_last.
Proof.
  induction retries as [| n IH]; intros d b w; rewrite retry_run.
  - exists w. destruct (fn w) as [[a | e] w1]; reflexivity.
  - destruct (fn w) as [[a | e] w1] eqn:Hrun.
    + exists w. now rewrite Hrun.
    + apply IH.
Qed.

(** An operation that fails without a trace is retried to the end. *)
Lemma retry_stuck {A} (fn : M A) (e : Error) :
  (forall w, fn w = (Throw e, w)) ->
  forall retries delay backoff w,
    retry fn retries delay backoff w =
    (Throw e, mkWorld (trace w ++ map EvSleep (backoff_waits retries delay backoff))
                      (partProgresses w)).
Proof.
  intros Hfn. induction retries as [| n IH]; intros d b w; rewrite retry_run, Hfn.
  - cbn. rewrite app_nil_r. now destruct w.
  - rewrite IH, backoff_waits_succ. cbn [trace partProgresses map].
    now rewrite <- app_assoc.
Qed.

(** [retry] at any setting.  Its outcome is the outcome of the last run
    of the operation; and when the operation fails every time (adding no
    wait of its own) it is run [retries + 1] times with the waits
    [delay], [delay * backoff], ..., [delay * backoff ^ (retries - 1)]
    between the runs. *)
Theorem retry_schedule : forall (A : Type) (fn : M A) retries delay backoff w,
  (exists w_last, retry fn retries delay backoff w = fn w_last) /\
  ((forall w0, exists e w1 evs,
       fn w0 = (Throw e, w1) /\ trace w1 = trace w0 ++ evs /\ sleeps_of evs = []) ->
   exists e w1 evs,
     retry fn retries delay backoff w = (Throw e, w1) /\
     trace w1 = trace w ++ evs /\
     sleeps_of evs = backoff_waits retries delay backoff /\
     List.length (sleeps_of evs) = retries).
Proof.
  intros A fn retries delay backoff w. split; [apply retry_last_run |].
  intros Hfn. revert delay w.
  induction retries as [| n IH]; intros d w; rewrite retry_run;
    destruct (Hfn w) as [e [w1 [evs [Hrun [Htr Hsl]]]]]; rewrite Hrun.
  - exists e, w1, evs. rewrite Hsl. now repeat split.
  - destruct (IH (d * backoff)
                (mkWorld (trace w1 ++ [EvSleep d]) (partProgresses w1)))
      as [e' [w2 [evs' [Hrun' [Htr' [Hsl' Hlen]]]]]].
    exists e', w2, (evs ++ EvSleep d :: evs'). repeat split.
    + exact Hrun'.
    + rewrite Htr'. cbn [trace]. rewrite Htr, <- !app_assoc. reflexivity.
    + rewrite sleeps_of_app, Hsl, backoff_waits_succ. cbn. now rewrite Hsl'.
    + rewrite sleeps_of_app, Hsl. cbn. now rewrite Hlen.
Qed.

(** ** Without a configuration, without the crypto API *)

Lemma sha256_unavailable host data w :
  crypto_available host = false -> sha256 host data w = (Throw crypto_error, w).
Proof. intros H. unfold sha256. now rewrite H. Qed.

Lemma initiate_unavailable host config key contentType w :
  crypto_available host = false ->
  initiateMultipartUpload host config key contentType w = (Throw crypto_error, w).
Proof.
  intros H. unfold initiateMultipartUpload.
  rewrite bind_run, getAmzDate_ok, bind_run, (sha256_unavailable host _ w H).
  reflexivity.
Qed.

Lemma hashed_or_not host hashFilenames name w :
  exists key,
    (if hashFilenames : bool then hashFileName host name else ret name) w = (Ok key, w).
Proof. destruct hashFilenames; eexists; reflexivity. Qed.

Theorem no_crypto_nothing_sent :
  forall host config file hashFilenames onProgress customName fileId origins w,
    crypto_available host = false ->
    getItem host (trace w) = Item config ->
    let run := uploadFileToR2 host file hashFilenames onProgress customName w in
    fst run = Throw crypto_error /\
    trace (snd run) =
      trace w ++ (if file_size file >? MULTIPART_THRESHOLD
                  then [EvSleep 1000; EvSleep 2000; EvSleep 4000] else []) /\
    deleteFileFromR2 host fileId w = (Throw crypto_error, w) /\
    putBucketCors host config origins w = (Throw crypto_error, w) /\
    getBucketCors host config w = (Throw crypto_error, w).
Proof.
  intros host config file hashFilenames onProgress customName fileId origins w Hc Hitem.
  cbv zeta. repeat split.
  - unfold uploadFileToR2, getR2Config.
    rewrite bind_run. cbn [get_trace bind]. rewrite Hitem. cbn [ret].
    destruct (hashed_or_not host hashFilenames
                (sanitizeFileName (nameToUse file customName)) w) as [key Hkey].
    rewrite bind_run, Hkey.
    destruct (file_size file >? MULTIPART_THRESHOLD).
    + unfold multipart_upload, retry_default.
      rewrite bind_run, bind_run,
        (retry_stuck _ crypto_error
           (fun w0 => initiate_unavailable host config key _ w0 Hc)).
      reflexivity.
    + unfold single_upload.
      rewrite bind_run, bind_run, getAmzDate_ok, bind_run,
        (sha256_unavailable host _ w Hc). reflexivity.
  - unfold uploadFileToR2, getR2Config.
    rewrite bind_run. cbn [get_trace bind]. rewrite Hitem. cbn [ret].
    destruct (hashed_or_not host hashFilenames
                (sanitizeFileName (nameToUse file customName)) w) as [key Hkey].
    rewrite bind_run, Hkey.
    destruct (file_size file >? MULTIPART_THRESHOLD).
    + unfold multipart_upload, retry_default.
      rewrite bind_run, bind_run,
        (retry_stuck _ crypto_error
           (fun w0 => initiate_unavailable host config key _ w0 Hc)).
      reflexivity.
    + unfold single_upload.
      rewrite bind_run, bind_run, getAmzDate_ok, bind_run,
        (sha256_unavailable host _ w Hc).
      cbn [snd]. now rewrite app_nil_r.
  - unfold deleteFileFromR2, getR2Config.
    rewrite bind_run. cbn [get_trace bind]. rewrite Hitem. cbn [ret].
    rewrite bind_run, getAmzDate_ok, bind_run, (sha256_unavailable host _ w Hc).
    reflexivity.
  - unfold putBucketCors.
    rewrite bind_run, getAmzDate_ok, bind_run, (sha256_unavailable host _ w Hc).
    reflexivity.
  - unfold getBucketCors.
    rewrite bind_run, getAmzDate_ok, bind_run, (sha256_unavailable host _ w Hc).
    reflexivity.
Qed.

(** With nothing stored under the configuration key, or with a store
    that cannot be read, an upload and a deletion both fail with their
    own message before anything is computed or sent; the unreadable
    store is logged once by [getR2Config]. *)
Theorem no_configuration_nothing_sent :
  forall host file hashFilenames onProgress customName fileId w,
    let upload := uploadFileToR2 host file hashFilenames onProgress customName w in
    let delete := deleteFileFromR2 host fileId w in
    let upload_error :=
      JsError "R2 configuration not found. Please configure your R2 settings." in
    let delete_error := JsError "R2 configuration not found." in
    match getItem host (trace w) with
    | NoItem =>
        upload = (Throw upload_error, w) /\ delete = (Throw delete_error, w)
    | Unreadable e =>
        let logged :=
          mkWorld (trace w ++ [EvLog "Error getting R2 config:" e]) (partProgresses w) in
        upload = (Throw upload_error, logged) /\ delete = (Throw delete_error, logged)
    | Item _ => True
    end.
Proof.
  intros host file hashFilenames onProgress customName fileId w. cbv zeta.
  unfold uploadFileToR2, deleteFileFromR2, getR2Config.
  rewrite !bind_run. cbn [get_trace].
  destruct (getItem host (trace w)); [split; reflexivity | exact I | split; reflexivity].
Qed.

(** ** The parts cover the file *)

Lemma chunks_cover {A} (p : nat) : forall k (l : list A),
  (0 < p)%nat -> (List.length l <= k * p)%nat ->
  List.concat (map (fun i => firstn p (skipn (i * p) l)) (seq 0 k)) = l.
Proof.
  induction k as [| k IH]; intros l Hp Hlen.
  - destruct l; [reflexivity | cbn in Hlen; lia].
  - cbn [seq map List.concat]. rewrite <- seq_shift, map_map.
    cbn [Nat.mul skipn].
    transitivity (firstn p l ++ skipn p l); [| apply firstn_skipn]. f_equal.
    transitivity
      (List.concat (map (fun i => firstn p (skipn (i * p) (skipn p l))) (seq 0 k))).
    + f_equal. apply map_ext. intros i.
      replace (S i * p)%nat with (p + i * p)%nat by lia.
      now rewrite skipn_skipn, Nat.add_comm.
    + apply IH; [exact Hp |]. rewrite length_skipn. cbn in Hlen. lia.
Qed.

Lemma part_chunk_firstn : forall file i,
  (i < Z.to_nat (totalParts_of (file_size file)))%nat ->
  part_chunk file (Z.of_nat i + 1) =
  firstn (Z.to_nat PART_SIZE) (skipn (i * Z.to_nat PART_SIZE) (file_content file)).
Proof.
  intros file i Hi.
  pose proof (totalParts_bounds (file_size file)) as [Hlow Hup].
  pose proof PART_SIZE_pos as Hp.
  unfold part_chunk, file_slice.
  replace (Z.of_nat i + 1 - 1) with (Z.of_nat i) by lia.
  assert (Hstart : Z.of_nat i * PART_SIZE < file_size file) by nia.
  unfold file_size in *.
  rewrite blob_slice_in_range by lia.
  replace (Z.to_nat (Z.of_nat i * PART_SIZE)) with (i * Z.to_nat PART_SIZE)%nat by lia.
  destruct (Z.min_spec (Z.of_nat i * PART_SIZE + PART_SIZE)
              (Z.of_nat (List.length (file_content file)))) as [[Hlt ->] | [Hge ->]].
  - f_equal. lia.
  - rewrite !firstn_all2; [reflexivity | |]; rewrite length_skipn; lia.
Qed.

(** The chunks of parts 1, 2, ..., N, put end to end, are the file: no
    byte is left out and none is sent in two parts. *)
Theorem parts_cover_file : forall file,
  List.concat
    (map (part_chunk file)
       (part_numbers (Z.to_nat (totalParts_of (file_size file))))) =
  file_content file.
Proof.
  intros file. unfold part_numbers. rewrite map_map.
  pose proof (totalParts_bounds (file_size file)) as [Hlow Hup].
  pose proof PART_SIZE_pos as Hp.
  transitivity
    (List.concat
       (map (fun i => firstn (Z.to_nat PART_SIZE)
                        (skipn (i * Z.to_nat PART_SIZE) (file_content file)))
          (seq 0 (Z.to_nat (totalParts_of (file_size file)))))).
  - f_equal. apply map_ext_in. intros i Hi. apply in_seq in Hi.
    apply part_chunk_firstn. lia.
  - apply chunks_cover; [lia |].
    unfold file_size in *. nia.
Qed.

(** ** Progress at the start and at the end *)

Lemma capacity_step : forall size idx k,
  0 <= idx -> idx + Z.of_nat (S k) <= totalParts_of size ->
  progress_part_size size (totalParts_of size) idx +
  capacity size (totalParts_of size) (idx + 1) k =
  capacity size (totalParts_of size) idx (S k).
Proof.
  intros size idx k Hidx Hlen.
  unfold capacity, progress_part_size.
  pose proof (totalParts_bounds size) as Hb.
  destruct k as [| k].
  - destruct (Z.eqb_spec idx (totalParts_of size - 1));
      destruct (Z.eqb_spec (idx + Z.of_nat 1) (totalParts_of size)); lia.
  - destruct (Z.eqb_spec idx (totalParts_of size - 1)); [lia |].
    destruct (Z.eqb_spec (idx + 1 + Z.of_nat (S k)) (totalParts_of size));
      destruct (Z.eqb_spec (idx + Z.of_nat (S (S k))) (totalParts_of size)); lia.
Qed.

Lemma reduce_uploaded_constant : forall size k idx (q : Q),
  0 <= idx -> idx + Z.of_nat k <= totalParts_of size ->
  (reduce_uploaded size (totalParts_of size) idx (repeat (Some q) k) 0 ==
   (q / 100) * inject_Z (capacity size (totalParts_of size) idx k))%Q.
Proof.
  intros size k. induction k as [| k IH]; intros idx q Hidx Hlen.
  - cbn. ring.
  - cbn [repeat reduce_uploaded].
    rewrite reduce_uploaded_acc, (IH (idx + 1) q) by lia.
    rewrite <- (capacity_step size idx k Hidx Hlen), inject_Z_plus. ring.
Qed.

Lemma capacity_whole : forall size,
  0 < size ->
  capacity size (totalParts_of size) 0 (Z.to_nat (totalParts_of size)) = size.
Proof.
  intros size Hsize. pose proof (totalParts_pos size Hsize) as Hparts.
  unfold capacity. destruct (Z.to_nat (totalParts_of size)) eqn:E; [lia |].
  rewrite <- E, Z2Nat.id by lia. cbn [Z.add]. rewrite Z.eqb_refl. lia.
Qed.

(** The shares of the parts add up to the file: while no part has
    reported anything the total is 0, when all the parts stand at one
    percentage the total is that percentage, and so exactly 100 once
    every part has reported 100. *)
Theorem progress_complete : forall size (q : Q),
  0 < size ->
  let parts := totalParts_of size in
  (totalProgress size parts (array_fill (Z.to_nat parts) q) == q)%Q /\
  (totalProgress size parts (array_fill (Z.to_nat parts) 100) == 100)%Q /\
  (totalProgress size parts (array_fill (Z.to_nat parts) 0) == 0)%Q.
Proof.
  intros size q Hsize parts.
  assert (Hall : forall p : Q,
            (totalProgress size parts (array_fill (Z.to_nat parts) p) == p)%Q).
  { intros p. unfold totalProgress, array_fill, parts.
    pose proof (totalParts_pos size Hsize) as Hparts.
    rewrite reduce_uploaded_constant by lia.
    rewrite capacity_whole by assumption.
    assert (~ (inject_Z size == 0)%Q).
    { change 0%Q with (inject_Z 0). rewrite inject_Z_injective. lia. }
    field. assumption. }
  repeat split; apply Hall.
Qed.

(** ** Timestamps *)

Lemma digit_not_separator : forall c,
  is_digit c = true ->
  Ascii.eqb c ":" = false /\ Ascii.eqb c "-" = false /\ Ascii.eqb c "." = false /\
  Ascii.eqb c "T" = false.
Proof.
  intros c H. unfold is_digit in H.
  apply andb_true_iff in H as [Hlo Hhi]. apply N.leb_le in Hlo, Hhi.
  repeat split; apply Ascii.eqb_neq; intros ->; cbn in *; lia.
Qed.

Lemma strip_amz_digits : forall d rest,
  all_digits d = true -> strip_amz 0 (d ++ rest) = (d ++ strip_amz 0 rest)%string.
Proof.
  induction d as [| c d IH]; intros rest H; [reflexivity |].
  cbn [all_digits] in H. apply andb_true_iff in H as [Hc Hd].
  destruct (digit_not_separator c Hc) as [H1 [H2 [H3 _]]].
  cbn [append strip_amz]. rewrite H1, H2, H3. cbn. now rewrite IH.
Qed.

Lemma strip_stamp_digits : forall d rest,
  all_digits d = true -> strip_stamp (d ++ rest) = (d ++ strip_stamp rest)%string.
Proof.
  induction d as [| c d IH]; intros rest H; [reflexivity |].
  cbn [all_digits] in H. apply andb_true_iff in H as [Hc Hd].
  destruct (digit_not_separator c Hc) as [H1 [H2 [H3 H4]]].
  cbn [append strip_stamp]. rewrite H1, H2, H3, H4. cbn. now rewrite IH.
Qed.

Lemma substr0_app : forall a b, substr0 (String.length a) (a ++ b) = a.
Proof.
  unfold substr0. induction a as [| c a IH]; intros b; cbn.
  - destruct b; reflexivity.
  - now rewrite IH.
Qed.

Section IsoTimestamp.

Variables year month day hour minute second fraction : string.
Hypothesis Hyear : digits_field 4 year.
Hypothesis Hmonth : digits_field 2 month.
Hypothesis Hday : digits_field 2 day.
Hypothesis Hhour : digits_field 2 hour.
Hypothesis Hminute : digits_field 2 minute.
Hypothesis Hsecond : digits_field 2 second.
Hypothesis Hfraction : digits_field 3 fraction.

Let iso := iso_timestamp year month day hour minute second fraction.

Lemma strip_amz_iso :
  strip_amz 0 iso =
  (year ++ month ++ day ++ "T" ++ hour ++ minute ++ second ++ "Z")%string.
Proof.
  destruct Hyear as [_ Dy], Hmonth as [_ Dmo], Hday as [_ Dd], Hhour as [_ Dh],
    Hminute as [_ Dmi], Hsecond as [_ Ds], Hfraction as [Lf Df].
  unfold iso, iso_timestamp.
  rewrite (strip_amz_digits year) by assumption. cbn [append strip_amz Ascii.eqb Bool.eqb orb andb].
  rewrite (strip_amz_digits month) by assumption. cbn [append strip_amz Ascii.eqb Bool.eqb orb andb].
  rewrite (strip_amz_digits day) by assumption. cbn [append strip_amz Ascii.eqb Bool.eqb orb andb].
  rewrite (strip_amz_digits hour) by assumption. cbn [append strip_amz Ascii.eqb Bool.eqb orb andb].
  rewrite (strip_amz_digits minute) by assumption. cbn [append strip_amz Ascii.eqb Bool.eqb orb andb].
  rewrite (strip_amz_digits second) by assumption. cbn [append strip_amz Ascii.eqb Bool.eqb orb andb].
  destruct fraction as [| a [| b [| c [| x r]]]]; try discriminate.
  cbn [all_digits] in Df.
  apply andb_true_iff in Df as [Da Df]. apply andb_true_iff in Df as [Db Df].
  apply andb_true_iff in Df as [Dc _].
  cbn [append three_digits]. rewrite Da, Db, Dc. reflexivity.
Qed.

Lemma strip_stamp_iso :
  strip_stamp iso =
  (year ++ month ++ day ++ hour ++ minute ++ second ++ fraction ++ "Z")%string.
Proof.
  destruct Hyear as [_ Dy], Hmonth as [_ Dmo], Hday as [_ Dd], Hhour as [_ Dh],
    Hminute as [_ Dmi], Hsecond as [_ Ds], Hfraction as [Lf Df].
  unfold iso, iso_timestamp.
  rewrite (strip_stamp_digits year) by assumption. cbn [append strip_stamp Ascii.eqb Bool.eqb orb].
  rewrite (strip_stamp_digits month) by assumption. cbn [append strip_stamp Ascii.eqb Bool.eqb orb].
  rewrite (strip_stamp_digits day) by assumption. cbn [append strip_stamp Ascii.eqb Bool.eqb orb].
  rewrite (strip_stamp_digits hour) by assumption. cbn [append strip_stamp Ascii.eqb Bool.eqb orb].
  rewrite (strip_stamp_digits minute) by assumption. cbn [append strip_stamp Ascii.eqb Bool.eqb orb].
  rewrite (strip_stamp_digits second) by assumption. cbn [append strip_stamp Ascii.eqb Bool.eqb orb].
  rewrite (strip_stamp_digits fraction) by assumption. reflexivity.
Qed.

Lemma date_stamp_iso : substr0 8 (strip_amz 0 iso) = (year ++ month ++ day)%string.
Proof.
  rewrite strip_amz_iso.
  destruct Hyear as [Ly _], Hmonth as [Lmo _], Hday as [Ld _].
  replace 8%nat with (String.length (year ++ month ++ day)%string)
    by (rewrite !string_length_app, Ly, Lmo, Ld; reflexivity).
  rewrite <- (substr0_app (year ++ month ++ day) ("T" ++ hour ++ minute ++ second ++ "Z")) at 2.
  now rewrite !string_app_assoc.
Qed.

Lemma key_stamp_iso :
  substr0 14 (strip_stamp iso) =
  (year ++ month ++ day ++ hour ++ minute ++ second)%string.
Proof.
  rewrite strip_stamp_iso.
  destruct Hyear as [Ly _], Hmonth as [Lmo _], Hday as [Ld _], Hhour as [Lh _],
    Hminute as [Lmi _], Hsecond as [Ls _].
  replace 14%nat
    with (String.length (year ++ month ++ day ++ hour ++ minute ++ second)%string)
    by (rewrite !string_length_app, Ly, Lmo, Ld, Lh, Lmi, Ls; reflexivity).
  rewrite <- (substr0_app (year ++ month ++ day ++ hour ++ minute ++ second)
                (fraction ++ "Z")) at 2.
  now rewrite !string_app_assoc.
Qed.

End IsoTimestamp.

(** The date of a request, from the clock's ISO text
    [YYYY-MM-DDTHH:mm:ss.sssZ]: the separators and the milliseconds go,
    the [T] and the [Z] stay, so the date is the 16 characters
    [YYYYMMDDTHHmmssZ] and the date stamp cut from it (its first eight
    characters) is [YYYYMMDD]. *)
Theorem getAmzDate_format :
  forall host w year month day hour minute second fraction,
    digits_field 4 year -> digits_field 2 month -> digits_field 2 day ->
    digits_field 2 hour -> digits_field 2 minute -> digits_field 2 second ->
    digits_field 3 fraction ->
    toISOString host (trace w) =
      iso_timestamp year month day hour minute second fraction ->
    let amzDate :=
      (year ++ month ++ day ++ "T" ++ hour ++ minute ++ second ++ "Z")%string in
    getAmzDate host w = (Ok amzDate, w) /\
    String.length amzDate = 16%nat /\
    substr0 8 amzDate = (year ++ month ++ day)%string.
Proof.
  intros host w year month day hour minute second fraction
    Hy Hmo Hd Hh Hmi Hs Hf Hclock amzDate.
  rewrite getAmzDate_ok, Hclock.
  pose proof (strip_amz_iso _ _ _ _ _ _ _ Hy Hmo Hd Hh Hmi Hs Hf) as Hstrip.
  pose proof (date_stamp_iso _ _ _ _ _ _ _ Hy Hmo Hd Hh Hmi Hs Hf) as Hstamp.
  rewrite Hstrip in Hstamp |- *. repeat split; [| exact Hstamp].
  destruct Hy as [Ly _], Hmo as [Lmo _], Hd as [Ld _], Hh as [Lh _],
    Hmi as [Lmi _], Hs as [Ls _].
  unfold amzDate. rewrite !string_length_app, Ly, Lmo, Ld, Lh, Lmi, Ls. reflexivity.
Qed.

(** ** Hashed keys *)

Lemma extension_of_no_dot : forall s,
  includes_char "." s = false -> extension_of s = EmptyString.
Proof.
  induction s as [| c s IH]; intros H; [reflexivity |].
  cbn [includes_char] in H. apply orb_false_iff in H as [Hc Hs].
  cbn [extension_of]. now rewrite (IH Hs), Hc.
Qed.

Lemma extension_of_last_dot : forall a b,
  includes_char "." b = false ->
  extension_of (a ++ String "." b) = String "." b.
Proof.
  induction a as [| c a IH]; intros b Hb.
  - cbn [append extension_of]. now rewrite (extension_of_no_dot b Hb).
  - cbn [append extension_of]. now rewrite (IH b Hb).
Qed.

Lemma uploadFileToR2_hashed_key :
  forall host file onProgress customName w key url w',
    uploadFileToR2 host file true onProgress customName w = (Ok (key, url), w') ->
    key =
    (substr0 14 (strip_stamp (toISOString host (trace w))) ++ "-" ++
     String.substring 2 6 (random36 host (trace w)) ++
     extension_of (sanitizeFileName (nameToUse file customName)))%string.
Proof.
  intros host file onProgress customName w key url w' H.
  unfold uploadFileToR2 in H. rewrite bind_run in H.
  unfold getR2Config in H. rewrite bind_run in H. cbn [get_trace] in H.
  destruct (getItem host (trace w)) as [| config | e]; try discriminate.
  cbn [ret] in H. rewrite bind_run in H.
  unfold hashFileName in H. rewrite bind_run in H. cbn [get_trace ret] in H.
  rewrite bind_run in H.
  match type of H with
  | context [if ?c then ?a else ?b] => destruct ((if c then a else b) w) as [[[] | e] w2]
  end; try discriminate.
  rewrite bind_run in H.
  destruct (generatePresignedUrl host _ config (Some 600) w2) as [[u | e] w3];
    try discriminate.
  cbn [ret] in H. now inversion H.
Qed.

(** With name hashing on, the key a successful upload returns is the
    clock's [YYYYMMDDHHmmss], a hyphen, six characters of the random
    text (its characters 2 to 7) and the extension of the sanitized
    name: that name from its last dot on, or nothing when it has no dot.
    Nothing else of the name is kept. *)
Theorem hashed_key_format :
  forall host file onProgress customName w key url w'
         year month day hour minute second fraction,
    digits_field 4 year -> digits_field 2 month -> digits_field 2 day ->
    digits_field 2 hour -> digits_field 2 minute -> digits_field 2 second ->
    digits_field 3 fraction ->
    toISOString host (trace w) =
      iso_timestamp year month day hour minute second fraction ->
    uploadFileToR2 host file true onProgress customName w = (Ok (key, url), w') ->
    let name := sanitizeFileName (nameToUse file customName) in
    let stamp := (year ++ month ++ day ++ hour ++ minute ++ second)%string in
    let random := String.substring 2 6 (random36 host (trace w)) in
    (includes_char "." name = false -> key = (stamp ++ "-" ++ random)%string) /\
    (forall stem ext,
       name = (stem ++ String "." ext)%string -> includes_char "." ext = false ->
       key = (stamp ++ "-" ++ random ++ String "." ext)%string).
Proof.
  intros host file onProgress customName w key url w'
    year month day hour minute second fraction
    Hy Hmo Hd Hh Hmi Hs Hf Hclock Hrun name stamp random.
  apply uploadFileToR2_hashed_key in Hrun.
  rewrite Hclock, (key_stamp_iso _ _ _ _ _ _ _ Hy Hmo Hd Hh Hmi Hs Hf) in Hrun.
  fold name in Hrun. fold random in Hrun.
  split.
  - intros Hno. rewrite Hrun, (extension_of_no_dot name Hno).
    unfold stamp. now rewrite !string_app_assoc, string_app_nil_r.
  - intros stem ext Hname Hext. rewrite Hrun, Hname, (extension_of_last_dot stem ext Hext).
    unfold stamp. now rewrite !string_app_assoc.
Qed.

(** ** No doubled dot or hyphen in a key *)

Section Doubles.

Variable D : N -> bool.










End Doubles.

Section Collapse.

(** Runs of the class [C] are collapsed to the one character [c] of
    that class. *)
Variable C : N -> bool.
Variable c : N.
Hypothesis c_in_class : C c = true.




(** Another class [D], apart from [C], gains no doubled neighbours. *)
Variable D : N -> bool.
Hypothesis apart : forall x, C x = true -> D x = false.


End Collapse.


Section EncodedMark.

(** [mark] is the dot or the hyphen, [k] its code. *)
Variable mark : ascii.
Let k := N_of_ascii mark.
Hypothesis mark_class : is_dot_or_hyphen k = true.













End EncodedMark.


(** ** Signatures and the order of headers and query parameters *)

(** Listing the same headers, or the same query parameters, in another
    order gives the same signature (names are unique in an object). *)
Theorem createAwsSignature_permutation :
  forall host method path headers headers' config payload query query' w,
    NoDup (map fst headers) -> Permutation headers headers' ->
    NoDup (map fst query) -> Permutation query query' ->
    createAwsSignature host method path headers config payload query w =
    createAwsSignature host method path headers' config payload query' w.
Proof.
  intros host method path headers headers' config payload query query' w
    Hnd Hperm Hndq Hpermq.
  rewrite (createAwsSignature_order_invariant host method path headers headers'
             config payload query w Hnd Hperm).
  assert (Hquery : canonicalQueryString query = canonicalQueryString query').
  { unfold canonicalQueryString, map_join, object_keys.
    rewrite (sort_strings_Permutation (map fst query) (map fst query'))
      by now apply Permutation_map.
    f_equal. apply map_ext. intros key. unfold header_value.
    now rewrite (lookup_Permutation _ _ Hpermq Hndq key). }
  unfold createAwsSignature, canonicalRequest. now rewrite Hquery.
Qed.

(** ** Every request is addressed, dated, hashed and signed *)

Lemma sha256_post host data w a w' :
  sha256 host data w = (Ok a, w') ->
  a = hex_of_bytes (digest host (payload_bytes data)).
Proof.
  unfold sha256. destruct (crypto_available host); cbn; intros H; now inversion H.
Qed.

Lemma createAwsSignature_post host method path headers config payload query w a w' :
  createAwsSignature host method path headers config payload query w = (Ok a, w') ->
  exists rest,
    a = ("AWS4-HMAC-SHA256 Credential=" ++ accessKeyId config ++ "/" ++ rest)%string.
Proof.
  unfold createAwsSignature, getSignatureKey, hmacSha256, hmacSha256Buffer, sha256.
  destruct (crypto_available host); [| discriminate].
  destruct (lookup "X-Amz-Date" headers) as [date |]; [| discriminate].
  cbn. intros H. inversion H. eexists.
  repeat (rewrite ?string_app_assoc; cbn [append]). reflexivity.
Qed.

Lemma prefix_app : forall a b, String.prefix a (a ++ b) = true.
Proof.
  induction a as [| x a IH]; intros b; cbn; [now destruct b |].
  destruct (ascii_dec x x); [apply IH | contradiction].
Qed.

Section Signed.

Variables (host : Host) (config : R2Config).

Let P := on_requests (signed_request host config).

Lemma signed_passes : forall ev, is_request ev = false -> P ev.
Proof. intros [] H; try discriminate; exact I. Qed.

Lemma bucket_prefix : forall rest,
  String.prefix (r2_endpoint config ++ "/" ++ bucketName config)
    (r2_endpoint config ++ "/" ++ bucketName config ++ rest) = true.
Proof.
  intros rest.
  replace (r2_endpoint config ++ "/" ++ bucketName config ++ rest)%string
    with ((r2_endpoint config ++ "/" ++ bucketName config) ++ rest)%string
    by now rewrite !string_app_assoc.
  apply prefix_app.
Qed.

Ltac signing :=
  apply emits_bind; [apply emits_getAmzDate | intros amzDate];
  eapply (emits_bind_post P
            (fun a => a = hex_of_bytes (digest host (payload_bytes _))));
    [ intros ? ? ? Hrun; exact (sha256_post host _ _ _ _ Hrun)
    | apply emits_sha256
    | intros hash Hhash; cbv beta in Hhash; subst hash ];
  eapply (emits_bind_post P
            (fun a => exists rest,
               a = ("AWS4-HMAC-SHA256 Credential=" ++ accessKeyId config ++ "/" ++
                    rest)%string));
    [ intros ? ? ? Hrun; exact (createAwsSignature_post host _ _ _ _ _ _ _ _ _ Hrun)
    | apply emits_createAwsSignature
    | intros auth Hauth; cbv beta in Hauth; destruct Hauth as [rest Hauth];
      subst auth ].

Ltac signed_shape :=
  unfold P, on_requests, signed_request, object_path;
  cbn [req_method req_url req_body req_headers body_bytes payload_bytes];
  split; [rewrite ?string_app_assoc; apply bucket_prefix |];
  split; [reflexivity |];
  split; [eexists; reflexivity |];
  split; [reflexivity | eexists; reflexivity].

Lemma signed_initiate key contentType :
  emits_only P (initiateMultipartUpload host config key contentType).
Proof.
  unfold initiateMultipartUpload. signing.
  apply emits_bind.
  - apply emits_fetch. signed_shape.
  - intros r. destruct (negb (response_ok r)); [apply emits_throw |].
    destruct (truthy _); [apply emits_ret | apply emits_throw].
Qed.

Lemma signed_uploadPart key uploadId partNumber body callback :
  (forall q, emits_only P (callback q)) ->
  emits_only P (uploadPart host config key uploadId partNumber body (Some callback)).
Proof.
  intros Hcallback. unfold uploadPart. signing.
  apply emits_xhr_put.
  - signed_shape.
  - intros c q [= <-]. apply Hcallback.
  - intros r. destruct (_ && _); [| apply emits_throw].
    destruct (truthy _); [apply emits_ret | apply emits_throw].
  - apply emits_throw.
Qed.

Lemma signed_complete key uploadId parts :
  emits_only P (completeMultipartUpload host config key uploadId parts).
Proof.
  unfold completeMultipartUpload. signing.
  apply emits_bind.
  - apply emits_fetch. signed_shape.
  - intros r. destruct (negb (response_ok r)); [apply emits_throw | apply emits_ret].
Qed.

Lemma signed_abort key uploadId :
  emits_only P (abortMultipartUpload host config key uploadId).
Proof.
  unfold abortMultipartUpload. signing.
  apply emits_bind; [| intros; apply emits_ret].
  apply emits_fetch. unfold abortRequest. signed_shape.
Qed.

Lemma signed_multipart_upload key file onProgress :
  emits_only P (multipart_upload host config key file onProgress).
Proof.
  unfold multipart_upload.
  apply emits_bind.
  - apply emits_retry; [intros ms; exact I | apply signed_initiate].
  - intros uploadId.
    apply emits_bind; [apply emits_reset_progress | intros _].
    apply emits_try_catch.
    + unfold multipart_body. apply emits_bind.
      * apply asyncPool_emits. intros item i _. unfold upload_one_part.
        apply emits_bind; [| intros; apply emits_ret].
        apply emits_retry; [intros ms; exact I |].
        apply signed_uploadPart. intros q.
        apply emits_on_part_progress. intros p. exact I.
      * intros parts. apply emits_retry; [intros ms; exact I | apply signed_complete].
    + intros e. unfold multipart_abort.
      apply emits_bind; [apply emits_console_error; exact I | intros _].
      apply emits_bind; [| intros; apply emits_throw].
      apply emits_retry; [intros ms; exact I | apply signed_abort].
Qed.

Lemma signed_single_upload key file onProgress :
  emits_only P (single_upload host config key file onProgress).
Proof.
  unfold single_upload. signing.
  apply emits_retry; [intros ms; exact I |].
  unfold uploadSmallFile. apply emits_xhr_put.
  - signed_shape.
  - intros c q Hc. destruct onProgress; [| discriminate].
    injection Hc as <-. apply emits_emit. exact I.
  - intros r. destruct (_ && _); [apply emits_ret | apply emits_throw].
  - apply emits_throw.
Qed.

Lemma signed_getBucketCors : emits_only P (getBucketCors host config).
Proof.
  unfold getBucketCors. signing.
  apply emits_try_catch.
  - apply emits_bind.
    + apply emits_fetch. signed_shape.
    + intros r. destruct (status r =? 404); [apply emits_ret |].
      destruct (negb (response_ok r)); [apply emits_throw | apply emits_ret].
  - intros e. apply emits_bind; [apply emits_console_error; exact I | intros _].
    apply emits_ret.
Qed.

Lemma signed_putBucketCors origins : emits_only P (putBucketCors host config origins).
Proof.
  unfold putBucketCors. signing.
  apply emits_bind.
  - apply emits_fetch. signed_shape.
  - intros r. destruct (negb (response_ok r)); [apply emits_throw | apply emits_ret].
Qed.

End Signed.

(** Whatever the store answers, every request the service sends goes to
    the configured bucket on the account's endpoint, names that host,
    carries a date, announces in [X-Amz-Content-Sha256] the digest of
    exactly the body it carries (of the empty text when it has none),
    and is authorized with the configured access key.  This holds for
    the CORS setter and probe, for uploads on both paths (initiation,
    parts, completion and abort included) and for deletions. *)
Theorem every_request_signed : forall host config,
  let sent := on_requests (signed_request host config) in
  (forall origins, emits_only sent (putBucketCors host config origins)) /\
  emits_only sent (getBucketCors host config) /\
  (forall file hashFilenames onProgress customName fileId w,
     getItem host (trace w) = Item config ->
     (exists evs,
        trace (snd (uploadFileToR2 host file hashFilenames onProgress customName w)) =
          trace w ++ evs /\ Forall sent evs) /\
     (exists evs,
        trace (snd (deleteFileFromR2 host fileId w)) = trace w ++ evs /\
        Forall sent evs)).
Proof.
  intros host config sent.
  split; [intros origins; apply signed_putBucketCors |].
  split; [apply signed_getBucketCors |].
  intros file hashFilenames onProgress customName fileId w Hitem. split.
  - unfold uploadFileToR2, getR2Config.
    rewrite bind_run. cbn [get_trace bind]. rewrite Hitem. cbn [ret].
    match goal with
    | |- context [snd (?m w)] => assert (Hm : emits_only sent m)
    end.
    { apply emits_bind.
      - destruct hashFilenames; [apply emits_hashFileName | apply emits_ret].
      - intros key. apply emits_bind.
        + destruct (file_size file >? MULTIPART_THRESHOLD);
            [apply signed_multipart_upload | apply signed_single_upload].
        + intros _. apply emits_bind; [apply emits_generatePresignedUrl | intros url].
          apply emits_ret. }
    apply Hm.
  - unfold deleteFileFromR2, getR2Config.
    rewrite bind_run. cbn [get_trace bind]. rewrite Hitem. cbn [ret].
    match goal with
    | |- context [snd (?m w)] => assert (Hm : emits_only sent m)
    end.
    { apply emits_bind; [apply emits_getAmzDate | intros amzDate].
      eapply (emits_bind_post sent
                (fun a => a = hex_of_bytes (digest host (payload_bytes _)))).
      - intros ? ? ? Hrun. exact (sha256_post host _ _ _ _ Hrun).
      - apply emits_sha256.
      - intros hash Hhash. cbv beta in Hhash. subst hash.
        eapply (emits_bind_post sent
                  (fun a => exists rest,
                     a = ("AWS4-HMAC-SHA256 Credential=" ++ accessKeyId config ++ "/" ++
                          rest)%string)).
        + intros ? ? ? Hrun.
          exact (createAwsSignature_post host _ _ _ _ _ _ _ _ _ Hrun).
        + apply emits_createAwsSignature.
        + intros auth Hauth. cbv beta in Hauth. destruct Hauth as [rest Hauth].
          subst auth. apply emits_bind.
          * apply emits_fetch.
            unfold sent, on_requests, signed_request.
            cbn [req_method req_url req_body req_headers body_bytes payload_bytes].
            split; [rewrite ?string_app_assoc; apply bucket_prefix |].
            split; [reflexivity |].
            split; [eexists; reflexivity |].
            split; [reflexivity | eexists; reflexivity].
          * intros r. destruct (_ && _); [apply emits_throw | apply emits_ret]. }
    apply Hm.
Qed.

(** ** An upload the store keeps rejecting *)

(** An operation that fails every time with the same error, sending one
    request per run and adding no wait of its own, is run to the end of
    the schedule. *)
Lemma retry_always_failing {A} (fn : M A) (e : Error) :
  (forall w0, exists w1 evs,
      fn w0 = (Throw e, w1) /\ trace w1 = trace w0 ++ evs /\
      sleeps_of evs = [] /\ count_events is_request evs = 1%nat) ->
  forall retries delay backoff w,
  exists w1 evs,
    retry fn retries delay backoff w = (Throw e, w1) /\
    trace w1 = trace w ++ evs /\
    sleeps_of evs = backoff_waits retries delay backoff /\
    count_events is_request evs = S retries.
Proof.
  intros Hfn. induction retries as [| n IH]; intros d b w; rewrite retry_run;
    destruct (Hfn w) as [w1 [evs [Hrun [Htr [Hsl Hreq]]]]]; rewrite Hrun.
  - exists w1, evs. now repeat split.
  - destruct (IH (d * b) b (mkWorld (trace w1 ++ [EvSleep d]) (partProgresses w1)))
      as [w2 [evs' [Hrun' [Htr' [Hsl' Hreq']]]]].
    exists w2, (evs ++ EvSleep d :: evs'). repeat split.
    + exact Hrun'.
    + rewrite Htr'. cbn [trace]. rewrite Htr, <- !app_assoc. reflexivity.
    + rewrite sleeps_of_app, Hsl, backoff_waits_succ. cbn. now rewrite Hsl'.
    + rewrite count_events_app, Hreq.
      change (EvSleep d :: evs') with ([EvSleep d] ++ evs').
      rewrite count_events_app, Hreq'. reflexivity.
Qed.

Lemma sleeps_of_progress : forall ps, sleeps_of (map EvProgress ps) = [].
Proof. induction ps as [| p ps IH]; [reflexivity | exact IH]. Qed.

Lemma uploadSmallFile_rejected host url headers body onProgress r :
  (forall tr req, respond host tr req = Responded r) ->
  status r < 200 \/ 300 <= status r ->
  forall w0, exists w1 evs,
    uploadSmallFile host url headers body
      (if onProgress : bool then Some (fun p => emit (EvProgress p)) else None) w0 =
    (Throw (JsError ("Upload failed: " ++ number_to_string (status r) ++ " " ++
                     statusText r)), w1) /\
    trace w1 = trace w0 ++ evs /\
    sleeps_of evs = [] /\ count_events is_request evs = 1%nat.
Proof.
  intros Hrespond Hstatus w0.
  assert (Hbad : (status r >=? 200) && (status r <? 300) = false).
  { apply andb_false_iff. destruct Hstatus; [left | right]; lia. }
  unfold uploadSmallFile, xhr_put.
  rewrite bind_run. cbn [get_trace]. rewrite bind_run. cbn [emit].
  rewrite Hrespond.
  destruct onProgress.
  - rewrite bind_run.
    match goal with
    | |- context [dispatch_progress ?evs ?f ?w] =>
        destruct (dispatch_progress_reports evs w) as [ps Hps]
    end.
    rewrite Hps, Hbad. cbn [trace partProgresses].
    eexists _, (EvRequest _ :: map EvProgress ps). split; [reflexivity |].
    cbn [trace]. rewrite <- app_assoc. split; [reflexivity |].
    split.
    + cbn [sleeps_of]. apply sleeps_of_progress.
    + unfold count_events. cbn [filter is_request List.length]. f_equal.
      now apply count_progress_events.
  - rewrite bind_run. cbn [ret]. rewrite Hbad.
    eexists _, [EvRequest _]. repeat split.
Qed.

(** A file of at most 100 MB that the store answers with the same
    non-2xx status every time: the PUT is sent four times, with waits of
    1000, 2000 and 4000 ms in between, and the upload then fails with
    [Upload failed: <status> <statusText>] of the store's answer. *)
Theorem rejected_upload_is_retried :
  forall host config file hashFilenames onProgress customName w r,
    crypto_available host = true ->
    getItem host (trace w) = Item config ->
    file_size file <= MULTIPART_THRESHOLD ->
    (forall tr req, respond host tr req = Responded r) ->
    status r < 200 \/ 300 <= status r ->
    let run := uploadFileToR2 host file hashFilenames onProgress customName w in
    fst run =
      Throw (JsError ("Upload failed: " ++ number_to_string (status r) ++ " " ++
                      statusText r)) /\
    exists evs,
      trace (snd run) = trace w ++ evs /\
      count_events is_request evs = 4%nat /\
      sleeps_of evs = [1000; 2000; 4000].
Proof.
  intros host config file hashFilenames onProgress customName w r
    Hc Hitem Hsize Hrespond Hstatus run. subst run.
  unfold uploadFileToR2, getR2Config.
  rewrite bind_run. cbn [get_trace bind]. rewrite Hitem. cbn [ret].
  destruct (hashed_or_not host hashFilenames
              (sanitizeFileName (nameToUse file customName)) w) as [key Hkey].
  rewrite bind_run, Hkey.
  replace (file_size file >? MULTIPART_THRESHOLD) with false
    by (symmetry; rewrite Z.gtb_ltb; apply Z.ltb_ge; exact Hsize).
  unfold single_upload.
  rewrite bind_run, bind_run, getAmzDate_ok, bind_run, (sha256_ok host _ w Hc).
  match goal with
  | |- context [createAwsSignature host ?m ?p ?h ?c ?pl ?q] =>
      destruct (createAwsSignature_ok host m p h c pl q _ Hc eq_refl)
        as [signature Hsig]
  end.
  rewrite bind_run, Hsig. unfold retry_default.
  match goal with
  | |- context [retry (uploadSmallFile host ?url ?headers ?body _) _ _ _ w] =>
      destruct (retry_always_failing _ _
                  (uploadSmallFile_rejected host url headers body onProgress r
                     Hrespond Hstatus) 3 1000 2 w)
        as [w1 [evs [Hrun [Htr [Hsl Hreq]]]]]
  end.
  rewrite Hrun. cbn [fst snd]. split; [reflexivity |].
  exists evs. repeat split; assumption.
Qed.

(** ** The steps of a multipart upload, one at a time *)

(** Opening a multipart upload: one POST to the object's URL with
    [?uploads] and no body, carrying the content type.  The upload id is
    the text of the first [UploadId] element of a 2xx answer; a 2xx
    answer without one, or with an empty one, is a failure, and so is
    any other status (reported with its status text only) and an
    unanswered request. *)
Theorem initiateMultipartUpload_outcome : forall host config key contentType w,
  crypto_available host = true ->
  exists req,
    req_method req = "POST"%string /\
    req_url req =
      (r2_endpoint config ++ "/" ++ bucketName config ++ "/" ++ key ++ "?uploads")%string /\
    req_body req = None /\
    lookup "Content-Type" (req_headers req) = Some contentType /\
    initiateMultipartUpload host config key contentType w =
    (match respond host (trace w) req with
     | NetworkFailure e => Throw e
     | Responded r =>
         if (200 <=? status r) && (status r <=? 299) then
           match parseUploadId host (responseText r) with
           | Some (String c id) => Ok (String c id)
           | _ => Throw (JsError "Failed to get UploadId from response")
           end
         else Throw (JsError ("Failed to initiate multipart upload: " ++ statusText r))
     end,
     mkWorld (trace w ++ [EvRequest req]) (partProgresses w)).
Proof.
  intros host config key contentType w Hc.
  unfold initiateMultipartUpload.
  rewrite bind_run, getAmzDate_ok, bind_run, (sha256_ok host _ w Hc).
  match goal with
  | |- context [createAwsSignature host ?m ?p ?h ?c ?pl ?q] =>
      destruct (createAwsSignature_ok host m p h c pl q _ Hc eq_refl)
        as [signature Hsig]
  end.
  rewrite bind_run, Hsig. rewrite bind_run. unfold fetch.
  rewrite bind_run. cbn [get_trace]. rewrite bind_run. cbn [emit].
  match goal with
  | |- context [EvRequest ?req] => exists req
  end.
  split; [reflexivity |].
  split; [unfold object_path; cbn [req_url]; now rewrite !string_app_assoc |].
  split; [reflexivity |]. split; [reflexivity |].
  destruct (respond host (trace w) _) as [e | r]; [reflexivity |].
  cbn [ret]. unfold response_ok.
  destruct ((200 <=? status r) && (status r <=? 299)); [| reflexivity].
  cbn [negb]. destruct (parseUploadId host (responseText r)) as [[| c id] |]; reflexivity.
Qed.



(** ** A pool whose tasks all succeed *)

Section PoolRuns.

Variable host : Host.
Context {T : Type}.
Variables (concurrency count : nat) (task : nat -> M T).

(** Every task succeeds, and one run of a task takes the world one
    step along [Step]: a relation that counts the runs. *)
Variable Step : nat -> World -> World -> Prop.
Hypothesis Step_none : forall w, Step 0 w w.
Hypothesis Step_add : forall a b w1 w2 w3,
  Step a w1 w2 -> Step b w2 w3 -> Step (a + b) w1 w3.
Hypothesis task_ok : forall i w,
  (i < count)%nat -> exists r w', task i w = (Ok r, w') /\ Step 1 w w'.

(** Then the pool runs every task that is in flight or still to start,
    once each, and succeeds. *)
Lemma pool_steps_all_ok : forall fuel next executing results w,
  (count - next + List.length executing <= fuel)%nat ->
  (next <= count)%nat ->
  (forall i, In i executing -> (i < next)%nat) ->
  exists rs w',
    pool_steps host fuel concurrency count task next executing results w = (Ok rs, w') /\
    Step (count - next + List.length executing) w w'.
Proof.
  induction fuel as [| fuel IH]; intros next executing results w Hfuel Hnext Hex.
  - exists results, w. cbn [pool_steps ret].
    assert (E : (count - next + List.length executing = 0)%nat) by lia.
    rewrite E. split; [reflexivity | apply Step_none].
  - cbn [pool_steps].
    set (admitted := Nat.min (Nat.max 1 concurrency - List.length executing)
                             (count - next)).
    set (results' := fold_left _ _ results).
    remember (executing ++ seq next admitted) as executing' eqn:Edef.
    assert (Hex' : forall i, In i executing' -> (i < next + admitted)%nat).
    { intros i Hi. subst executing'. apply in_app_or in Hi. destruct Hi as [Hi | Hi].
      - specialize (Hex i Hi). lia.
      - apply in_seq in Hi. lia. }
    assert (Hcount : List.length executing' = (List.length executing + admitted)%nat)
      by (subst executing'; now rewrite length_app, length_seq).
    rewrite length_seq.
    destruct executing' as [| x rest] eqn:Eexec.
    + exists results', w. cbn [List.length] in Hcount.
      assert (E : (count - next + List.length executing = 0)%nat) by lia.
      rewrite E. split; [reflexivity | apply Step_none].
    + rewrite <- Eexec in *.
      assert (Hpos : (0 < List.length executing')%nat) by (rewrite Eexec; cbn; lia).
      rewrite bind_run. cbn [get_trace].
      set (k := (settles_next host (trace w) (List.length executing')
                 mod List.length executing')%nat).
      assert (Hk : (k < List.length executing')%nat)
        by (apply Nat.mod_upper_bound; lia).
      set (index := nth k executing' 0%nat).
      assert (Hindex : In index executing') by (apply nth_In; assumption).
      pose proof (Hex' index Hindex) as Hin.
      destruct (task_ok index w ltac:(lia)) as [r [w1 [Hrun Hstep]]].
      rewrite bind_run, Hrun.
      pose proof (splice_one_length k executing' Hk) as Hsplice.
      destruct (IH (next + admitted)%nat (splice_one k executing')
                  (array_set index (Some r) results') w1)
        as [rs [w2 [Hrun' Hstep']]].
      * lia.
      * lia.
      * intros i Hi. apply Hex'. now apply splice_one_In in Hi.
      * exists rs, w2. split; [exact Hrun' |].
        replace (count - next + List.length executing)%nat
          with (1 + (count - (next + admitted) +
                     List.length (splice_one k executing')))%nat by lia.
        exact (Step_add _ _ _ _ _ Hstep Hstep').
Qed.

End PoolRuns.

Lemma Forall2_seq_nth {T} (R : nat -> T -> Prop) : forall n start rs,
  Forall2 R (seq start n) rs ->
  List.length rs = n /\
  forall i, (i < n)%nat -> exists r, nth_error rs i = Some r /\ R (start + i)%nat r.
Proof.
  induction n as [| n IH]; intros start rs H; cbn [seq] in H; inversion H; subst.
  - split; [reflexivity | intros i Hi; lia].
  - destruct (IH (S start) l' H4) as [Hlen Hall]. split; [cbn; now rewrite Hlen |].
    intros [| i] Hi.
    + eexists. split; [reflexivity |]. now rewrite Nat.add_0_r.
    + destruct (Hall i ltac:(lia)) as [r [E Hr]]. exists r. split; [exact E |].
      now rewrite Nat.add_succ_r.
Qed.

(** The pool, whatever its width (a width of 0 behaves as 1) and
    whatever the order in which the host lets the tasks settle: when
    every call of [fn] succeeds with the value [f item index], the pool
    succeeds with one result per item, the result at each index being
    the value for the item at that index. *)
Theorem asyncPool_in_item_order :
  forall (X T : Type) (host : Host) (concurrency : nat) (items : list X)
         (fn : X -> nat -> M T) (f : X -> nat -> T),
    (forall item i w, nth_error items i = Some item ->
       exists w', fn item i w = (Ok (f item i), w')) ->
    forall w, exists rs w',
      asyncPool host concurrency items fn w = (Ok rs, w') /\
      List.length rs = List.length items /\
      forall i item, nth_error items i = Some item -> nth_error rs i = Some (f item i).
Proof.
  intros X T host concurrency items fn f Hfn w.
  set (task := fun index =>
         match nth_error items index with
         | Some item => fn item index
         | None => throw (JsError "no such item")
         end).
  destruct (pool_steps_all_ok host concurrency (List.length items) task
              (fun _ _ _ => True) (fun _ => I) (fun _ _ _ _ _ _ _ => I))
    with (fuel := List.length items) (next := 0%nat) (executing := @nil nat)
         (results := @nil (option T)) (w := w)
    as [slots [w1 [Hrun _]]].
  - intros i w0 Hi. unfold task.
    destruct (nth_error items i) as [item |] eqn:E;
      [| apply nth_error_None in E; lia].
    destruct (Hfn item i w0 E) as [w1 Hrun]. now exists (f item i), w1.
  - cbn. lia.
  - lia.
  - intros i [].
  - assert (Hpool : asyncPool host concurrency items fn w =
                    (Ok (promise_values slots), w1)).
    { unfold asyncPool. fold task. rewrite bind_run, Hrun. reflexivity. }
    exists (promise_values slots), w1. split; [exact Hpool |].
    apply (asyncPool_post host
             (fun i r => forall item, nth_error items i = Some item -> r = f item i))
      in Hpool.
    + apply Forall2_seq_nth in Hpool. destruct Hpool as [Hlen Hall].
      split; [exact Hlen |]. intros i item Hitem.
      assert (Hi : (i < List.length items)%nat)
        by (apply nth_error_Some; congruence).
      destruct (Hall i Hi) as [r [E Hr]]. rewrite E. f_equal. now apply Hr.
    + intros i item w0 r w0' Hitem Hone item' Hitem'.
      assert (item' = item) by congruence. subst item'.
      destruct (Hfn item i w0 Hitem) as [w2 Hw2]. congruence.
Qed.

(** ** A multipart upload that goes through *)

Lemma sent_calmly_none : forall w, sent_calmly 0 w w.
Proof. intros w. exists []. now rewrite app_nil_r. Qed.

Lemma sent_calmly_add : forall a b w1 w2 w3,
  sent_calmly a w1 w2 -> sent_calmly b w2 w3 -> sent_calmly (a + b) w1 w3.
Proof.
  intros a b w1 w2 w3 [e1 [T1 [C1 F1]]] [e2 [T2 [C2 F2]]].
  exists (e1 ++ e2). rewrite T2, T1, app_assoc. split; [reflexivity |].
  split; [now rewrite count_events_app, C1, C2 |].
  now rewrite forallb_app, F1, F2.
Qed.

Lemma sent_calmly_progress : forall w ps pp,
  sent_calmly 0 w (mkWorld (trace w ++ map EvProgress ps) pp).
Proof.
  intros w ps pp. exists (map EvProgress ps). cbn [trace].
  split; [reflexivity |]. split.
  - now apply count_progress_events.
  - induction ps as [| q ps IH]; [reflexivity | exact IH].
Qed.

Lemma sent_calmly_request : forall w req,
  String.eqb (req_method req) "DELETE" = false ->
  sent_calmly 1 w (mkWorld (trace w ++ [EvRequest req]) (partProgresses w)).
Proof.
  intros w req Hm. exists [EvRequest req]. cbn [trace].
  split; [reflexivity |]. split; [reflexivity |].
  cbn. unfold calm. cbn. now rewrite Hm.
Qed.

Lemma dispatch_part_progress_calm size parts i onProgress : forall events w,
  exists w',
    dispatch_progress events (on_part_progress size parts i onProgress) w = (Ok tt, w') /\
    sent_calmly 0 w w'.
Proof.
  induction events as [| ev events IH]; intros w.
  - exists w. split; [reflexivity | apply sent_calmly_none].
  - cbn [dispatch_progress]. rewrite bind_run.
    destruct (lengthComputable ev).
    + unfold on_part_progress at 1.
      destruct onProgress; cbn [emit trace partProgresses].
      * match goal with
        | |- context [dispatch_progress events _ ?w0] =>
            destruct (IH w0) as [w' [Hrun Hcalm]];
            exists w'; split; [exact Hrun |];
            apply (sent_calmly_add 0 0 w w0 w'); [| exact Hcalm]
        end.
        exact (sent_calmly_progress w [_] _).
      * match goal with
        | |- context [dispatch_progress events _ ?w0] =>
            destruct (IH w0) as [w' [Hrun Hcalm]];
            exists w'; split; [exact Hrun |];
            apply (sent_calmly_add 0 0 w w0 w'); [| exact Hcalm]
        end.
        exists []. cbn [trace]. now rewrite app_nil_r.
    + cbn [ret]. apply IH.
Qed.

Section Accepting.

(** A store that answers every request with [answer]: a 2xx status, an
    [ETag] header, and a body from which an upload id can be read. *)
Variables (host : Host) (config : R2Config) (answer : Response).
Variables (etag uploadId : string).
Hypothesis crypto : crypto_available host = true.
Hypothesis always : forall tr req, respond host tr req = Responded answer.
Hypothesis accepted : 200 <= status answer <= 299.
Hypothesis has_etag : etagHeader answer = Some etag.
Hypothesis etag_not_empty : etag <> EmptyString.
Hypothesis has_id : parseUploadId host (responseText answer) = Some uploadId.
Hypothesis id_not_empty : uploadId <> EmptyString.

Lemma answer_ok : response_ok answer = true.
Proof. unfold response_ok. apply andb_true_iff. split; apply Z.leb_le; lia. Qed.

Lemma answer_ok_xhr : (status answer >=? 200) && (status answer <? 300) = true.
Proof.
  apply andb_true_iff. split; [rewrite Z.geb_leb; apply Z.leb_le | apply Z.ltb_lt]; lia.
Qed.

Lemma initiate_accepted key contentType w :
  exists w',
    initiateMultipartUpload host config key contentType w = (Ok uploadId, w') /\
    sent_calmly 1 w w'.
Proof.
  unfold initiateMultipartUpload.
  rewrite bind_run, getAmzDate_ok, bind_run, (sha256_ok host _ w crypto).
  match goal with
  | |- context [createAwsSignature host ?m ?p ?h ?c ?pl ?q] =>
      destruct (createAwsSignature_ok host m p h c pl q _ crypto eq_refl)
        as [signature Hsig]
  end.
  rewrite bind_run, Hsig. rewrite bind_run. unfold fetch.
  rewrite bind_run. cbn [get_trace]. rewrite bind_run. cbn [emit].
  rewrite always. cbn [ret]. rewrite answer_ok. cbn [negb]. rewrite has_id.
  destruct uploadId as [| c id] eqn:E; [contradiction |]. cbn [truthy].
  eexists. split; [reflexivity |]. now apply sent_calmly_request.
Qed.

Lemma uploadPart_accepted key partNumber body size parts i onProgress w :
  exists w',
    uploadPart host config key uploadId partNumber body
      (Some (on_part_progress size parts i onProgress)) w = (Ok etag, w') /\
    sent_calmly 1 w w'.
Proof.
  unfold uploadPart.
  rewrite bind_run, getAmzDate_ok, bind_run, (sha256_ok host _ w crypto).
  match goal with
  | |- context [createAwsSignature host ?m ?p ?h ?c ?pl ?q] =>
      destruct (createAwsSignature_ok host m p h c pl q _ crypto eq_refl)
        as [signature Hsig]
  end.
  rewrite bind_run, Hsig. unfold xhr_put.
  rewrite bind_run. cbn [get_trace]. rewrite bind_run. cbn [emit].
  rewrite bind_run.
  match goal with
  | |- context [dispatch_progress ?evs ?f ?w0] =>
      destruct (dispatch_part_progress_calm size parts i onProgress evs w0)
        as [w' [Hrun Hcalm]];
      assert (Hstep : sent_calmly 1 w w')
        by (apply (sent_calmly_add 1 0 w w0 w'); [| exact Hcalm];
            now apply sent_calmly_request)
  end.
  rewrite Hrun, always, answer_ok_xhr, has_etag.
  destruct etag as [| c e] eqn:E; [contradiction |]. cbn [truthy].
  exists w'. split; [reflexivity | exact Hstep].
Qed.

Lemma complete_accepted key parts w :
  exists w',
    completeMultipartUpload host config key uploadId parts w = (Ok tt, w') /\
    sent_calmly 1 w w'.
Proof.
  unfold completeMultipartUpload.
  rewrite bind_run, getAmzDate_ok, bind_run, (sha256_ok host _ w crypto).
  match goal with
  | |- context [createAwsSignature host ?m ?p ?h ?c ?pl ?q] =>
      destruct (createAwsSignature_ok host m p h c pl q _ crypto eq_refl)
        as [signature Hsig]
  end.
  rewrite bind_run, Hsig. rewrite bind_run. unfold fetch.
  rewrite bind_run. cbn [get_trace]. rewrite bind_run. cbn [emit].
  rewrite always. cbn [ret]. rewrite answer_ok. cbn [negb].
  eexists. split; [reflexivity |]. now apply sent_calmly_request.
Qed.

Lemma presigned_ok key expiresIn w :
  exists url, generatePresignedUrl host key config expiresIn w = (Ok url, w).
Proof.
  unfold generatePresignedUrl, getAmzDate, getSignatureKey, hmacSha256,
    hmacSha256Buffer, sha256.
  rewrite crypto. destruct (truthy (publicUrl config)); eexists; reflexivity.
Qed.

Lemma upload_one_part_accepted key file parts onProgress i w :
  exists part w',
    upload_one_part host config key uploadId file parts onProgress i w = (Ok part, w') /\
    sent_calmly 1 w w'.
Proof.
  unfold upload_one_part, retry_default.
  match goal with
  | |- context [uploadPart host config key uploadId ?n ?body (Some ?f)] =>
      destruct (uploadPart_accepted key n body (file_size file) parts i onProgress w)
        as [w' [Hrun Hstep]]
  end.
  rewrite bind_run, (retry_first_ok _ _ _ _ _ _ _ Hrun).
  eexists _, w'. split; [reflexivity | exact Hstep].
Qed.

Lemma multipart_upload_accepted key file onProgress w :
  exists w',
    multipart_upload host config key file onProgress w = (Ok tt, w') /\
    sent_calmly (Z.to_nat (totalParts_of (file_size file)) + 2) w w'.
Proof.
  unfold multipart_upload, retry_default.
  destruct (initiate_accepted key (content_type_of file) w) as [w1 [Hinit Hstep1]].
  rewrite bind_run, (retry_first_ok _ _ _ _ _ _ _ Hinit).
  rewrite bind_run. cbn [reset_progress].
  set (w2 := mkWorld (trace w1) _).
  assert (Hstep2 : sent_calmly 1 w w2).
  { destruct Hstep1 as [evs H]. exists evs. exact H. }
  rewrite try_catch_run. unfold multipart_body, retry_default.
  set (parts := totalParts_of (file_size file)).
  pose proof (pool_steps_all_ok host MAX_CONCURRENT_PARTS
                (List.length (seq 0 (Z.to_nat parts)))
                (fun index =>
                   match nth_error (seq 0 (Z.to_nat parts)) index with
                   | Some item =>
                       upload_one_part host config key uploadId file parts onProgress item
                   | None => throw (JsError "no such item")
                   end)
                sent_calmly sent_calmly_none sent_calmly_add) as Hpool.
  destruct (Hpool
              ltac:(intros i w0 Hi; cbv beta;
                    destruct (nth_error (seq 0 (Z.to_nat parts)) i) as [item |] eqn:E;
                      [apply upload_one_part_accepted
                      | apply nth_error_None in E; lia])
              (List.length (seq 0 (Z.to_nat parts))) 0%nat (@nil nat)
              (@nil (option Part)) w2
              ltac:(cbn; lia) ltac:(lia) ltac:(intros i []))
    as [slots [w3 [Hrun3 Hstep3]]].
  unfold asyncPool. rewrite bind_run, bind_run, Hrun3. cbn [ret].
  destruct (complete_accepted key (sort_parts (promise_values slots)) w3)
    as [w4 [Hrun4 Hstep4]].
  rewrite (retry_first_ok _ _ _ _ _ _ _ Hrun4).
  exists w4. split; [reflexivity |].
  rewrite length_seq in Hstep3. cbn [List.length] in Hstep3.
  replace (Z.to_nat parts + 2)%nat with (1 + ((Z.to_nat parts - 0 + 0) + 1))%nat by lia.
  exact (sent_calmly_add _ _ _ _ _ Hstep2 (sent_calmly_add _ _ _ _ _ Hstep3 Hstep4)).
Qed.

End Accepting.

Lemma calm_events : forall evs,
  forallb calm evs = true ->
  sleeps_of evs = [] /\ count_events is_delete evs = 0%nat /\
  count_events is_log evs = 0%nat.
Proof.
  induction evs as [| ev evs IH]; intros H; [now repeat split |].
  cbn [forallb] in H. apply andb_true_iff in H as [Hev Hrest].
  destruct (IH Hrest) as [Hs [Hd Hl]].
  unfold calm in Hev. apply andb_true_iff in Hev as [Hev Hdel].
  apply andb_true_iff in Hev as [Hsleep Hlog].
  apply negb_true_iff in Hsleep, Hlog, Hdel.
  unfold count_events in *. cbn [filter]. rewrite Hdel, Hlog.
  destruct ev; try discriminate; now repeat split.
Qed.

(** A file above 100 MB on a store that accepts everything (a 2xx
    answer with an [ETag] and a readable upload id, every time): the
    upload succeeds and returns the key and a URL; it sends exactly
    N + 2 requests for a file of N parts (the initiation, one PUT per
    part, the completion), never waits, logs nothing and never sends a
    DELETE. *)
Theorem accepted_multipart_upload :
  forall host config file hashFilenames onProgress customName w answer etag uploadId,
    crypto_available host = true ->
    getItem host (trace w) = Item config ->
    MULTIPART_THRESHOLD < file_size file ->
    (forall tr req, respond host tr req = Responded answer) ->
    200 <= status answer <= 299 ->
    etagHeader answer = Some etag -> etag <> EmptyString ->
    parseUploadId host (responseText answer) = Some uploadId ->
    uploadId <> EmptyString ->
    exists key url w' evs,
      uploadFileToR2 host file hashFilenames onProgress customName w =
        (Ok (key, url), w') /\
      trace w' = trace w ++ evs /\
      count_events is_request evs =
        (Z.to_nat (totalParts_of (file_size file)) + 2)%nat /\
      sleeps_of evs = [] /\
      count_events is_delete evs = 0%nat /\
      count_events is_log evs = 0%nat.
Proof.
  intros host config file hashFilenames onProgress customName w answer etag uploadId
    Hc Hitem Hsize Halways Hstatus Hetag Hne Hid Hidne.
  unfold uploadFileToR2, getR2Config.
  rewrite bind_run. cbn [get_trace bind]. rewrite Hitem. cbn [ret].
  destruct (hashed_or_not host hashFilenames
              (sanitizeFileName (nameToUse file customName)) w) as [key Hkey].
  rewrite bind_run, Hkey.
  replace (file_size file >? MULTIPART_THRESHOLD) with true
    by (symmetry; rewrite Z.gtb_ltb; apply Z.ltb_lt; exact Hsize).
  destruct (multipart_upload_accepted host config answer etag uploadId Hc Halways
              Hstatus Hetag Hne Hid Hidne key file onProgress w)
    as [w1 [Hrun [evs [Htr [Hcount Hcalm]]]]].
  rewrite bind_run, Hrun.
  destruct (presigned_ok host config Hc key (Some 600) w1) as [url Hurl].
  rewrite bind_run, Hurl. cbn [ret].
  exists key, url, w1, evs.
  destruct (calm_events evs Hcalm) as [Hs [Hd Hl]].
  now repeat split.
Qed.

(** ** The CORS probe, whatever the answer *)

(** Once the request is signed the probe never raises.  It sends one
    GET for the bucket's [?cors] and answers [true] exactly when the
    store answers with a 2xx status; a 404 gives [false] silently, any
    other status and an unanswered request give [false] after one entry
    in the log. *)
Theorem getBucketCors_answers : forall host config w,
  crypto_available host = true ->
  exists req logged,
    req_method req = "GET"%string /\
    req_url req = (r2_endpoint config ++ "/" ++ bucketName config ++ "?cors")%string /\
    trace (snd (getBucketCors host config w)) = trace w ++ EvRequest req :: logged /\
    fst (getBucketCors host config w) =
      Ok (match respond host (trace w) req with
          | Responded r => (200 <=? status r) && (status r <=? 299)
          | NetworkFailure _ => false
          end) /\
    match respond host (trace w) req with
    | Responded r =>
        if ((200 <=? status r) && (status r <=? 299)) || (status r =? 404)
        then logged = []
        else logged =
             [EvLog "Error checking CORS:"
                (JsError ("Failed to get CORS policy: " ++
                          number_to_string (status r) ++ " " ++ statusText r))]
    | NetworkFailure e => logged = [EvLog "Error checking CORS:" e]
    end.
Proof.
  intros host config w Hc.
  destruct (getBucketCors_outcome host config w Hc) as [req [Hm [Hu Hrun]]].
  cbv zeta in Hrun.
  assert (Hsnoc : forall ev : Event,
            (trace w ++ [EvRequest req]) ++ [ev] = trace w ++ [EvRequest req; ev])
    by (intros ev; now rewrite <- app_assoc).
  exists req.
  destruct (respond host (trace w) req) as [e | r].
  - exists [EvLog "Error checking CORS:" e]. rewrite Hrun. cbn [fst snd trace].
    split; [exact Hm |]. split; [exact Hu |]. split; [apply Hsnoc |].
    split; reflexivity.
  - unfold response_ok in Hrun. destruct (Z.eqb_spec (status r) 404) as [E | E].
    + exists []. rewrite Hrun. cbn [fst snd trace]. rewrite E.
      split; [exact Hm |]. split; [exact Hu |]. repeat split.
    + destruct ((200 <=? status r) && (status r <=? 299)); cbn [orb].
      * exists []. rewrite Hrun. cbn [fst snd trace].
        split; [exact Hm |]. split; [exact Hu |]. repeat split.
      * eexists [_]. rewrite Hrun. cbn [fst snd trace].
        split; [exact Hm |]. split; [exact Hu |]. split; [apply Hsnoc |].
        split; reflexivity.
Qed.

(** ** What the fingerprint does not see *)

(** Two files above 50 MB with the same name and size that agree on
    their first megabyte, on the megabyte from their middle and on their
    last megabyte have the same fingerprint, whatever the rest of their
    content; two files of at most 50 MB have the same fingerprint as
    soon as their content is the same, whatever their names. *)
Theorem fingerprint_blind_spots : forall host f g w,
  crypto_available host = true ->
  let MB := 1024 * 1024 in
  (50 * MB < file_size f ->
   file_name f = file_name g -> file_size f = file_size g ->
   file_slice f 0 MB = file_slice g 0 MB ->
   file_slice f (file_size f / 2) (file_size f / 2 + MB) =
     file_slice g (file_size f / 2) (file_size f / 2 + MB) ->
   file_slice_from f (file_size f - MB) = file_slice_from g (file_size f - MB) ->
   calculateFileHash host f w = calculateFileHash host g w) /\
  (file_size f <= 50 * MB -> file_content f = file_content g ->
   calculateFileHash host f w = calculateFileHash host g w).
Proof.
  intros host f g w Hc MB. split.
  - intros Hsize Hname Hlen Hfirst Hmid Hlast.
    unfold calculateFileHash. rewrite <- Hlen.
    replace (file_size f >? 50 * 1024 * 1024) with true
      by (symmetry; rewrite Z.gtb_ltb; apply Z.ltb_lt; unfold MB in Hsize; lia).
    unfold calculatePartialHash, partial_chunks, hash_metadata.
    rewrite <- Hname, <- Hlen.
    pose proof (half_bounds (file_size f)) as Hhalf.
    replace (file_size f / 2 >? 1024 * 1024) with true
      by (symmetry; rewrite Z.gtb_ltb; apply Z.ltb_lt; unfold MB in Hsize; lia).
    replace (file_size f >? 2 * (1024 * 1024)) with true
      by (symmetry; rewrite Z.gtb_ltb; apply Z.ltb_lt; unfold MB in Hsize; lia).
    replace (Z.max 0 (file_size f - 1024 * 1024)) with (file_size f - MB)
      by (unfold MB in *; lia).
    fold MB. now rewrite Hfirst, Hmid, Hlast.
  - intros Hsize Hcontent.
    assert (Hlen : file_size g = file_size f) by (unfold file_size; now rewrite Hcontent).
    unfold calculateFileHash. rewrite Hlen.
    replace (file_size f >? 50 * 1024 * 1024) with false
      by (symmetry; rewrite Z.gtb_ltb; apply Z.ltb_ge; unfold MB in Hsize; lia).
    now rewrite Hcontent.
Qed.

(** ** Deleting an object and setting the CORS policy *)

(** Deleting an object, with a configuration stored: exactly one DELETE
    for the object's URL is sent, without a body, and nothing else
    happens (no retry, no wait, no log).  The deletion succeeds on a 2xx
    answer and also on a 404; any other answer fails with
    [Delete failed: <status> <statusText>], and an unanswered request
    fails with the network's error. *)
Theorem deleteFileFromR2_outcome : forall host config fileId w,
  crypto_available host = true ->
  getItem host (trace w) = Item config ->
  exists req,
    req_method req = "DELETE"%string /\
    req_url req = (r2_endpoint config ++ "/" ++ bucketName config ++ "/" ++ fileId)%string /\
    req_body req = None /\
    trace (snd (deleteFileFromR2 host fileId w)) = trace w ++ [EvRequest req] /\
    fst (deleteFileFromR2 host fileId w) =
      match respond host (trace w) req with
      | NetworkFailure e => Throw e
      | Responded r =>
          if ((200 <=? status r) && (status r <=? 299)) || (status r =? 404) then Ok tt
          else Throw (JsError ("Delete failed: " ++ number_to_string (status r) ++
                               " " ++ statusText r))
      end.
Proof.
  intros host config fileId w Hc Hitem.
  destruct (delete_attempt host config fileId w Hc Hitem) as [req [Hm [Hu [Hb Hrun]]]].
  exists req. rewrite Hrun. now repeat split.
Qed.

(** Setting the CORS policy: exactly one PUT to the bucket's [?cors],
    of content type [application/xml], announcing the digest of the
    document it carries.  The document has no blank at either end and
    lists one [AllowedOrigin] element per origin given, in that order
    and with the origin's text as it is, then the methods GET, PUT, POST,
    DELETE and HEAD, any header, the exposed header [ETag] and a maximal
    age of 3000 s.  Unlike the probe, the setter raises: any answer that
    is not 2xx fails with [Failed to set CORS policy: <status>
    <statusText>]. *)
Theorem putBucketCors_outcome : forall host config origins w,
  crypto_available host = true ->
  let document :=
    ("<CORSConfiguration xmlns=" ++ dquote ++
     "http://s3.amazonaws.com/doc/2006-03-01/" ++ dquote ++ ">" ++ nl ++
     "      <CORSRule>" ++ nl ++
     "        " ++
     String.concat EmptyString
       (map (fun origin => "<AllowedOrigin>" ++ origin ++ "</AllowedOrigin>") origins) ++
     nl ++
     "        <AllowedMethod>GET</AllowedMethod>" ++ nl ++
     "        <AllowedMethod>PUT</AllowedMethod>" ++ nl ++
     "        <AllowedMethod>POST</AllowedMethod>" ++ nl ++
     "        <AllowedMethod>DELETE</AllowedMethod>" ++ nl ++
     "        <AllowedMethod>HEAD</AllowedMethod>" ++ nl ++
     "        <AllowedHeader>*</AllowedHeader>" ++ nl ++
     "        <ExposeHeader>ETag</ExposeHeader>" ++ nl ++
     "        <MaxAgeSeconds>3000</MaxAgeSeconds>" ++ nl ++
     "      </CORSRule>" ++ nl ++
     "    </CORSConfiguration>")%string in
  exists req,
    req_method req = "PUT"%string /\
    req_url req = (r2_endpoint config ++ "/" ++ bucketName config ++ "?cors")%string /\
    req_body req = Some (Text document) /\
    lookup "Content-Type" (req_headers req) = Some "application/xml"%string /\
    lookup "X-Amz-Content-Sha256" (req_headers req) =
      Some (hex_of_bytes (digest host (encode document))) /\
    trace (snd (putBucketCors host config origins w)) = trace w ++ [EvRequest req] /\
    fst (putBucketCors host config origins w) =
      match respond host (trace w) req with
      | NetworkFailure e => Throw e
      | Responded r =>
          if (200 <=? status r) && (status r <=? 299) then Ok tt
          else Throw (JsError ("Failed to set CORS policy: " ++
                               number_to_string (status r) ++ " " ++ statusText r))
      end.
Proof.
  intros host config origins w Hc document.
  destruct (putBucketCors_attempt host config origins w Hc)
    as [req [Hm [Hu [Hb [Ht [Hh Hrun]]]]]].
  rewrite corsXmlBody_explicit in Hb, Hh. fold document in Hb, Hh.
  exists req. rewrite Hrun. now repeat split.
Qed.

(** ** The further statements at concrete inputs *)

(** A store that has lost the object answers 404: the deletion succeeds. *)
Lemma deleteFileFromR2_outcome_witness :
  fst (deleteFileFromR2 (Scenario.host_with_status 404 "Not Found") "k.txt"
         Scenario.fresh) = Ok tt.
Proof.
  destruct (deleteFileFromR2_outcome (Scenario.host_with_status 404 "Not Found")
              Scenario.config "k.txt" Scenario.fresh eq_refl eq_refl)
    as [req [_ [_ [_ [_ Hrun]]]]].
  rewrite Hrun. reflexivity.
Defined.

(** A store that refuses the policy. *)
Lemma putBucketCors_outcome_witness :
  fst (putBucketCors (Scenario.host_with_status 403 "Forbidden") Scenario.config
         ["https://a.example"; "https://b.example"] Scenario.fresh)
  = Throw (JsError "Failed to set CORS policy: 403 Forbidden").
Proof.
  destruct (putBucketCors_outcome (Scenario.host_with_status 403 "Forbidden")
              Scenario.config ["https://a.example"; "https://b.example"]%string
              Scenario.fresh eq_refl)
    as [req [_ [_ [_ [_ [_ [_ Hrun]]]]]]].
  rewrite Hrun. reflexivity.
Defined.

Lemma no_crypto_nothing_sent_witness :
  fst (uploadFileToR2 Examples.insecure_host Scenario.small_file true true None
         Scenario.fresh) = Throw crypto_error /\
  deleteFileFromR2 Examples.insecure_host "k.txt" Scenario.fresh =
    (Throw crypto_error, Scenario.fresh).
Proof.
  pose proof (no_crypto_nothing_sent Examples.insecure_host Scenario.config
                Scenario.small_file true true None "k.txt" [] Scenario.fresh
                eq_refl eq_refl) as [Hupload [_ [Hdelete _]]].
  split; [exact Hupload | exact Hdelete].
Defined.

(** A file of 25 MB, in three parts. *)
Lemma progress_complete_witness :
  (totalProgress (25 * 1024 * 1024) 3 (array_fill 3 100) == 100)%Q.
Proof.
  exact (proj1 (proj2 (progress_complete (25 * 1024 * 1024) 0%Q eq_refl))).
Defined.

Lemma getAmzDate_format_witness :
  getAmzDate Scenario.quiet_host Scenario.fresh =
  (Ok "20240105T123456Z"%string, Scenario.fresh).
Proof.
  exact (proj1 (getAmzDate_format Scenario.quiet_host Scenario.fresh
                  "2024" "01" "05" "12" "34" "56" "789"
                  (conj eq_refl eq_refl) (conj eq_refl eq_refl) (conj eq_refl eq_refl)
                  (conj eq_refl eq_refl) (conj eq_refl eq_refl) (conj eq_refl eq_refl)
                  (conj eq_refl eq_refl) eq_refl)).
Defined.

Lemma hashed_key_format_witness :
  match fst (uploadFileToR2 Scenario.quiet_host Scenario.small_file true false None
               Scenario.fresh) with
  | Ok (key, _) => key = "20240105123456-4fzyo8.txt"%string
  | Throw _ => False
  end.
Proof.
  destruct (uploadFileToR2 Scenario.quiet_host Scenario.small_file true false None
              Scenario.fresh) as [[[key url] | e] w'] eqn:Hrun.
  - cbn [fst].
    exact (proj2 (hashed_key_format Scenario.quiet_host Scenario.small_file false None
                    Scenario.fresh key url w'
                    "2024" "01" "05" "12" "34" "56" "789"
                    (conj eq_refl eq_refl) (conj eq_refl eq_refl) (conj eq_refl eq_refl)
                    (conj eq_refl eq_refl) (conj eq_refl eq_refl) (conj eq_refl eq_refl)
                    (conj eq_refl eq_refl) eq_refl Hrun)
             "a-b"%string "txt"%string eq_refl eq_refl).
  - exfalso.
    assert (Hok : exists v, fst (uploadFileToR2 Scenario.quiet_host Scenario.small_file
                                   true false None Scenario.fresh) = Ok v)
      by (eexists; vm_compute; reflexivity).
    rewrite Hrun in Hok. destruct Hok as [v Hv]. discriminate.
Defined.

Lemma createAwsSignature_permutation_witness :
  createAwsSignature Scenario.quiet_host "GET" "/bucket/key" Examples.headers_listed
    Scenario.config (Text EmptyString) [("partNumber", "1"); ("uploadId", "u")]
    Scenario.fresh =
  createAwsSignature Scenario.quiet_host "GET" "/bucket/key" Examples.headers_shuffled
    Scenario.config (Text EmptyString) [("uploadId", "u"); ("partNumber", "1")]
    Scenario.fresh.
Proof.
  apply createAwsSignature_permutation.
  - repeat constructor; cbn; intuition discriminate.
  - unfold Examples.headers_listed, Examples.headers_shuffled.
    apply Permutation_sym. apply Permutation_cons_app with (l1 := [_; _]) (l2 := []).
    reflexivity.
  - repeat constructor; cbn; intuition discriminate.
  - apply perm_swap.
Defined.

Lemma rejected_upload_is_retried_witness :
  fst (uploadFileToR2 (Scenario.host_with_status 403 "Forbidden") Scenario.small_file
         false false None Scenario.fresh)
  = Throw (JsError "Upload failed: 403 Forbidden").
Proof.
  refine (proj1 (rejected_upload_is_retried (Scenario.host_with_status 403 "Forbidden")
                   Scenario.config Scenario.small_file false false None Scenario.fresh
                   (mkResponse 403 "Forbidden" None EmptyString) _ _ _ _ _)).
  - reflexivity.
  - reflexivity.
  - vm_compute. discriminate.
  - intros tr req. reflexivity.
  - right. cbn. lia.
Defined.

Lemma initiateMultipartUpload_outcome_witness :
  fst (initiateMultipartUpload Examples.accepting_host Scenario.config "k.bin"
         "video/mp4" Scenario.fresh) = Ok "upload-1"%string.
Proof.
  destruct (initiateMultipartUpload_outcome Examples.accepting_host Scenario.config
              "k.bin" "video/mp4" Scenario.fresh eq_refl)
    as [req [_ [_ [_ [_ Hrun]]]]].
  rewrite Hrun. reflexivity.
Defined.


Lemma asyncPool_in_item_order_witness :
  exists rs w',
    asyncPool Scenario.quiet_host 2 [10; 20; 30] (fun x i => ret (x + Z.of_nat i))
      Scenario.fresh = (Ok rs, w') /\
    nth_error rs 2 = Some 32.
Proof.
  destruct (asyncPool_in_item_order Z Z Scenario.quiet_host 2 [10; 20; 30]
              (fun x i => ret (x + Z.of_nat i)) (fun x i => x + Z.of_nat i)
              ltac:(intros item i w _; exists w; reflexivity) Scenario.fresh)
    as [rs [w' [Hrun [_ Hall]]]].
  exists rs, w'. split; [exact Hrun |]. exact (Hall 2%nat 30 eq_refl).
Defined.

(** One byte above the threshold: eleven parts, thirteen requests. *)
Lemma accepted_multipart_upload_witness :
  exists key url w' evs,
    uploadFileToR2 Examples.accepting_host Scenario.big_file false false None
      Scenario.fresh = (Ok (key, url), w') /\
    trace w' = trace Scenario.fresh ++ evs /\
    count_events is_request evs = 13%nat /\
    count_events is_delete evs = 0%nat.
Proof.
  assert (Hsize : MULTIPART_THRESHOLD < file_size Scenario.big_file)
    by (rewrite big_file_size; reflexivity).
  destruct (accepted_multipart_upload Examples.accepting_host Scenario.config
              Scenario.big_file false false None Scenario.fresh Scenario.ok_response
              "etag" "upload-1" eq_refl eq_refl Hsize (fun _ _ => eq_refl)
              ltac:(cbn; lia) eq_refl ltac:(discriminate) eq_refl ltac:(discriminate))
    as [key [url [w' [evs [Hrun [Htr [Hcount [_ [Hdel _]]]]]]]]].
  exists key, url, w', evs. rewrite big_file_size in Hcount.
  split; [exact Hrun |]. split; [exact Htr |]. split; [exact Hcount | exact Hdel].
Defined.

Lemma getBucketCors_answers_witness :
  fst (getBucketCors (Scenario.host_with_status 204 "No Content") Scenario.config
         Scenario.fresh) = Ok true.
Proof.
  destruct (getBucketCors_answers (Scenario.host_with_status 204 "No Content")
              Scenario.config Scenario.fresh eq_refl)
    as [req [logged [_ [_ [_ [Hrun _]]]]]].
  rewrite Hrun. reflexivity.
Defined.

(** The media type is no part of the fingerprint. *)
Lemma fingerprint_blind_spots_witness :
  calculateFileHash Scenario.quiet_host Scenario.big_file Scenario.fresh =
  calculateFileHash Scenario.quiet_host Examples.big_video Scenario.fresh.
Proof.
  assert (Hcontent : file_content Examples.big_video = file_content Scenario.big_file)
    by reflexivity.
  assert (Hsize : file_size Examples.big_video = file_size Scenario.big_file)
    by (unfold file_size; rewrite Hcontent; reflexivity).
  apply (proj1 (fingerprint_blind_spots Scenario.quiet_host Scenario.big_file
                  Examples.big_video Scenario.fresh eq_refl)).
  - rewrite big_file_size. reflexivity.
  - reflexivity.
  - rewrite Hsize. reflexivity.
  - unfold file_slice. rewrite Hcontent. reflexivity.
  - unfold file_slice. rewrite Hcontent. reflexivity.
  - unfold file_slice_from. rewrite Hcontent, Hsize. reflexivity.
Defined.

(** ** The application shell: names and duplicates in a batch *)

Lemma number_to_string_inj : forall a b,
  number_to_string a = number_to_string b -> a = b.
Proof.
  intros a b H. unfold number_to_string in H.
  apply DecimalZ.to_int_inj.
  assert (Hnn : forall z, Z.to_int z <> Decimal.Pos Decimal.Nil /\
                          Z.to_int z <> Decimal.Neg Decimal.Nil).
  { intros [| p | p]; cbn; split; try discriminate; intros E; inversion E;
      now apply (DecimalPos.Unsigned.to_uint_nonnil p). }
  assert (Hval : Some (Z.to_int a) = Some (Z.to_int b)).
  { rewrite <- (NilZero.isi (Z.to_int a)), <- (NilZero.isi (Z.to_int b)) by apply Hnn.
    now rewrite H. }
  now inversion Hval.
Qed.

Lemma ustr_inj : forall a b, ustr a = ustr b -> a = b.
Proof.
  induction a as [| x a IH]; intros [| y b] H; try discriminate; [reflexivity |].
  cbn in H. inversion H as [[Hx Hr]].
  f_equal; [| now apply IH].
  rewrite <- (ascii_N_embedding x), <- (ascii_N_embedding y). now rewrite Hx.
Qed.

Lemma same_name_spec : forall a b, App.same_name a b = true <-> a = b.
Proof.
  intros a b. unfold App.same_name.
  destruct (list_eq_dec N.eq_dec a b); split; intros; congruence.
Qed.

Lemma has_name_In : forall set x, App.has_name set x = true <-> In x set.
Proof.
  intros set x. unfold App.has_name. rewrite existsb_exists. split.
  - intros [y [Hy E]]. apply same_name_spec in E. now subst.
  - intros H. exists x. split; [exact H | now apply same_name_spec].
Qed.

Lemma has_hash_In : forall set x, App.has_hash set x = true <-> In x set.
Proof.
  intros set x. unfold App.has_hash. rewrite existsb_exists. split.
  - intros [y [Hy E]]. apply String.eqb_eq in E. now subst.
  - intros H. exists x. split; [exact H | apply String.eqb_refl].
Qed.

Lemma numbered_inj : forall fileName a b,
  App.numbered fileName a = App.numbered fileName b -> a = b.
Proof.
  intros fileName a b H. unfold App.numbered in H.
  apply number_to_string_inj, ustr_inj.
  destruct (App.lastIndexOf 46 fileName) as [i |].
  - apply app_inv_head, app_inv_tail, app_inv_head, app_inv_tail in H. exact H.
  - apply app_inv_head, app_inv_head, app_inv_tail in H. exact H.
Qed.

Lemma numbered_longer : forall fileName k,
  (List.length fileName < List.length (App.numbered fileName k))%nat.
Proof.
  intros fileName k. unfold App.numbered.
  destruct (App.lastIndexOf 46 fileName) as [i |].
  - rewrite !length_app.
    pose proof (f_equal (@List.length N) (firstn_skipn i fileName)) as E.
    rewrite length_app in E. cbn [List.length ustr map list_ascii_of_string] in *. lia.
  - rewrite !length_app. cbn [List.length ustr map list_ascii_of_string]. lia.
Qed.

Lemma NoDup_map_injective : forall (A B : Type) (f : A -> B) (l : list A),
  (forall x y, f x = f y -> x = y) -> NoDup l -> NoDup (map f l).
Proof.
  intros A B f l Hinj Hl. induction Hl as [| x l Hx Hl IH]; cbn; constructor.
  - intros Hin. apply in_map_iff in Hin as [y [E Hy]].
    apply Hinj in E. now subst.
  - exact IH.
Qed.

Section Renaming.

Variables (currentNames batchNames : list ustring) (fileName : ustring).

(** The names the loop tries, in order: the file's own, then the
    numbered ones. *)
Let candidate (k : nat) : ustring :=
  match k with
  | O => fileName
  | S _ => App.numbered fileName (Z.of_nat k)
  end.

Let taken := currentNames ++ batchNames.

Lemma candidate_inj : forall i j, candidate i = candidate j -> i = j.
Proof.
  intros [| i] [| j] H; cbn [candidate] in H.
  - reflexivity.
  - pose proof (numbered_longer fileName (Z.of_nat (S j))) as L. rewrite <- H in L. lia.
  - pose proof (numbered_longer fileName (Z.of_nat (S i))) as L. rewrite H in L. lia.
  - apply numbered_inj in H. lia.
Qed.

Lemma taken_spec : forall d,
  App.has_name currentNames d || App.has_name batchNames d = true <-> In d taken.
Proof.
  intros d. unfold taken. rewrite orb_true_iff, !has_name_In, in_app_iff. tauto.
Qed.

Lemma tried_bound : forall k,
  (forall j, (j < k)%nat -> In (candidate j) taken) -> (k <= List.length taken)%nat.
Proof.
  intros k H.
  replace k with (List.length (map candidate (seq 0 k)))
    by (now rewrite length_map, length_seq).
  apply NoDup_incl_length.
  - apply NoDup_map_injective; [exact candidate_inj | apply seq_NoDup].
  - intros d Hd. apply in_map_iff in Hd as [j [<- Hj]]. apply in_seq in Hj.
    apply H. lia.
Qed.

Lemma uniqueName_from : forall fuel k,
  (forall j, (j < k)%nat -> In (candidate j) taken) ->
  (List.length taken <= fuel + k)%nat ->
  exists j,
    (k <= j)%nat /\
    App.uniqueName fuel currentNames batchNames fileName (candidate k)
      (Z.of_nat k + 1) = Some (candidate j) /\
    ~ In (candidate j) taken /\
    (forall i, (i < j)%nat -> In (candidate i) taken).
Proof.
  induction fuel as [| fuel IH]; intros k Htried Hfuel;
    cbn [App.uniqueName];
    destruct (App.has_name currentNames (candidate k) ||
              App.has_name batchNames (candidate k)) eqn:Hhas.
  - exfalso. apply taken_spec in Hhas.
    assert (S k <= List.length taken)%nat; [| lia].
    apply tried_bound. intros j Hj.
    destruct (Nat.eq_dec j k) as [-> | Hne]; [exact Hhas | apply Htried; lia].
  - exists k. split; [lia |]. split; [reflexivity |]. split; [| exact Htried].
    intros Hin. apply taken_spec in Hin. congruence.
  - apply taken_spec in Hhas.
    destruct (IH (S k)) as [j [Hj [Hrun [Hfree Hall]]]].
    + intros j Hj.
      destruct (Nat.eq_dec j k) as [-> | Hne]; [exact Hhas | apply Htried; lia].
    + lia.
    + exists j. split; [lia |]. split; [| split; assumption].
      replace (Z.of_nat k + 1) with (Z.of_nat (S k)) by lia.
      replace (Z.of_nat (S k) + 1) with (Z.of_nat (S k) + 1) in Hrun by reflexivity.
      exact Hrun.
  - exists k. split; [lia |]. split; [reflexivity |]. split; [| exact Htried].
    intros Hin. apply taken_spec in Hin. congruence.
Qed.

(** With as much fuel as there are names in the two sets the loop ends:
    on the file's own name when it is free, else on the first numbered
    name that is. *)
Lemma uniqueName_ends :
  exists d,
    App.uniqueName (List.length currentNames + List.length batchNames)
      currentNames batchNames fileName fileName 1 = Some d /\
    ~ In d currentNames /\ ~ In d batchNames /\
    (d = fileName \/
     exists n, 1 <= n /\ d = App.numbered fileName n /\
       In fileName taken /\
       forall m, 1 <= m < n -> In (App.numbered fileName m) taken) /\
    (~ In fileName taken -> d = fileName).
Proof.
  destruct (uniqueName_from (List.length currentNames + List.length batchNames) 0)
    as [j [_ [Hrun [Hfree Hall]]]].
  - intros j Hj. lia.
  - unfold taken. rewrite length_app. lia.
  - exists (candidate j). split; [exact Hrun |].
    split; [intros H; apply Hfree; unfold taken; apply in_or_app; now left |].
    split; [intros H; apply Hfree; unfold taken; apply in_or_app; now right |].
    split.
    + destruct j as [| j]; [now left | right].
      exists (Z.of_nat (S j)). split; [lia |]. split; [reflexivity |].
      split; [exact (Hall 0%nat ltac:(lia)) |].
      intros m Hm. specialize (Hall (Z.to_nat m) ltac:(lia)).
      destruct (Z.to_nat m) as [| m'] eqn:E; [lia |].
      cbn [candidate] in Hall. rewrite <- E, Z2Nat.id in Hall by lia. exact Hall.
    + intros Hfile. destruct j as [| j]; [reflexivity |].
      exfalso. apply Hfile. exact (Hall 0%nat ltac:(lia)).
Qed.

End Renaming.

Lemma calculateFileHash_pure : forall host file,
  crypto_available host = true ->
  exists h, forall w, calculateFileHash host file w = (Ok h, w).
Proof.
  intros host file Hc. unfold calculateFileHash, calculatePartialHash.
  destruct (file_size file >? 50 * 1024 * 1024); eexists; intros w;
    apply sha256_ok; exact Hc.
Qed.

Lemma sound_batch_empty : forall host currentHashes currentNames,
  App.sound_batch host currentHashes currentNames [] App.empty_batch.
Proof.
  intros. constructor; cbn; try constructor; try tauto; try reflexivity.
Qed.

Section Collecting.

Variables (host : Host) (currentHashes : list string) (currentNames : list ustring).
Hypothesis crypto : crypto_available host = true.

Lemma sound_batch_duplicate : forall seen b f h,
  App.sound_batch host currentHashes currentNames seen b ->
  (forall w, calculateFileHash host f w = (Ok h, w)) ->
  In h (currentHashes ++ App.batchHashes b) ->
  App.sound_batch host currentHashes currentNames (seen ++ [f])
    (App.mkBatch (App.filesToProcess b) (App.duplicateCount b + 1)
       (App.batchHashes b) (App.batchNames b)).
Proof.
  intros seen b f h [H1 H2 H3 H4 H5 H6 H7 H8 H9] Hh Hin.
  constructor; cbn [App.filesToProcess App.duplicateCount App.batchHashes
                    App.batchNames]; try assumption.
  - intros item Hitem. destruct (H7 item Hitem) as [Ha [Hb [Hc Hd]]].
    split; [apply in_or_app; now left |]. split; [exact Hb |]. split; assumption.
  - intros g Hg. apply in_app_or in Hg as [Hg | [<- | []]].
    + exact (H8 g Hg).
    + exists h. split; assumption.
  - rewrite H9, length_app. cbn [List.length]. lia.
Qed.

Lemma sound_batch_kept : forall seen b f h d,
  App.sound_batch host currentHashes currentNames seen b ->
  (forall w, calculateFileHash host f w = (Ok h, w)) ->
  ~ In h (currentHashes ++ App.batchHashes b) ->
  ~ In d currentNames -> ~ In d (App.batchNames b) ->
  (d = file_name f \/ exists n, 1 <= n /\ d = App.numbered (file_name f) n) ->
  (d <> file_name f -> In (file_name f) (currentNames ++ App.batchNames b)) ->
  App.sound_batch host currentHashes currentNames (seen ++ [f])
    (App.mkBatch (App.filesToProcess b ++ [App.mkUploadItem f h d])
       (App.duplicateCount b) (App.batchHashes b ++ [h]) (App.batchNames b ++ [d])).
Proof.
  intros seen b f h d [H1 H2 H3 H4 H5 H6 H7 H8 H9] Hh Hnew Hd1 Hd2 Hform Htaken.
  assert (Hsnoc : forall (A : Type) (l : list A) (x : A),
            NoDup l -> ~ In x l -> NoDup (l ++ [x])).
  { intros A l x Hl Hx. apply NoDup_app; [exact Hl | repeat constructor; intros [] |].
    intros y Hy [<- | []]. contradiction. }
  constructor; cbn [App.filesToProcess App.duplicateCount App.batchHashes
                    App.batchNames].
  - rewrite map_app, H1. reflexivity.
  - rewrite map_app, H2. reflexivity.
  - apply Hsnoc; [exact H3 |]. intros Hin. apply Hnew, in_or_app. now right.
  - apply Hsnoc; assumption.
  - intros x Hx. apply in_app_or in Hx as [Hx | [<- | []]]; [now apply H5 |].
    intros Hin. apply Hnew, in_or_app. now left.
  - intros x Hx. apply in_app_or in Hx as [Hx | [<- | []]]; [now apply H6 | exact Hd1].
  - intros item Hitem. apply in_app_or in Hitem as [Hitem | [<- | []]].
    + destruct (H7 item Hitem) as [Ha [Hb [Hc Hdd]]].
      split; [apply in_or_app; now left |]. split; [exact Hb |].
      split; [exact Hc |]. intros Hne. specialize (Hdd Hne).
      rewrite app_assoc. apply in_or_app. now left.
    + cbn [App.file App.itemHash App.displayName].
      split; [apply in_or_app; right; now left |]. split; [exact Hh |].
      split; [exact Hform |]. intros Hne. specialize (Htaken Hne).
      rewrite app_assoc. apply in_or_app. now left.
  - intros g Hg. apply in_app_or in Hg as [Hg | [<- | []]].
    + destruct (H8 g Hg) as [k [Hk Hin]]. exists k. split; [exact Hk |].
      rewrite app_assoc. apply in_or_app. now left.
    + exists h. split; [exact Hh |]. apply in_or_app. right. apply in_or_app.
      right. now left.
  - rewrite H9, !length_app. cbn [List.length]. lia.
Qed.

(** The loop over the chosen files ends, leaves the world as it was,
    and keeps [sound_batch]. *)
Lemma collect_run : forall rest seen b w,
  App.sound_batch host currentHashes currentNames seen b ->
  exists b',
    App.collect host currentHashes currentNames rest b w = (Ok b', w) /\
    App.sound_batch host currentHashes currentNames (seen ++ rest) b'.
Proof.
  induction rest as [| f rest IH]; intros seen b w Hb.
  - exists b. rewrite app_nil_r. split; [reflexivity | exact Hb].
  - destruct (calculateFileHash_pure host f crypto) as [h Hh].
    cbn [App.collect]. rewrite bind_run, Hh.
    replace (seen ++ f :: rest) with ((seen ++ [f]) ++ rest)
      by (rewrite <- app_assoc; reflexivity).
    destruct (App.has_hash currentHashes h || App.has_hash (App.batchHashes b) h)
      eqn:Hdup.
    + apply IH. apply (sound_batch_duplicate seen b f h Hb Hh).
      apply orb_true_iff in Hdup. rewrite !has_hash_In in Hdup.
      apply in_or_app. exact Hdup.
    + destruct (uniqueName_ends currentNames (App.batchNames b) (file_name f))
        as [d [Hrun [Hd1 [Hd2 [Hform Hfree]]]]].
      rewrite Hrun. apply IH.
      apply (sound_batch_kept seen b f h d Hb Hh); try assumption.
      * intros Hin. apply in_app_or in Hin. rewrite <- !has_hash_In in Hin.
        apply orb_true_iff in Hin. congruence.
      * destruct Hform as [-> | [n [Hn [-> _]]]]; [now left | right].
        exists n. split; [exact Hn | reflexivity].
      * intros Hne. destruct Hform as [-> | [n [_ [_ [Hin _]]]]];
          [contradiction | exact Hin].
Qed.

End Collecting.

Lemma filter_existsb : forall (A : Type) (p : A -> bool) (l : list A),
  match filter p l with
  | [] => existsb p l = false
  | _ :: _ => existsb p l = true
  end.
Proof.
  intros A p l. induction l as [| x l IH]; cbn; [reflexivity |].
  destruct (p x); cbn; [reflexivity | exact IH].
Qed.

(** [handleFileUpload] as a function of the batch its loop collects. *)
Lemma handleFileUpload_run :
  forall host files storageLimit dismissedDate today filesToUpload w,
    crypto_available host = true ->
    exists b,
      App.sound_batch host (App.known_hashes files) (map App.name files)
        filesToUpload b /\
      App.handleFileUpload host files storageLimit dismissedDate today
        filesToUpload w =
      (Ok ((if App.duplicateCount b >? 0 then [App.duplicateFile] else []) ++
           (if existsb (fun item => file_size (App.file item) >? App.MAX_FILE_SIZE)
                 (App.filesToProcess b)
            then [App.fileTooLarge] else []),
           match App.filesToProcess b with
           | [] => App.Return
           | _ :: _ =>
               if existsb (fun item => file_size (App.file item) >? App.MAX_FILE_SIZE)
                    (App.filesToProcess b)
               then App.Return
               else if (App.total_size App.size files +
                        App.total_size (fun item => file_size (App.file item))
                          (App.filesToProcess b) >? storageLimit * 1024 * 1024 * 1024) &&
                       negb (match dismissedDate with
                             | Some d => String.eqb d today
                             | None => false
                             end)
               then App.ShowLimitModal (App.filesToProcess b)
               else App.ProcessUpload (App.filesToProcess b)
           end), w).
Proof.
  intros host files storageLimit dismissedDate today filesToUpload w Hc.
  destruct filesToUpload as [| f rest].
  - exists App.empty_batch. split; [apply sound_batch_empty | reflexivity].
  - destruct (collect_run host (App.known_hashes files) (map App.name files) Hc
                (f :: rest) [] App.empty_batch w (sound_batch_empty _ _ _))
      as [b [Hrun Hb]].
    exists b. split; [exact Hb |].
    unfold App.handleFileUpload. rewrite bind_run, Hrun.
    pose proof (filter_existsb _
      (fun item => file_size (App.file item) >? App.MAX_FILE_SIZE)
      (App.filesToProcess b)) as Hover.
    destruct (App.filesToProcess b) as [| item items].
    + cbn [existsb]. rewrite app_nil_r. reflexivity.
    + cbv beta match. set (its := item :: items) in *.
      destruct (filter _ its); rewrite Hover.
      * rewrite app_nil_r. destruct (_ && _); reflexivity.
      * reflexivity.
Qed.

Section Deciding.

Variables (its : list App.UploadItem) (over limit : bool).

Let next : App.Next :=
  match its with
  | [] => App.Return
  | _ :: _ =>
      if over then App.Return
      else if limit then App.ShowLimitModal its
      else App.ProcessUpload its
  end.

Lemma process_items : forall items,
  next = App.ProcessUpload items ->
  items = its /\ items <> [] /\ over = false /\ limit = false.
Proof.
  intros items H. unfold next in H.
  destruct its as [| x l]; [discriminate |].
  destruct over; [discriminate |]. destruct limit; [discriminate |].
  inversion H. repeat split. discriminate.
Qed.

Lemma modal_items : forall items,
  next = App.ShowLimitModal items ->
  items = its /\ items <> [] /\ over = false /\ limit = true.
Proof.
  intros items H. unfold next in H.
  destruct its as [| x l]; [discriminate |].
  destruct over; [discriminate |]. destruct limit; [| discriminate].
  inversion H. repeat split. discriminate.
Qed.

Lemma pending_items : forall items,
  next = App.ShowLimitModal items \/ next = App.ProcessUpload items ->
  items = its /\ items <> [] /\ over = false.
Proof.
  intros items [H | H];
    [apply modal_items in H | apply process_items in H]; tauto.
Qed.

End Deciding.

(** X20: with [crypto.subtle] there, [handleFileUpload] ends without
    touching the network; the files it passes on (to the limit dialog or
    to [processUpload]) come from the chosen ones, carry their own
    fingerprints, pairwise distinct and none of a stored file; every
    chosen file is either passed on or has the fingerprint of a stored or
    passed-on one; the duplicate notice is shown exactly when a file was
    dropped.  When every chosen file is already stored, nothing is
    uploaded and only the duplicate notice is shown. *)
Theorem handleFileUpload_drops_duplicates :
  forall host files storageLimit dismissedDate today filesToUpload w,
    crypto_available host = true ->
    exists shown next,
      App.handleFileUpload host files storageLimit dismissedDate today
        filesToUpload w = (Ok (shown, next), w) /\
      (forall items,
         next = App.ShowLimitModal items \/ next = App.ProcessUpload items ->
         NoDup (map App.itemHash items) /\
         (forall item, In item items ->
            In (App.file item) filesToUpload /\
            calculateFileHash host (App.file item) w = (Ok (App.itemHash item), w) /\
            ~ In (App.itemHash item) (App.known_hashes files)) /\
         (forall f, In f filesToUpload ->
            exists h, calculateFileHash host f w = (Ok h, w) /\
                      In h (App.known_hashes files ++ map App.itemHash items)) /\
         (In App.duplicateFile shown <->
          (List.length items < List.length filesToUpload)%nat)) /\
      (filesToUpload <> [] ->
       (forall f, In f filesToUpload ->
          exists h, calculateFileHash host f w = (Ok h, w) /\
                    In h (App.known_hashes files)) ->
       shown = [App.duplicateFile] /\ next = App.Return).
Proof.
  intros host files storageLimit dismissedDate today filesToUpload w Hc.
  destruct (handleFileUpload_run host files storageLimit dismissedDate today
              filesToUpload w Hc) as [b [Hb Hrun]].
  destruct Hb as [H1 H2 H3 H4 H5 H6 H7 H8 H9].
  eexists. eexists. split; [exact Hrun |]. split.
  - intros items Hnext. apply pending_items in Hnext as [-> [Hne Hover]].
    split; [rewrite <- H1; exact H3 |].
    split; [| split].
    + intros item Hitem. destruct (H7 item Hitem) as [Ha [Hh _]].
      split; [exact Ha |]. split; [apply Hh |].
      apply H5. rewrite H1. now apply in_map.
    + intros f Hf. destruct (H8 f Hf) as [h [Hh Hin]].
      exists h. split; [apply Hh |]. rewrite <- H1. exact Hin.
    + rewrite Hover, app_nil_r.
      assert (Hle : (List.length (App.filesToProcess b) <=
                     List.length filesToUpload)%nat).
      { (* the files passed on are distinct files among the chosen ones *)
        rewrite <- (length_map App.file). apply NoDup_incl_length.
        - apply (NoDup_map_inv
                   (fun g => match fst (calculateFileHash host g w) with
                             | Ok h => h
                             | Throw _ => EmptyString
                             end)).
          rewrite map_map, (map_ext_in _ App.itemHash).
          + rewrite <- H1. exact H3.
          + intros item Hitem. destruct (H7 item Hitem) as [_ [Hh _]].
            now rewrite Hh.
        - intros g Hg. apply in_map_iff in Hg as [item [<- Hitem]].
          now destruct (H7 item Hitem). }
      destruct (App.duplicateCount b >? 0) eqn:Hd.
      * apply Z.gtb_lt in Hd. split; [intros _; lia | intros _; now left].
      * rewrite Z.gtb_ltb in Hd. apply Z.ltb_ge in Hd.
        split; [intros [] | intros Hlt; lia].
  - intros Hne Hall.
    assert (Hnil : App.filesToProcess b = []).
    { destruct (App.filesToProcess b) as [| item items] eqn:E; [reflexivity |].
      exfalso.
      destruct (H7 item (or_introl eq_refl)) as [Ha [Hh _]].
      destruct (Hall _ Ha) as [h [Hh' Hin]]. rewrite Hh in Hh'.
      inversion Hh'; subst h. apply (H5 (App.itemHash item)); [| exact Hin].
      rewrite H1. now left. }
    rewrite Hnil in *. cbn [existsb]. rewrite app_nil_r.
    split; [| reflexivity].
    cbn [List.length] in H9.
    destruct filesToUpload as [| f rest]; [contradiction |].
    cbn [List.length] in H9.
    destruct (App.duplicateCount b >? 0) eqn:Hd; [reflexivity |].
    rewrite Z.gtb_ltb in Hd. apply Z.ltb_ge in Hd. lia.
Qed.

(** X21: the display names of the files passed on are pairwise distinct
    and none is the name of a stored file; each is the file's own name or
    that name with a counter, from 1 on, put before its last dot (at its
    end when it has none); a file is renamed only when its own name is
    that of a stored file or the display name of another file of the
    batch. *)
Theorem handleFileUpload_unique_names :
  forall host files storageLimit dismissedDate today filesToUpload w,
    crypto_available host = true ->
    exists shown next,
      App.handleFileUpload host files storageLimit dismissedDate today
        filesToUpload w = (Ok (shown, next), w) /\
      forall items,
        next = App.ShowLimitModal items \/ next = App.ProcessUpload items ->
        NoDup (map App.displayName items) /\
        forall item, In item items ->
          ~ In (App.displayName item) (map App.name files) /\
          (App.displayName item = file_name (App.file item) \/
           exists n, 1 <= n /\
             App.displayName item = App.numbered (file_name (App.file item)) n) /\
          (App.displayName item <> file_name (App.file item) ->
           In (file_name (App.file item))
              (map App.name files ++ map App.displayName items)).
Proof.
  intros host files storageLimit dismissedDate today filesToUpload w Hc.
  destruct (handleFileUpload_run host files storageLimit dismissedDate today
              filesToUpload w Hc) as [b [Hb Hrun]].
  destruct Hb as [H1 H2 H3 H4 H5 H6 H7 H8 H9].
  eexists. eexists. split; [exact Hrun |].
  intros items Hnext. apply pending_items in Hnext as [-> [Hne Hover]].
  split; [rewrite <- H2; exact H4 |].
  intros item Hitem. destruct (H7 item Hitem) as [_ [_ [Hform Htaken]]].
  split; [apply H6; rewrite H2; now apply in_map |].
  split; [exact Hform |]. rewrite <- H2. exact Htaken.
Qed.

(** X22: what [handleFileUpload] passes on respects the two size
    gates.  Files reach [processUpload] only if none is larger than
    5 GiB and either the stored and the new files together fit the
    storage limit or the prompt was dismissed today; the limit dialog
    opens on files that are each within 5 GiB, together over the limit,
    with the prompt not dismissed today.  The oversize notice is never
    followed by an upload; and when no chosen file exceeds 5 GiB and one
    of them has a fingerprint no stored file has, the files are passed
    on. *)
Theorem handleFileUpload_size_gates :
  forall host files storageLimit dismissedDate today filesToUpload w,
    crypto_available host = true ->
    exists shown next,
      App.handleFileUpload host files storageLimit dismissedDate today
        filesToUpload w = (Ok (shown, next), w) /\
      (forall items, next = App.ProcessUpload items ->
         items <> [] /\
         Forall (fun item => file_size (App.file item) <= App.MAX_FILE_SIZE) items /\
         (App.total_size App.size files +
          App.total_size (fun item => file_size (App.file item)) items
          <= storageLimit * 1024 * 1024 * 1024 \/
          dismissedDate = Some today)) /\
      (forall items, next = App.ShowLimitModal items ->
         items <> [] /\
         Forall (fun item => file_size (App.file item) <= App.MAX_FILE_SIZE) items /\
         App.total_size App.size files +
         App.total_size (fun item => file_size (App.file item)) items
         > storageLimit * 1024 * 1024 * 1024 /\
         dismissedDate <> Some today) /\
      (In App.fileTooLarge shown -> next = App.Return) /\
      (Forall (fun f => file_size f <= App.MAX_FILE_SIZE) filesToUpload ->
       (exists f, In f filesToUpload /\
          forall h, calculateFileHash host f w = (Ok h, w) ->
                    ~ In h (App.known_hashes files)) ->
       ~ In App.fileTooLarge shown /\ next <> App.Return).
Proof.
  intros host files storageLimit dismissedDate today filesToUpload w Hc.
  destruct (handleFileUpload_run host files storageLimit dismissedDate today
              filesToUpload w Hc) as [b [Hb Hrun]].
  destruct Hb as [H1 H2 H3 H4 H5 H6 H7 H8 H9].
  eexists. eexists. split; [exact Hrun |].
  set (over := existsb (fun item => file_size (App.file item) >? App.MAX_FILE_SIZE)
                 (App.filesToProcess b)).
  assert (Hsmall : over = false ->
            Forall (fun item => file_size (App.file item) <= App.MAX_FILE_SIZE)
              (App.filesToProcess b)).
  { intros Hover. apply Forall_forall. intros item Hitem.
    destruct (Z.leb_spec (file_size (App.file item)) App.MAX_FILE_SIZE) as [Hle | Hgt];
      [exact Hle | exfalso].
    assert (over = true); [| congruence].
    apply existsb_exists. exists item. split; [exact Hitem |].
    rewrite Z.gtb_ltb. now apply Z.ltb_lt. }
  assert (Hdismissed : forall d : option string,
            (match d with Some d => String.eqb d today | None => false end) = true <->
            d = Some today).
  { intros [d |]; [| split; discriminate].
    rewrite String.eqb_eq. split; [now intros -> | now intros [= ->]]. }
  split; [| split; [| split]].
  - intros items Hnext.
    apply process_items in Hnext as [-> [Hne [Hover Hlimit]]].
    split; [exact Hne |]. split; [now apply Hsmall |].
    apply andb_false_iff in Hlimit as [Hlimit | Hd].
    + left. rewrite Z.gtb_ltb in Hlimit. now apply Z.ltb_ge in Hlimit.
    + right. apply negb_false_iff in Hd. now apply Hdismissed.
  - intros items Hnext.
    apply modal_items in Hnext as [-> [Hne [Hover Hlimit]]].
    split; [exact Hne |]. split; [now apply Hsmall |].
    apply andb_true_iff in Hlimit as [Hlimit Hd].
    split; [apply Z.gtb_lt in Hlimit; lia |].
    intros Heq. apply Hdismissed in Heq. apply negb_true_iff in Hd. congruence.
  - intros Hin. destruct (App.filesToProcess b); [reflexivity |].
    destruct over; [reflexivity |]. exfalso.
    rewrite app_nil_r in Hin.
    destruct (_ >? 0); [destruct Hin as [Hin | []]; discriminate | destruct Hin].
  - intros Hall [f [Hf Hfresh]].
    assert (Hover : over = false).
    { destruct over eqn:E; [| reflexivity]. exfalso.
      apply existsb_exists in E as [item [Hitem Hbig]].
      destruct (H7 item Hitem) as [Ha _].
      rewrite Forall_forall in Hall. specialize (Hall _ Ha).
      apply Z.gtb_lt in Hbig. lia. }
    rewrite Hover, app_nil_r. split.
    + destruct (_ >? 0); [intros [Hin | []]; discriminate | intros []].
    + destruct (H8 f Hf) as [h [Hh Hin]].
      apply in_app_or in Hin as [Hin | Hin]; [now apply (Hfresh h (Hh w)) in Hin |].
      rewrite H1 in Hin.
      destruct (App.filesToProcess b); [destruct Hin |].
      destruct (_ && _); discriminate.
Qed.

(** ** The application shell: the sweep of expired files *)

Lemma length_filter_all : forall (A : Type) (p : A -> bool) (l : list A),
  Nat.eqb (List.length (filter (fun x => negb (p x)) l)) (List.length l) =
  negb (existsb p l).
Proof.
  intros A p l.
  assert (Hle : forall l', (List.length (filter (fun x => negb (p x)) l') <=
                            List.length l')%nat).
  { induction l' as [| y l' IH]; cbn; [lia |]. destruct (p y); cbn; lia. }
  induction l as [| x l IH]; [reflexivity |].
  cbn [filter existsb List.length]. destruct (p x); cbn [negb orb List.length].
  - apply Nat.eqb_neq. specialize (Hle l). lia.
  - cbn [Nat.eqb]. exact IH.
Qed.

Lemma unexpired_filter : forall now (l : list App.FileItem),
  filter (fun f => negb (now >=? App.expiresAt f)) l =
  filter (fun f => now <? App.expiresAt f) l.
Proof.
  intros now l. apply filter_ext. intros f.
  rewrite Z.geb_leb, Z.ltb_antisym. reflexivity.
Qed.

Section Sweeping.

Variables (host : Host) (config : R2Config) (now : Z).
Hypothesis crypto : crypto_available host = true.
Hypothesis stored : forall tr, getItem host tr = Item config.

Let expired (f : App.FileItem) : bool := now >=? App.expiresAt f.

Let deletes (req : Request) (f : App.FileItem) : Prop :=
  req_method req = "DELETE"%string /\
  req_url req =
    (r2_endpoint config ++ "/" ++ bucketName config ++ "/" ++ App.id f)%string /\
  req_body req = None.

Let accepted (f : App.FileItem) : Prop :=
  forall tr req, deletes req f ->
    exists r, respond host tr req = Responded r /\
              response_ok r || (status r =? 404) = true.

Lemma sweep_deletes : forall parsedFiles validFiles w,
  (forall f, In f parsedFiles -> expired f = true -> accepted f) ->
  exists reqs,
    Forall2 deletes reqs (filter expired parsedFiles) /\
    App.sweep host now parsedFiles validFiles w =
    (Ok (validFiles ++ filter (fun f => negb (expired f)) parsedFiles),
     mkWorld (trace w ++ map EvRequest reqs) (partProgresses w)).
Proof.
  induction parsedFiles as [| f rest IH]; intros validFiles w Hacc.
  - exists []. split; [constructor |]. cbn. rewrite !app_nil_r.
    destruct w; reflexivity.
  - cbn [App.sweep filter]. fold (expired f).
    destruct (expired f) eqn:Hexp; cbn [negb].
    + destruct (delete_attempt host config (App.id f) w crypto (stored _))
        as [req [Hm [Hu [Hb Hrun]]]].
      destruct (Hacc f (or_introl eq_refl) Hexp (trace w) req (conj Hm (conj Hu Hb)))
        as [r [Hr Hok]].
      rewrite Hr, Hok in Hrun.
      destruct (IH validFiles
                  (mkWorld (trace w ++ [EvRequest req]) (partProgresses w)))
        as [reqs [Hreqs Hrest]].
      { intros g Hg. apply Hacc. now right. }
      exists (req :: reqs). split.
      * constructor; [repeat split; assumption | exact Hreqs].
      * rewrite bind_run, Hrun, Hrest. cbn [trace partProgresses map].
        rewrite <- app_assoc. reflexivity.
    + destruct (IH (validFiles ++ [f]) w) as [reqs [Hreqs Hrest]].
      { intros g Hg. apply Hacc. now right. }
      exists reqs. split; [exact Hreqs |].
      rewrite Hrest, <- app_assoc. reflexivity.
Qed.

Lemma sweep_stops : forall before f after validFiles w answer error,
  (forall g, In g before -> expired g = true -> accepted g) ->
  expired f = true ->
  (forall tr req, deletes req f -> respond host tr req = answer) ->
  match answer with
  | NetworkFailure e => error = e
  | Responded r =>
      response_ok r || (status r =? 404) = false /\
      error = JsError ("Delete failed: " ++ number_to_string (status r) ++
                       " " ++ statusText r)
  end ->
  exists reqs req,
    Forall2 deletes reqs (filter expired before) /\
    deletes req f /\
    App.sweep host now (before ++ f :: after) validFiles w =
    (Throw error,
     mkWorld (trace w ++ map EvRequest reqs ++ [EvRequest req]) (partProgresses w)).
Proof.
  induction before as [| g before IH]; intros f after validFiles w answer error
    Hacc Hexp Hanswer Herror.
  - destruct (delete_attempt host config (App.id f) w crypto (stored _))
      as [req [Hm [Hu [Hb Hrun]]]].
    exists [], req. split; [constructor |]. split; [repeat split; assumption |].
    cbn [app App.sweep map]. fold (expired f). rewrite Hexp, bind_run, Hrun.
    rewrite (Hanswer (trace w) req (conj Hm (conj Hu Hb))).
    destruct answer as [e | r].
    + subst error. reflexivity.
    + destruct Herror as [Hbad ->]. rewrite Hbad. reflexivity.
  - cbn [app App.sweep filter]. fold (expired g).
    destruct (expired g) eqn:Hg.
    + destruct (delete_attempt host config (App.id g) w crypto (stored _))
        as [req0 [Hm [Hu [Hb Hrun]]]].
      destruct (Hacc g (or_introl eq_refl) Hg (trace w) req0 (conj Hm (conj Hu Hb)))
        as [r [Hr Hok]].
      rewrite Hr, Hok in Hrun.
      destruct (IH f after validFiles
                  (mkWorld (trace w ++ [EvRequest req0]) (partProgresses w))
                  answer error) as [reqs [req [Hreqs [Hreq Hrest]]]]; try assumption.
      { intros h Hh. apply Hacc. now right. }
      exists (req0 :: reqs), req. split; [| split; [exact Hreq |]].
      * constructor; [repeat split; assumption | exact Hreqs].
      * rewrite bind_run, Hrun, Hrest. cbn [trace partProgresses map].
        rewrite <- app_assoc. reflexivity.
    + destruct (IH f after (validFiles ++ [g]) w answer error)
        as [reqs [req [Hreqs [Hreq Hrest]]]]; try assumption.
      { intros h Hh. apply Hacc. now right. }
      exists reqs, req. split; [exact Hreqs |]. split; [exact Hreq | exact Hrest].
Qed.

End Sweeping.

(** X23: the sweep of expired files, with a store that accepts every
    DELETE (2xx or 404).  One DELETE is sent for each stored file whose
    expiry is not after [now], in the order of the list, for
    [<endpoint>/<bucket>/<id>]; the files not yet expired are kept in
    their order, and the list is replaced and saved only when some file
    had expired.  A failing save is logged and does not undo the
    replacement. *)
Theorem checkExpiredFiles_sweeps :
  forall host config files now persist w,
    crypto_available host = true ->
    (forall tr, getItem host tr = Item config) ->
    (forall tr req, exists r,
        respond host tr req = Responded r /\
        response_ok r || (status r =? 404) = true) ->
    exists reqs,
      Forall2 (fun req f =>
                 req_method req = "DELETE"%string /\
                 req_url req = (r2_endpoint config ++ "/" ++ bucketName config ++
                                "/" ++ App.id f)%string /\
                 req_body req = None)
        reqs (filter (fun f => now >=? App.expiresAt f) files) /\
      App.checkExpiredFiles host (App.Saved files) now persist w =
      (Ok (if existsb (fun f => now >=? App.expiresAt f) files
           then Some (filter (fun f => now <? App.expiresAt f) files)
           else None),
       mkWorld
         (trace w ++ map EvRequest reqs ++
          (if existsb (fun f => now >=? App.expiresAt f) files
           then match persist (filter (fun f => now <? App.expiresAt f) files) with
                | Some error => [EvLog "Error saving files:" error]
                | None => []
                end
           else []))
         (partProgresses w)).
Proof.
  intros host config files now persist w Hc Hstored Hanswers.
  destruct (sweep_deletes host config now Hc Hstored files [] w)
    as [reqs [Hreqs Hrun]].
  { intros f _ _ tr req _. apply Hanswers. }
  exists reqs. split; [exact Hreqs |].
  unfold App.checkExpiredFiles. rewrite try_catch_run, bind_run, Hrun.
  cbn [app]. rewrite length_filter_all, unexpired_filter.
  destruct (existsb _ files); cbn [negb].
  - rewrite bind_run. unfold App.saveFiles.
    destruct (persist _) as [error |]; cbn; [| rewrite app_nil_r];
      try rewrite <- app_assoc; reflexivity.
  - cbn. rewrite app_nil_r. reflexivity.
Qed.

(** X24: a deletion that fails stops the sweep.  When the store turns
    down the DELETE of an expired file (no answer, or an answer that is
    neither 2xx nor 404), the expired files before it in the list have
    been deleted, no request is sent for the files after it, the error is
    logged, and the list is neither replaced nor saved: the files already
    deleted from the bucket stay listed. *)
Theorem checkExpiredFiles_stops_at_failure :
  forall host config before f after now persist w answer error,
    crypto_available host = true ->
    (forall tr, getItem host tr = Item config) ->
    App.expiresAt f <= now ->
    (forall tr req,
        req_url req = (r2_endpoint config ++ "/" ++ bucketName config ++
                       "/" ++ App.id f)%string ->
        respond host tr req = answer) ->
    match answer with
    | NetworkFailure e => error = e
    | Responded r =>
        response_ok r || (status r =? 404) = false /\
        error = JsError ("Delete failed: " ++ number_to_string (status r) ++
                         " " ++ statusText r)
    end ->
    (forall g tr req,
        In g before -> App.expiresAt g <= now ->
        req_url req = (r2_endpoint config ++ "/" ++ bucketName config ++
                       "/" ++ App.id g)%string ->
        exists r, respond host tr req = Responded r /\
                  response_ok r || (status r =? 404) = true) ->
    exists reqs req,
      Forall2 (fun req g =>
                 req_method req = "DELETE"%string /\
                 req_url req = (r2_endpoint config ++ "/" ++ bucketName config ++
                                "/" ++ App.id g)%string /\
                 req_body req = None)
        reqs (filter (fun g => now >=? App.expiresAt g) before) /\
      req_url req = (r2_endpoint config ++ "/" ++ bucketName config ++
                     "/" ++ App.id f)%string /\
      App.checkExpiredFiles host (App.Saved (before ++ f :: after)) now persist w =
      (Ok None,
       mkWorld
         (trace w ++ map EvRequest reqs ++
          [EvRequest req; EvLog "Error checking expired files:" error])
         (partProgresses w)).
Proof.
  intros host config before f after now persist w answer error Hc Hstored Hexp
    Hanswer Herror Hbefore.
  destruct (sweep_stops host config now Hc Hstored before f after [] w answer error)
    as [reqs [req [Hreqs [[Hm [Hu Hb]] Hrun]]]].
  - intros g Hg Hge tr req [_ [Hurl _]].
    apply (Hbefore g tr req Hg); [| exact Hurl].
    rewrite Z.geb_leb in Hge. now apply Z.leb_le.
  - rewrite Z.geb_leb. now apply Z.leb_le.
  - intros tr req [_ [Hurl _]]. now apply Hanswer.
  - exact Herror.
  - exists reqs, req. split; [exact Hreqs |]. split; [exact Hu |].
    unfold App.checkExpiredFiles. rewrite try_catch_run, bind_run, Hrun.
    rewrite bind_run. cbn. rewrite <- !app_assoc. reflexivity.
Qed.

Lemma deleteFileFromR2_unavailable : forall host config fileId w,
  crypto_available host = false ->
  getItem host (trace w) = Item config ->
  deleteFileFromR2 host fileId w = (Throw crypto_error, w).
Proof.
  intros host config fileId w Hc Hitem.
  unfold deleteFileFromR2, getR2Config.
  rewrite bind_run. cbn [get_trace bind]. rewrite Hitem. cbn [ret].
  rewrite bind_run, getAmzDate_ok, bind_run, (sha256_unavailable host _ w Hc).
  reflexivity.
Qed.

Lemma calculateFileHash_unavailable : forall host file w,
  crypto_available host = false ->
  calculateFileHash host file w = (Throw crypto_error, w).
Proof.
  intros host file w Hc. unfold calculateFileHash, calculatePartialHash.
  destruct (file_size file >? 50 * 1024 * 1024); now apply sha256_unavailable.
Qed.

Lemma sweep_unavailable : forall host config now parsedFiles validFiles w,
  crypto_available host = false ->
  getItem host (trace w) = Item config ->
  existsb (fun f => now >=? App.expiresAt f) parsedFiles = true ->
  App.sweep host now parsedFiles validFiles w = (Throw crypto_error, w).
Proof.
  intros host config now parsedFiles. 
  induction parsedFiles as [| f rest IH]; intros validFiles w Hc Hitem Hexp;
    [discriminate |].
  cbn [App.sweep existsb] in *.
  destruct (now >=? App.expiresAt f).
  - rewrite bind_run, (deleteFileFromR2_unavailable host config _ w Hc Hitem).
    reflexivity.
  - now apply IH.
Qed.

(** X25: the shell on a page without [crypto.subtle].  Choosing files
    fails on the first fingerprint: no notice is shown, no dialog opens
    and nothing is uploaded.  The sweep of expired files deletes nothing:
    it logs the error and leaves the list as it is, so that expired files
    stay listed and stored. *)
Theorem shell_without_crypto :
  forall host config files storageLimit dismissedDate today filesToUpload
         now persist w,
    crypto_available host = false ->
    getItem host (trace w) = Item config ->
    (filesToUpload <> [] ->
     App.handleFileUpload host files storageLimit dismissedDate today
       filesToUpload w = (Throw crypto_error, w)) /\
    (existsb (fun f => now >=? App.expiresAt f) files = true ->
     App.checkExpiredFiles host (App.Saved files) now persist w =
     (Ok None,
      mkWorld (trace w ++ [EvLog "Error checking expired files:" crypto_error])
        (partProgresses w))).
Proof.
  intros host config files storageLimit dismissedDate today filesToUpload
    now persist w Hc Hitem.
  split.
  - intros Hne. destruct filesToUpload as [| f rest]; [contradiction |].
    unfold App.handleFileUpload. rewrite bind_run. cbn [App.collect].
    rewrite bind_run, (calculateFileHash_unavailable host f w Hc). reflexivity.
  - intros Hexp. unfold App.checkExpiredFiles.
    rewrite try_catch_run, bind_run,
      (sweep_unavailable host config now files [] w Hc Hitem Hexp).
    reflexivity.
Qed.

(** Three files chosen, two of them the same document, while another
    [report.pdf] is listed. *)
Lemma handleFileUpload_drops_duplicates_witness :
  exists shown next,
    App.handleFileUpload Examples.accepting_host [Shelf.listed_report] 10 None
      "Mon Jan 05 2024" [Shelf.report; Shelf.report_revised; Shelf.report]
      Scenario.fresh = (Ok (shown, next), Scenario.fresh) /\
    forall items, next = App.ProcessUpload items ->
      NoDup (map App.itemHash items) /\
      (In App.duplicateFile shown <-> (List.length items < 3)%nat).
Proof.
  destruct (handleFileUpload_drops_duplicates Examples.accepting_host
              [Shelf.listed_report] 10 None "Mon Jan 05 2024"
              [Shelf.report; Shelf.report_revised; Shelf.report]
              Scenario.fresh eq_refl) as [shown [next [Hrun [Hitems _]]]].
  exists shown, next. split; [exact Hrun |].
  intros items Hnext.
  destruct (Hitems items (or_intror Hnext)) as [Hnodup [_ [_ Hnotice]]].
  split; [exact Hnodup | exact Hnotice].
Defined.

Lemma handleFileUpload_unique_names_witness :
  exists shown next,
    App.handleFileUpload Examples.accepting_host [Shelf.listed_report] 10 None
      "Mon Jan 05 2024" [Shelf.report; Shelf.report_revised] Scenario.fresh =
    (Ok (shown, next), Scenario.fresh) /\
    forall items, next = App.ProcessUpload items ->
      NoDup (map App.displayName items) /\
      forall item, In item items ->
        ~ In (App.displayName item) [ustr "report.pdf"].
Proof.
  destruct (handleFileUpload_unique_names Examples.accepting_host
              [Shelf.listed_report] 10 None "Mon Jan 05 2024"
              [Shelf.report; Shelf.report_revised] Scenario.fresh eq_refl)
    as [shown [next [Hrun Hitems]]].
  exists shown, next. split; [exact Hrun |].
  intros items Hnext.
  destruct (Hitems items (or_intror Hnext)) as [Hnodup Hnames].
  split; [exact Hnodup |].
  intros item Hitem. exact (proj1 (Hnames item Hitem)).
Defined.

(** A storage limit of 0 GB, with the prompt dismissed on another day. *)
Lemma handleFileUpload_size_gates_witness :
  exists shown next,
    App.handleFileUpload Examples.accepting_host [Shelf.listed_report] 0
      (Some "Sun Jan 04 2024") "Mon Jan 05 2024" [Shelf.report] Scenario.fresh =
    (Ok (shown, next), Scenario.fresh) /\
    ~ In App.fileTooLarge shown /\ next <> App.Return /\
    forall items, next <> App.ProcessUpload items.
Proof.
  destruct (handleFileUpload_size_gates Examples.accepting_host
              [Shelf.listed_report] 0 (Some "Sun Jan 04 2024") "Mon Jan 05 2024"
              [Shelf.report] Scenario.fresh eq_refl)
    as [shown [next [Hrun [Hprocess [_ [_ Hpass]]]]]].
  exists shown, next. split; [exact Hrun |].
  assert (Hnext : ~ In App.fileTooLarge shown /\ next <> App.Return).
  { apply Hpass.
    - repeat constructor. discriminate.
    - exists Shelf.report. split; [now left |].
      intros h Hh. vm_compute in Hh. inversion Hh; subst h.
      intros [Hin | []]. discriminate. }
  split; [exact (proj1 Hnext) |]. split; [exact (proj2 Hnext) |].
  intros items Hitems. destruct (Hprocess items Hitems) as [_ [_ [Hfit | Hday]]].
  - assert (Hrun' : App.handleFileUpload Examples.accepting_host
              [Shelf.listed_report] 0 (Some "Sun Jan 04 2024") "Mon Jan 05 2024"
              [Shelf.report] Scenario.fresh =
            (Ok ([], App.ShowLimitModal
                       [App.mkUploadItem Shelf.report "010203" (ustr "report (1).pdf")]),
             Scenario.fresh)) by reflexivity.
    rewrite Hrun in Hrun'. inversion Hrun'; subst. discriminate.
  - discriminate.
Defined.

(** Two of the three listed files have expired. *)
Lemma checkExpiredFiles_sweeps_witness :
  fst (App.checkExpiredFiles Examples.accepting_host
         (App.Saved [Shelf.listed_report; Shelf.listed_notes; Shelf.listed_photo])
         1500 (fun _ => None) Scenario.fresh) = Ok (Some [Shelf.listed_report]).
Proof.
  destruct (checkExpiredFiles_sweeps Examples.accepting_host Scenario.config
              [Shelf.listed_report; Shelf.listed_notes; Shelf.listed_photo]
              1500 (fun _ => None) Scenario.fresh eq_refl (fun _ => eq_refl)
              (fun _ _ => ex_intro _ Scenario.ok_response (conj eq_refl eq_refl)))
    as [reqs [_ Hrun]].
  rewrite Hrun. reflexivity.
Defined.

(** The store deletes [k2-notes.txt] and refuses to delete
    [k3-photo.png]: both stay listed. *)
Lemma checkExpiredFiles_stops_at_failure_witness :
  fst (App.checkExpiredFiles Shelf.picky_host
         (App.Saved ([Shelf.listed_report; Shelf.listed_notes] ++
                     Shelf.listed_photo :: []))
         1500 (fun _ => None) Scenario.fresh) = Ok None.
Proof.
  destruct (checkExpiredFiles_stops_at_failure Shelf.picky_host Scenario.config
              [Shelf.listed_report; Shelf.listed_notes] Shelf.listed_photo []
              1500 (fun _ => None) Scenario.fresh
              (Responded (mkResponse 500 "Internal Server Error" None EmptyString))
              (JsError "Delete failed: 500 Internal Server Error")
              eq_refl (fun _ => eq_refl))
    as [reqs [req [_ [_ Hrun]]]].
  - cbn. lia.
  - intros tr req Hurl. cbn [respond Shelf.picky_host Scenario.host_answering].
    unfold Shelf.picky_answer. rewrite Hurl. reflexivity.
  - split; reflexivity.
  - intros g tr req [<- | [<- | []]] Hexp Hurl.
    + cbn in Hexp. lia.
    + exists (mkResponse 204 "No Content" None EmptyString).
      cbn [respond Shelf.picky_host Scenario.host_answering].
      unfold Shelf.picky_answer. rewrite Hurl. split; reflexivity.
  - rewrite Hrun. reflexivity.
Defined.

Lemma shell_without_crypto_witness :
  App.handleFileUpload Examples.insecure_host
    [Shelf.listed_report; Shelf.listed_notes] 10 None
    "Mon Jan 05 2024" [Shelf.report] Scenario.fresh =
  (Throw crypto_error, Scenario.fresh) /\
  fst (App.checkExpiredFiles Examples.insecure_host
         (App.Saved [Shelf.listed_report; Shelf.listed_notes]) 1500 (fun _ => None)
         Scenario.fresh) = Ok None.
Proof.
  destruct (shell_without_crypto Examples.insecure_host Scenario.config
              [Shelf.listed_report; Shelf.listed_notes] 10 None "Mon Jan 05 2024"
              [Shelf.report] 1500 (fun _ => None) Scenario.fresh eq_refl eq_refl)
    as [Hupload Hsweep].
  split.
  - apply Hupload. discriminate.
  - rewrite (Hsweep eq_refl). reflexivity.
Defined.
